(** * not-another-microblog: the enrichment and feed pipeline of [src/lib/api.ts]

    A shallow embedding of the data-access layer of the microblog
    (posts, follows, hashtags, mentions, link previews) together with the
    relational schema of
    [src/supabase/migrations/20251007193858_create_micro_twitter_schema.sql].

    - [Text]:   the three extraction functions ([parseHashtags],
                [parseMentions], [parseUrls]) and the regular expressions
                they use.
    - [Store]:  the tables, their constraints and the queries that
                [api.ts] sends through the supabase client.
    - [Async]:  asynchronous functions as trees of awaited requests, run
                against a store that other clients use at the same time.
    - [Api]:    the functions of [api.ts].
    - the properties of the specification. *)

From Stdlib Require Import Bool Arith List String Ascii ZArith Lia.
From Stdlib Require Import Sorting.Sorted Sorting.Permutation.
Import ListNotations.

Set Implicit Arguments.

(* ===================================================================== *)
(** * Text: strings, the regular expressions and the parsers              *)
(* ===================================================================== *)

Module Text.

(** A JavaScript string is a sequence of UTF-16 code units.  The model
    covers the code units 0..255, one per [ascii] character. *)

Definition code (c : ascii) : nat := nat_of_ascii c.

Definition between (lo hi : nat) (c : ascii) : bool :=
  (lo <=? code c) && (code c <=? hi).

Definition isUpper (c : ascii) : bool := between 65 90 c.      (* A-Z *)
Definition isLower (c : ascii) : bool := between 97 122 c.     (* a-z *)
Definition isDigit (c : ascii) : bool := between 48 57 c.      (* 0-9 *)

(** [\w]: without the [u] and [i] flags this is [[A-Za-z0-9_]]. *)
Definition isWord (c : ascii) : bool :=
  isUpper c || isLower c || isDigit c || (code c =? 95).

(** [\s]: white space and line terminators; below U+0100 these are
    TAB, LF, VT, FF, CR, SPACE and NBSP. *)
Definition isSpace (c : ascii) : bool :=
  between 9 13 c || (code c =? 32) || (code c =? 160).

(** [[^\s]] *)
Definition notSpace (c : ascii) : bool := negb (isSpace c).

(** [String.prototype.toLowerCase] on one code unit: A-Z and the
    Latin-1 capitals U+00C0..U+00DE (without the sign U+00D7). *)
Definition lowerChar (c : ascii) : ascii :=
  if isUpper c || (between 192 222 c && negb (code c =? 215))
  then ascii_of_nat (code c + 32)
  else c.

Fixpoint toLowerCase (s : string) : string :=
  match s with
  | EmptyString => EmptyString
  | String c s' => String (lowerChar c) (toLowerCase s')
  end.

(** [s.slice(1)] *)
Definition slice1 (s : string) : string :=
  match s with
  | EmptyString => EmptyString
  | String _ s' => s'
  end.

Fixpoint forallb_string (f : ascii -> bool) (s : string) : bool :=
  match s with
  | EmptyString => true
  | String c s' => f c && forallb_string f s'
  end.

Fixpoint existsb_string (f : ascii -> bool) (s : string) : bool :=
  match s with
  | EmptyString => false
  | String c s' => f c || existsb_string f s'
  end.

(** [[a-z0-9_]]: the word characters that [toLowerCase] leaves alone. *)
Definition isLowerWord (c : ascii) : bool :=
  isLower c || isDigit c || (code c =? 95).

(** The string has a letter of A-Z. *)
Definition hasUpper (s : string) : bool := existsb_string isUpper s.

(** A tag or handle in normal form: not empty, made of [[a-z0-9_]]
    only. *)
Definition normalized (t : string) : Prop :=
  t <> EmptyString /\ forallb_string isLowerWord t = true.

(** [ys] is the duplicate-free collapse of [xs]. *)
Definition collapse_of (xs ys : list string) : Prop :=
  NoDup ys /\ forall x, In x ys <-> In x xs.

(** ** Regular expressions

    A greedy run [c+] of a character class. *)
Fixpoint takeWhile (f : ascii -> bool) (s : string) : string :=
  match s with
  | EmptyString => EmptyString
  | String c s' => if f c then String c (takeWhile f s') else EmptyString
  end.

Fixpoint dropPrefix (p s : string) : option string :=
  match p, s with
  | EmptyString, _ => Some s
  | String a p', String b s' => if Ascii.eqb a b then dropPrefix p' s' else None
  | String _ _, EmptyString => None
  end.

(** A regular expression is embedded as the partial function that gives,
    for the text starting at the current position, the substring matched
    at that position (if any). *)
Definition regex := string -> option string.

(** [/#(\w+)/] and [/@(\w+)/]: the sigil and a greedy non-empty run of
    word characters. *)
Definition sigilWord (sigil : ascii) : regex := fun s =>
  match s with
  | String c rest =>
      if Ascii.eqb c sigil then
        match takeWhile isWord rest with
        | EmptyString => None
        | w => Some (String c w)
        end
      else None
  | EmptyString => None
  end.

Definition plusRun (prefix rest : string) : option string :=
  match takeWhile notSpace rest with
  | EmptyString => None
  | run => Some (prefix ++ run)%string
  end.

(** [/(https?:\/\/[^\s]+)/]: the optional [s] is greedy, and giving it
    back never helps, since [:] must follow. *)
Definition httpUrl : regex := fun s =>
  match dropPrefix "https://" s with
  | Some rest => plusRun "https://" rest
  | None =>
      match dropPrefix "http://" s with
      | Some rest => plusRun "http://" rest
      | None => None
      end
  end.

(** The loop of a global ([/g]) match: try the expression at the current
    index; after a match of length [n] the next attempt starts [n] code
    units later, after a failure one code unit later.  [skip] counts the
    code units still covered by the last match. *)
Fixpoint matchAll (rx : regex) (s : string) (skip : nat) : list string :=
  match s with
  | EmptyString => []
  | String _ s' =>
      match skip with
      | S k => matchAll rx s' k
      | O =>
          match rx s with
          | Some m => m :: matchAll rx s' (String.length m - 1)
          | None => matchAll rx s' 0
          end
      end
  end.

(** [content.match(regex)] with a global expression: [null] when nothing
    matches, otherwise the array of matched substrings. *)
Definition String_match (rx : regex) (content : string) : option (list string) :=
  match matchAll rx content 0 with
  | [] => None
  | ms => Some ms
  end.

Definition parseHashtags (content : string) : list string :=
  let regex := sigilWord "#" in
  let matches := String_match regex content in
  match matches with
  | Some ms => map (fun tag => toLowerCase (slice1 tag)) ms
  | None => []
  end.

Definition parseMentions (content : string) : list string :=
  let regex := sigilWord "@" in
  let matches := String_match regex content in
  match matches with
  | Some ms => map (fun m => toLowerCase (slice1 m)) ms
  | None => []
  end.

Definition parseUrls (content : string) : list string :=
  let regex := httpUrl in
  let matches := String_match regex content in
  match matches with
  | Some ms => ms
  | None => []
  end.

(** [Array.from(new Set(xs))]: a [Set] keeps the insertion order of the
    first occurrence of every value. *)
Fixpoint arrayFromSet (xs : list string) : list string :=
  match xs with
  | [] => []
  | x :: xs' => x :: filter (fun y => negb (String.eqb x y)) (arrayFromSet xs')
  end.

End Text.

(* ===================================================================== *)
(** * Store: the schema and the queries                                   *)
(* ===================================================================== *)

Module Store.

Definition uuid := nat.
Definition timestamptz := Z.

(** ** Rows, one record per table of the migration; a nullable column is
    an [option]. *)

Module Profile.
Record t := mk
  { id : uuid;
    handle : string;
    name : string;
    bio : option string;
    avatar_url : option string;
    is_admin : option bool;
    created_at : option timestamptz;
    updated_at : option timestamptz }.
End Profile.

Module Post.
Record t := mk
  { id : uuid;
    user_id : uuid;
    content : string;
    image_url : option string;
    is_deleted : option bool;
    deleted_by : option uuid;
    deleted_at : option timestamptz;
    created_at : option timestamptz }.
End Post.

Module Follow.
Record t := mk
  { id : uuid;
    follower_id : uuid;
    following_id : uuid;
    created_at : option timestamptz }.
End Follow.

Module Like.
Record t := mk
  { id : uuid;
    user_id : uuid;
    post_id : uuid;
    created_at : option timestamptz }.
End Like.

Module Hashtag.
Record t := mk
  { id : uuid;
    tag : string;
    created_at : option timestamptz }.
End Hashtag.

Module PostHashtag.
Record t := mk
  { post_id : uuid;
    hashtag_id : uuid }.
End PostHashtag.

Module Mention.
Record t := mk
  { id : uuid;
    post_id : uuid;
    user_id : uuid;
    created_at : option timestamptz }.
End Mention.

Module LinkPreview.
Record t := mk
  { id : uuid;
    url : string;
    title : option string;
    description : option string;
    image_url : option string;
    created_at : option timestamptz }.
End LinkPreview.

Module PostLink.
Record t := mk
  { post_id : uuid;
    link_preview_id : uuid }.
End PostLink.

(** The database: every table is the list of its rows in insertion
    order.  [uuid_next] stands for [uuid_generate_v4()] and [now] for the
    clock of the server. *)
Record Db := mkDb
  { profiles : list Profile.t;
    posts : list Post.t;
    follows : list Follow.t;
    likes : list Like.t;
    hashtags : list Hashtag.t;
    post_hashtags : list PostHashtag.t;
    mentions : list Mention.t;
    link_previews : list LinkPreview.t;
    post_links : list PostLink.t;
    uuid_next : uuid;
    now : timestamptz }.

Definition empty : Db :=
  mkDb [] [] [] [] [] [] [] [] [] 0 0%Z.

(** ** Errors and results *)

Inductive Error : Type :=
| UniqueViolation (constraint : string)        (* SQLSTATE 23505 *)
| ForeignKeyViolation (constraint : string)    (* SQLSTATE 23503 *)
| CheckViolation (constraint : string)         (* SQLSTATE 23514 *)
| NotSingleRow                                 (* PGRST116 *)
| Failure (message : string).                  (* any other failure *)

Definition message (e : Error) : string :=
  match e with
  | UniqueViolation c => "duplicate key value violates unique constraint " ++ c
  | ForeignKeyViolation c => "violates foreign key constraint " ++ c
  | CheckViolation c => "violates check constraint " ++ c
  | NotSingleRow => "JSON object requested, multiple (or no) rows returned"
  | Failure m => m
  end%string.

Definition isUniqueViolation (e : Error) : bool :=
  match e with UniqueViolation _ => true | _ => false end.

(** The [{ data, error }] object every supabase call resolves to. *)
Record Result (X : Type) : Type := mkResult
  { data : option X;
    error : option Error }.

Arguments mkResult {X} _ _.
Arguments data {X} _.
Arguments error {X} _.

Definition ok {X} (x : X) : Result X := mkResult (Some x) None.
Definition done {X} : Result X := mkResult None None.
Definition failed {X} (e : Error) : Result X := mkResult None (Some e).

(** ** Updating one table *)

Definition with_posts (l : list Post.t) (db : Db) : Db :=
  mkDb (profiles db) l (follows db) (likes db) (hashtags db)
       (post_hashtags db) (mentions db) (link_previews db) (post_links db)
       (uuid_next db) (now db).

Definition with_follows (l : list Follow.t) (db : Db) : Db :=
  mkDb (profiles db) (posts db) l (likes db) (hashtags db)
       (post_hashtags db) (mentions db) (link_previews db) (post_links db)
       (uuid_next db) (now db).

Definition with_likes (l : list Like.t) (db : Db) : Db :=
  mkDb (profiles db) (posts db) (follows db) l (hashtags db)
       (post_hashtags db) (mentions db) (link_previews db) (post_links db)
       (uuid_next db) (now db).

Definition with_hashtags (l : list Hashtag.t) (db : Db) : Db :=
  mkDb (profiles db) (posts db) (follows db) (likes db) l
       (post_hashtags db) (mentions db) (link_previews db) (post_links db)
       (uuid_next db) (now db).

Definition with_post_hashtags (l : list PostHashtag.t) (db : Db) : Db :=
  mkDb (profiles db) (posts db) (follows db) (likes db) (hashtags db)
       l (mentions db) (link_previews db) (post_links db)
       (uuid_next db) (now db).

Definition with_mentions (l : list Mention.t) (db : Db) : Db :=
  mkDb (profiles db) (posts db) (follows db) (likes db) (hashtags db)
       (post_hashtags db) l (link_previews db) (post_links db)
       (uuid_next db) (now db).

Definition with_link_previews (l : list LinkPreview.t) (db : Db) : Db :=
  mkDb (profiles db) (posts db) (follows db) (likes db) (hashtags db)
       (post_hashtags db) (mentions db) l (post_links db)
       (uuid_next db) (now db).

Definition with_post_links (l : list PostLink.t) (db : Db) : Db :=
  mkDb (profiles db) (posts db) (follows db) (likes db) (hashtags db)
       (post_hashtags db) (mentions db) (link_previews db) l
       (uuid_next db) (now db).

Definition with_uuid_next (n : uuid) (db : Db) : Db :=
  mkDb (profiles db) (posts db) (follows db) (likes db) (hashtags db)
       (post_hashtags db) (mentions db) (link_previews db) (post_links db)
       n (now db).

Definition with_now (t : timestamptz) (db : Db) : Db :=
  mkDb (profiles db) (posts db) (follows db) (likes db) (hashtags db)
       (post_hashtags db) (mentions db) (link_previews db) (post_links db)
       (uuid_next db) t.

(** ** Row predicates used by the constraints *)

Definition profile_exists (db : Db) (u : uuid) : bool :=
  existsb (fun p => Profile.id p =? u) (profiles db).

Definition post_exists (db : Db) (i : uuid) : bool :=
  existsb (fun p => Post.id p =? i) (posts db).

Definition hashtag_exists (db : Db) (i : uuid) : bool :=
  existsb (fun h => Hashtag.id h =? i) (hashtags db).

Definition link_preview_exists (db : Db) (i : uuid) : bool :=
  existsb (fun l => LinkPreview.id l =? i) (link_previews db).

Definition same_post_hashtag (a b : PostHashtag.t) : bool :=
  (PostHashtag.post_id a =? PostHashtag.post_id b)
  && (PostHashtag.hashtag_id a =? PostHashtag.hashtag_id b).

Definition same_post_link (a b : PostLink.t) : bool :=
  (PostLink.post_id a =? PostLink.post_id b)
  && (PostLink.link_preview_id a =? PostLink.link_preview_id b).

Definition is_follow (a b : uuid) (f : Follow.t) : bool :=
  (Follow.follower_id f =? a) && (Follow.following_id f =? b).

(** [CONSTRAINT content_length CHECK (char_length(content) > 0 AND
    char_length(content) <= 280)] *)
Definition content_length (content : string) : bool :=
  (0 <? String.length content) && (String.length content <=? 280).

(** [CONSTRAINT tag_format CHECK (tag ~ '^[a-zA-Z0-9_]+$')] *)
Definition tag_format (tag : string) : bool :=
  (0 <? String.length tag) && Text.forallb_string Text.isWord tag.

(** ** Reading the posts table

    The query that [getHomeFeed] and [getUserPosts] build over [posts],
    one field per builder call. *)
Record PostsQuery := mkPostsQuery
  { q_likes_count : bool;                      (* likes:likes(count) *)
    q_in_user_id : option (list uuid);         (* .in('user_id', ids) *)
    q_eq_user_id : option uuid;                (* .eq('user_id', id) *)
    q_eq_is_deleted : option bool;             (* .eq('is_deleted', b) *)
    q_lt_created_at : option timestamptz;      (* .lt('created_at', c) *)
    q_order_created_at_desc : bool;            (* .order('created_at', ...) *)
    q_limit : option nat }.                    (* .limit(n) *)

(** [profiles:user_id (id, handle, name, avatar_url)] *)
Module ProfileCard.
Record t := mk
  { id : uuid;
    handle : string;
    name : string;
    avatar_url : option string }.
End ProfileCard.

(** A row of the page: the post, its author and, when asked for, the
    number of its likes. *)
Module FeedRow.
Record t := mk
  { post : Post.t;
    profiles : option ProfileCard.t;
    likes : option nat }.
End FeedRow.

(** The WHERE clause.  A comparison with NULL is not true. *)
Definition where_posts (q : PostsQuery) (p : Post.t) : bool :=
  match q_in_user_id q with
  | Some ids => existsb (Nat.eqb (Post.user_id p)) ids
  | None => true
  end
  && match q_eq_user_id q with
     | Some u => Post.user_id p =? u
     | None => true
     end
  && match q_eq_is_deleted q with
     | Some b =>
         match Post.is_deleted p with
         | Some d => Bool.eqb d b
         | None => false
         end
     | None => true
     end
  && match q_lt_created_at q with
     | Some c =>
         match Post.created_at p with
         | Some t => (t <? c)%Z
         | None => false
         end
     | None => true
     end.

(** [ORDER BY created_at DESC]: NULLs come first; rows with the same
    timestamp keep their table order. *)
Definition desc (a b : option timestamptz) : bool :=
  match a, b with
  | None, _ => true
  | Some _, None => false
  | Some x, Some y => (y <=? x)%Z
  end.

Definition newer (p q : Post.t) : Prop :=
  desc (Post.created_at p) (Post.created_at q) = true.

Fixpoint insert_desc (p : Post.t) (l : list Post.t) : list Post.t :=
  match l with
  | [] => [p]
  | q :: l' =>
      if desc (Post.created_at p) (Post.created_at q)
      then p :: q :: l'
      else q :: insert_desc p l'
  end.

Definition order_desc (l : list Post.t) : list Post.t :=
  fold_right insert_desc [] l.

Definition author_card (db : Db) (p : Post.t) : option ProfileCard.t :=
  match find (fun pr => Profile.id pr =? Post.user_id p) (profiles db) with
  | Some pr =>
      Some (ProfileCard.mk (Profile.id pr) (Profile.handle pr)
              (Profile.name pr) (Profile.avatar_url pr))
  | None => None
  end.

Definition likes_count (db : Db) (p : Post.t) : nat :=
  List.length (filter (fun l => Like.post_id l =? Post.id p) (likes db)).

Definition feed_row (q : PostsQuery) (db : Db) (p : Post.t) : FeedRow.t :=
  FeedRow.mk p (author_card db p)
    (if q_likes_count q then Some (likes_count db p) else None).

(** WHERE, then ORDER BY, then LIMIT. *)
Definition select_page (q : PostsQuery) (db : Db) : list Post.t :=
  let matching := filter (where_posts q) (posts db) in
  let ordered :=
    if q_order_created_at_desc q then order_desc matching else matching in
  match q_limit q with
  | Some n => firstn n ordered
  | None => ordered
  end.

Definition select_posts (q : PostsQuery) (db : Db) : list FeedRow.t :=
  map (feed_row q db) (select_page q db).

(** Reading a page. *)
Definition createdAt (r : FeedRow.t) : option timestamptz :=
  Post.created_at (FeedRow.post r).

Definition older_than (c : timestamptz) (r : FeedRow.t) : Prop :=
  exists t, createdAt r = Some t /\ (t < c)%Z.

Definition newest_first (page : list FeedRow.t) : Prop :=
  StronglySorted (fun a b => desc (createdAt a) (createdAt b) = true) page.

Definition not_deleted (r : FeedRow.t) : Prop :=
  Post.is_deleted (FeedRow.post r) = Some false.

(** The pair a mention row records. *)
Definition mention_pair (m : Mention.t) : uuid * uuid :=
  (Mention.post_id m, Mention.user_id m).

(** ** The requests of [api.ts], indexed by the type of their [data] *)

Inductive Request : Type -> Type :=
  (* from('posts').insert({user_id, content, image_url}).select().single() *)
| InsertPost (user_id : uuid) (content : string) (image_url : option string)
    : Request Post.t
  (* from('posts').delete().eq('id', id), sent with the session [auth_uid] *)
| DeletePost (auth_uid : option uuid) (id : uuid) : Request unit
  (* from('posts').select(...) with the filters of the query *)
| SelectPosts (q : PostsQuery) : Request (list FeedRow.t)
  (* from('follows').select('following_id').eq('follower_id', a) *)
| SelectFollowing (follower_id : uuid) : Request (list uuid)
  (* from('follows').insert({follower_id, following_id}).select().single() *)
| InsertFollow (follower_id following_id : uuid) : Request Follow.t
  (* from('follows').delete().eq('follower_id', a).eq('following_id', b) *)
| DeleteFollow (follower_id following_id : uuid) : Request unit
  (* from('hashtags').select('*').eq('tag', tag).maybeSingle() *)
| SelectHashtag (tag : string) : Request Hashtag.t
  (* from('hashtags').insert({tag}).select().single() *)
| InsertHashtag (tag : string) : Request Hashtag.t
  (* from('post_hashtags').upsert(rows, {onConflict, ignoreDuplicates}) *)
| UpsertPostHashtags (rows : list PostHashtag.t) : Request unit
  (* from('profiles').select('id, handle').in('handle', handles) *)
| SelectProfilesByHandle (handles : list string) : Request (list (uuid * string))
  (* from('mentions').insert(rows), rows of {post_id, user_id} *)
| InsertMentions (rows : list (uuid * uuid)) : Request unit
  (* from('link_previews').select('id').eq('url', url).maybeSingle() *)
| SelectLinkPreview (url : string) : Request uuid
  (* from('link_previews').insert({url}).select('id').single() *)
| InsertLinkPreview (url : string) : Request uuid
  (* from('post_links').upsert(rows, {onConflict, ignoreDuplicates}) *)
| UpsertPostLinks (rows : list PostLink.t) : Request unit.

(** [.maybeSingle()] *)
Definition maybeSingle {X} (rows : list X) : Result X :=
  match rows with
  | [] => done
  | [r] => ok r
  | _ => failed NotSingleRow
  end.

(** ** What the store does with each request

    A statement that violates a constraint changes nothing.  Constraints
    are checked as PostgreSQL does: CHECK first, then unique indexes, then
    foreign keys. *)

Definition insert_post (user_id : uuid) (content : string)
    (image_url : option string) (db : Db) : Result Post.t * Db :=
  if negb (content_length content) then
    (failed (CheckViolation "content_length"), db)
  else if negb (profile_exists db user_id) then
    (failed (ForeignKeyViolation "posts_user_id_fkey"), db)
  else
    let row := Post.mk (uuid_next db) user_id content image_url
                 (Some false) None None (Some (now db)) in
    (ok row, with_uuid_next (S (uuid_next db)) (with_posts (posts db ++ [row]) db)).

(** Row-level security on [posts].  [auth_uid] is [auth.uid()]: the user
    of the session the statement is sent with, [None] without a session.
    The policies on [posts] decide which rows a DELETE or an UPDATE
    reaches, so they are part of what the store does with such a
    statement.  For the other statements of api.ts a policy either
    refuses the statement (an INSERT whose row fails its WITH CHECK),
    which a request meets as the fault of its event, or keeps a DELETE on
    follows or likes to the rows of the session's user, which are the
    rows the call names when it is made for the signed-in user.

    [CREATE POLICY "Non-deleted posts are viewable by everyone"
       ON posts FOR SELECT USING (is_deleted = false)] *)
Definition posts_select_policy (p : Post.t) : bool :=
  match Post.is_deleted p with
  | Some d => negb d
  | None => false
  end.

(** [CREATE POLICY "Users can delete their own posts"
       ON posts FOR DELETE TO authenticated USING (auth.uid() = user_id)] *)
Definition posts_delete_policy (auth_uid : option uuid) (p : Post.t) : bool :=
  match auth_uid with
  | Some u => u =? Post.user_id p
  | None => false
  end.

(** The rows [DELETE FROM posts WHERE id = $1] reaches: the statement
    filters on a column, so that a row has to pass the SELECT policy as
    well as the DELETE policy. *)
Definition deletable (auth_uid : option uuid) (id : uuid) (p : Post.t) : bool :=
  (Post.id p =? id) && posts_select_policy p && posts_delete_policy auth_uid p.

(** A row that the policies hide is not deleted, and that is no error.
    [ON DELETE CASCADE] on likes, post_hashtags, mentions and post_links. *)
Definition delete_post (auth_uid : option uuid) (id : uuid) (db : Db)
    : Result unit * Db :=
  if existsb (deletable auth_uid id) (posts db) then
    (done,
     with_posts (filter (fun p => negb (deletable auth_uid id p)) (posts db))
       (with_likes (filter (fun l => negb (Like.post_id l =? id)) (likes db))
          (with_post_hashtags
             (filter (fun l => negb (PostHashtag.post_id l =? id)) (post_hashtags db))
             (with_mentions
                (filter (fun m => negb (Mention.post_id m =? id)) (mentions db))
                (with_post_links
                   (filter (fun l => negb (PostLink.post_id l =? id)) (post_links db))
                   db)))))
  else (done, db).

Definition select_following (follower_id : uuid) (db : Db) : Result (list uuid) * Db :=
  (ok (map Follow.following_id
         (filter (fun f => Follow.follower_id f =? follower_id) (follows db))),
   db).

Definition insert_follow (follower_id following_id : uuid) (db : Db)
    : Result Follow.t * Db :=
  if follower_id =? following_id then
    (failed (CheckViolation "no_self_follow"), db)
  else if existsb (is_follow follower_id following_id) (follows db) then
    (failed (UniqueViolation "unique_follow"), db)
  else if negb (profile_exists db follower_id) then
    (failed (ForeignKeyViolation "follows_follower_id_fkey"), db)
  else if negb (profile_exists db following_id) then
    (failed (ForeignKeyViolation "follows_following_id_fkey"), db)
  else
    let row := Follow.mk (uuid_next db) follower_id following_id (Some (now db)) in
    (ok row, with_uuid_next (S (uuid_next db)) (with_follows (follows db ++ [row]) db)).

(** A DELETE that matches no row deletes nothing and reports no error. *)
Definition delete_follow (follower_id following_id : uuid) (db : Db)
    : Result unit * Db :=
  (done,
   with_follows
     (filter (fun f => negb (is_follow follower_id following_id f)) (follows db))
     db).

Definition select_hashtag (tag : string) (db : Db) : Result Hashtag.t * Db :=
  (maybeSingle (filter (fun h => String.eqb (Hashtag.tag h) tag) (hashtags db)), db).

Definition insert_hashtag (tag : string) (db : Db) : Result Hashtag.t * Db :=
  if negb (tag_format tag) then
    (failed (CheckViolation "tag_format"), db)
  else if existsb (fun h => String.eqb (Hashtag.tag h) tag) (hashtags db) then
    (failed (UniqueViolation "hashtags_tag_key"), db)
  else
    let row := Hashtag.mk (uuid_next db) tag (Some (now db)) in
    (ok row, with_uuid_next (S (uuid_next db)) (with_hashtags (hashtags db ++ [row]) db)).

(** [INSERT ... ON CONFLICT (post_id, hashtag_id) DO NOTHING]: a row whose
    pair is already there (in the table or earlier in the same statement)
    is skipped; only rows that are inserted are checked against the
    foreign keys. *)
Fixpoint upsert_post_hashtags_rows (db : Db) (rows table : list PostHashtag.t)
    : Error + list PostHashtag.t :=
  match rows with
  | [] => inr table
  | r :: rows' =>
      if existsb (same_post_hashtag r) table then
        upsert_post_hashtags_rows db rows' table
      else if negb (post_exists db (PostHashtag.post_id r)) then
        inl (ForeignKeyViolation "post_hashtags_post_id_fkey")
      else if negb (hashtag_exists db (PostHashtag.hashtag_id r)) then
        inl (ForeignKeyViolation "post_hashtags_hashtag_id_fkey")
      else upsert_post_hashtags_rows db rows' (table ++ [r])
  end.

Definition upsert_post_hashtags (rows : list PostHashtag.t) (db : Db)
    : Result unit * Db :=
  match upsert_post_hashtags_rows db rows (post_hashtags db) with
  | inl e => (failed e, db)
  | inr table => (done, with_post_hashtags table db)
  end.

Definition select_profiles_by_handle (handles : list string) (db : Db)
    : Result (list (uuid * string)) * Db :=
  (ok (map (fun p => (Profile.id p, Profile.handle p))
         (filter (fun p => existsb (String.eqb (Profile.handle p)) handles)
            (profiles db))),
   db).

Fixpoint mention_rows (id : uuid) (t : timestamptz) (rows : list (uuid * uuid))
    : list Mention.t :=
  match rows with
  | [] => []
  | (post_id, user_id) :: rows' =>
      Mention.mk id post_id user_id (Some t) :: mention_rows (S id) t rows'
  end.

(** The mentions table has no unique constraint besides its primary key:
    every row of the statement is inserted. *)
Definition insert_mentions (rows : list (uuid * uuid)) (db : Db)
    : Result unit * Db :=
  if negb (forallb (fun r => post_exists db (fst r)) rows) then
    (failed (ForeignKeyViolation "mentions_post_id_fkey"), db)
  else if negb (forallb (fun r => profile_exists db (snd r)) rows) then
    (failed (ForeignKeyViolation "mentions_user_id_fkey"), db)
  else
    (done,
     with_uuid_next (uuid_next db + List.length rows)
       (with_mentions (mentions db ++ mention_rows (uuid_next db) (now db) rows) db)).

Definition select_link_preview (url : string) (db : Db) : Result uuid * Db :=
  (maybeSingle
     (map LinkPreview.id
        (filter (fun l => String.eqb (LinkPreview.url l) url) (link_previews db))),
   db).

Definition insert_link_preview (url : string) (db : Db) : Result uuid * Db :=
  if existsb (fun l => String.eqb (LinkPreview.url l) url) (link_previews db) then
    (failed (UniqueViolation "link_previews_url_key"), db)
  else
    let row := LinkPreview.mk (uuid_next db) url None None None (Some (now db)) in
    (ok (LinkPreview.id row),
     with_uuid_next (S (uuid_next db))
       (with_link_previews (link_previews db ++ [row]) db)).

Fixpoint upsert_post_links_rows (db : Db) (rows table : list PostLink.t)
    : Error + list PostLink.t :=
  match rows with
  | [] => inr table
  | r :: rows' =>
      if existsb (same_post_link r) table then
        upsert_post_links_rows db rows' table
      else if negb (post_exists db (PostLink.post_id r)) then
        inl (ForeignKeyViolation "post_links_post_id_fkey")
      else if negb (link_preview_exists db (PostLink.link_preview_id r)) then
        inl (ForeignKeyViolation "post_links_link_preview_id_fkey")
      else upsert_post_links_rows db rows' (table ++ [r])
  end.

Definition upsert_post_links (rows : list PostLink.t) (db : Db)
    : Result unit * Db :=
  match upsert_post_links_rows db rows (post_links db) with
  | inl e => (failed e, db)
  | inr table => (done, with_post_links table db)
  end.

Definition exec {X} (r : Request X) (db : Db) : Result X * Db :=
  match r in Request X return Result X * Db with
  | InsertPost u c i => insert_post u c i db
  | DeletePost a i => delete_post a i db
  | SelectPosts q => (ok (select_posts q db), db)
  | SelectFollowing a => select_following a db
  | InsertFollow a b => insert_follow a b db
  | DeleteFollow a b => delete_follow a b db
  | SelectHashtag t => select_hashtag t db
  | InsertHashtag t => insert_hashtag t db
  | UpsertPostHashtags rows => upsert_post_hashtags rows db
  | SelectProfilesByHandle hs => select_profiles_by_handle hs db
  | InsertMentions rows => insert_mentions rows db
  | SelectLinkPreview u => select_link_preview u db
  | InsertLinkPreview u => insert_link_preview u db
  | UpsertPostLinks rows => upsert_post_links rows db
  end.

(** What another client does to the store: one of the requests above, or
    any other statement (an update of a profile, a soft delete by an
    administrator, ...), given by its effect on the tables. *)
Inductive Foreign : Type :=
| foreign {X} (r : Request X)
| statement (f : Db -> Db).

Definition exec_foreign (f : Foreign) (db : Db) : Db :=
  match f with
  | foreign r => snd (exec r db)
  | statement f => f db
  end.

End Store.

(* ===================================================================== *)
(** * Async: asynchronous functions and the event loop                    *)
(* ===================================================================== *)

Module Async.
Import Store.

(** What an [async] function can ask of its surroundings: a request to
    the store (one [await supabase...]), a line on the console, and, when
    it waits for several promises at once, the order in which the event
    loop resumes them. *)
Inductive Effect : Type -> Type :=
| Query {X} (q : Request X) : Effect (Result X)
| ConsoleError (line : string) : Effect unit
| Resume : Effect (list nat).

(** The body of an [async] function returning [A]: it returns, throws, or
    awaits an effect and goes on with its answer. *)
Inductive Prog (A : Type) : Type :=
| Ret (a : A)
| Throw (e : Error)
| Vis {R : Type} (eff : Effect R) (k : R -> Prog A).

Arguments Ret {A} _.
Arguments Throw {A} _.
Arguments Vis {A R} _ _.

Fixpoint bind {A B} (p : Prog A) (f : A -> Prog B) : Prog B :=
  match p with
  | Ret a => f a
  | Throw e => Throw e
  | Vis eff k => Vis eff (fun r => bind (k r) f)
  end.

Definition consoleError (line : string) : Prog unit :=
  Vis (ConsoleError line) Ret.

(** The state of a settled promise. *)
Inductive Outcome (A : Type) : Type :=
| Fulfilled (value : A)
| Rejected (reason : Error).

Arguments Fulfilled {A} _.
Arguments Rejected {A} _.

(** The outcomes a program can end with, whatever its effects answer. *)
Inductive reaches {A : Type} : Prog A -> Outcome A -> Prop :=
| reaches_Ret (a : A) : reaches (Ret a) (Fulfilled a)
| reaches_Throw (e : Error) : reaches (Throw e) (Rejected e)
| reaches_Vis {R : Type} (eff : Effect R) (k : R -> Prog A) (r : R) (o : Outcome A) :
    reaches (k r) o -> reaches (Vis eff k) o.

(** The program has no path that ends in a [throw]. *)
Fixpoint never_throws {A : Type} (p : Prog A) : Prop :=
  match p with
  | Ret _ => True
  | Throw _ => False
  | Vis _ k => forall r, never_throws (k r)
  end.

(** ** Several promises at once

    Every task is a program of its own.  The event loop resumes them one
    awaited effect at a time, in the order of a schedule (a list of task
    indexes); once the schedule is used up the tasks still running are
    completed in turn.  Every order in which the answers of the store can
    arrive is the result of some schedule. *)

Fixpoint settle {A B} (t : Prog A) (k : Outcome A -> Prog B) : Prog B :=
  match t with
  | Ret a => k (Fulfilled a)
  | Throw e => k (Rejected e)
  | Vis eff f => Vis eff (fun r => settle (f r) k)
  end.

(** The reason of the first promise that was rejected. *)
Definition noteRejection {A} (first : option Error) (t : Prog A) : option Error :=
  match first, t with
  | None, Throw e => Some e
  | _, _ => first
  end.

Definition noteOutcome {A} (first : option Error) (o : Outcome A) : option Error :=
  match first, o with
  | None, Rejected e => Some e
  | _, _ => first
  end.

Fixpoint drain {A} (ts : list (Prog A)) (settled : list (Outcome A))
    (first : option Error) : Prog (list (Outcome A) * option Error) :=
  match ts with
  | [] => Ret (rev settled, first)
  | t :: ts' => settle t (fun o => drain ts' (o :: settled) (noteOutcome first o))
  end.

Fixpoint replace {A} (i : nat) (x : A) (l : list A) : list A :=
  match l, i with
  | [], _ => []
  | _ :: l', O => x :: l'
  | y :: l', S j => y :: replace j x l'
  end.

Fixpoint interleave {A} (sched : list nat) (ts : list (Prog A))
    (first : option Error) : Prog (list (Outcome A) * option Error) :=
  match sched with
  | [] => drain ts [] first
  | i :: sched' =>
      match nth_error ts i with
      | Some (Vis eff k) =>
          Vis eff (fun r =>
            interleave sched' (replace i (k r) ts) (noteRejection first (k r)))
      | _ => interleave sched' ts first
      end
  end.

Fixpoint values {A} (os : list (Outcome A)) : list A :=
  match os with
  | [] => []
  | Fulfilled a :: os' => a :: values os'
  | Rejected _ :: os' => values os'
  end.

(** [Promise.all]: the array of the values, or the reason of the first
    rejection.  The tasks that are still running when one is rejected are
    not cancelled: their requests reach the store all the same. *)
Definition Promise_all {A} (ts : list (Prog A)) : Prog (list A) :=
  Vis Resume (fun sched =>
    bind (interleave sched ts (fold_left noteRejection ts None))
      (fun r =>
         match snd r with
         | Some e => Throw e
         | None => Ret (values (fst r))
         end)).

(** [Promise.allSettled]: never rejected; one outcome per promise. *)
Definition Promise_allSettled {A} (ts : list (Prog A)) : Prog (list (Outcome A)) :=
  Vis Resume (fun sched =>
    bind (interleave sched ts None) (fun r => Ret (fst r))).

(** ** Running a program

    The store is shared.  Before each request the other clients may have
    run requests of their own and time may have passed ([concurrent],
    [elapsed]); the request itself may fail for a reason outside the
    schema, such as the network or a row-level-security policy ([fault]),
    and then does not reach the tables. *)
Record Event := mkEvent
  { concurrent : list Foreign;
    elapsed : nat;
    fault : option Error }.

Definition calm : Event := mkEvent [] 0 None.

Record Machine := mkMachine
  { db : Db;
    console : list string;
    events : list Event;
    schedules : list (list nat) }.

(** No other client writes while the program runs. *)
Definition alone (m : Machine) : Prop :=
  Forall (fun ev => concurrent ev = []) (events m).

(** A store nobody else touches, and no faults. *)
Definition idle (d : Db) : Machine := mkMachine d [] [] [].

Definition disturb (ev : Event) (d : Db) : Db :=
  let d' := fold_left (fun d f => exec_foreign f d) (concurrent ev) d in
  with_now (now d' + Z.of_nat (elapsed ev))%Z d'.

Definition perform {R} (eff : Effect R) (m : Machine) : R * Machine :=
  match eff in Effect R return R * Machine with
  | Query q =>
      let ev := hd calm (events m) in
      let d := disturb ev (db m) in
      match fault ev with
      | Some e =>
          (failed e, mkMachine d (console m) (tl (events m)) (schedules m))
      | None =>
          (fst (exec q d),
           mkMachine (snd (exec q d)) (console m) (tl (events m)) (schedules m))
      end
  | ConsoleError line =>
      (tt, mkMachine (db m) (console m ++ [line]) (events m) (schedules m))
  | Resume =>
      (hd [] (schedules m),
       mkMachine (db m) (console m) (events m) (tl (schedules m)))
  end.

Fixpoint run {A} (p : Prog A) (m : Machine) : Outcome A * Machine :=
  match p with
  | Ret a => (Fulfilled a, m)
  | Throw e => (Rejected e, m)
  | Vis eff k => run (k (fst (perform eff m))) (snd (perform eff m))
  end.

Declare Scope prog_scope.
Delimit Scope prog_scope with prog.

Notation "x <- 'await' q ;; k" := (Vis (Query q) (fun x => k))
  (at level 100, q at next level, right associativity,
   format "x  <-  'await'  q  ;;  '//' k") : prog_scope.
Notation "x <- p ;; k" := (bind p (fun x => k))
  (at level 100, p at next level, right associativity,
   format "x  <-  p  ;;  '//' k") : prog_scope.

End Async.

(* ===================================================================== *)
(** * Api: the functions of src/lib/api.ts                                *)
(* ===================================================================== *)

Module Api.
Import Text Store Async.
Local Open Scope prog_scope.

(** Reading a property of [null] or [undefined]. *)
Definition TypeError : Error :=
  Failure "TypeError: Cannot read properties of null".

(** [imageUrl || null] *)
Definition orNull (s : option string) : option string :=
  match s with
  | Some EmptyString => None
  | _ => s
  end.

(* ---------------------- HASHTAGS / MENTIONS / LINKS ---------------------- *)

Definition getOrCreateHashtag (tag : string) : Prog (option Hashtag.t) :=
  let normalizedTag := toLowerCase tag in
  r <- await (SelectHashtag normalizedTag) ;;
  match data r with
  | Some existing => Ret (Some existing)
  | None =>
      r' <- await (InsertHashtag normalizedTag) ;;
      match error r' with
      | Some error => Throw error
      | None => Ret (data r')
      end
  end.

(** [hashtagRows.map((h) => ({ post_id: postId, hashtag_id: h.id }))] *)
Fixpoint hashtagLinks (postId : uuid) (hashtagRows : list (option Hashtag.t))
    : option (list PostHashtag.t) :=
  match hashtagRows with
  | [] => Some []
  | None :: _ => None
  | Some h :: hs =>
      match hashtagLinks postId hs with
      | Some rows => Some (PostHashtag.mk postId (Hashtag.id h) :: rows)
      | None => None
      end
  end.

Definition linkHashtags (postId : uuid) (content : string) : Prog unit :=
  let tags := arrayFromSet (parseHashtags content) in
  if List.length tags =? 0 then Ret tt else
  hashtagRows <- Promise_all (map (fun t => getOrCreateHashtag t) tags) ;;
  match hashtagLinks postId hashtagRows with
  | None => Throw TypeError
  | Some rows =>
      r <- await (UpsertPostHashtags rows) ;;
      match error r with
      | Some error => consoleError ("post_hashtags error: " ++ message error)
      | None => Ret tt
      end
  end.

Definition insertMentions (postId : uuid) (content : string) : Prog unit :=
  let handles := arrayFromSet (parseMentions content) in
  if List.length handles =? 0 then Ret tt else
  r <- await (SelectProfilesByHandle handles) ;;
  match error r with
  | Some error => consoleError ("mentions profiles error: " ++ message error)
  | None =>
      match data r with
      | None | Some [] => Ret tt
      | Some profiles =>
          let rows := map (fun p => (postId, fst p)) profiles in
          r' <- await (InsertMentions rows) ;;
          match error r' with
          | Some insertErr =>
              consoleError ("mentions insert error: " ++ message insertErr)
          | None => Ret tt
          end
      end
  end.

(** The profiles that the batch lookup of [insertMentions] finds, and the
    rows it then inserts. *)
Definition resolvedProfiles (content : string) (d : Db) : list Profile.t :=
  filter
    (fun p => existsb (String.eqb (Profile.handle p))
                (arrayFromSet (parseMentions content)))
    (profiles d).

Definition mentionRows (postId : uuid) (content : string) (d : Db)
    : list (uuid * uuid) :=
  map (fun p => (postId, Profile.id p)) (resolvedProfiles content d).

(** The [for (const url of urls)] loop of [linkUrls]. *)
Fixpoint previewIdsOf (urls : list string) (previewIds : list uuid)
    : Prog (list uuid) :=
  match urls with
  | [] => Ret previewIds
  | url :: urls' =>
      r <- await (SelectLinkPreview url) ;;
      match data r with
      | Some existing => previewIdsOf urls' (previewIds ++ [existing])
      | None =>
          r' <- await (InsertLinkPreview url) ;;
          match error r' with
          | Some error =>
              _ <- consoleError ("link_previews insert error: " ++ message error) ;;
              previewIdsOf urls' previewIds
          | None =>
              match data r' with
              | Some created => previewIdsOf urls' (previewIds ++ [created])
              | None => Throw TypeError
              end
          end
      end
  end.

Definition linkUrls (postId : uuid) (content : string) : Prog unit :=
  let urls := arrayFromSet (parseUrls content) in
  if List.length urls =? 0 then Ret tt else
  previewIds <- previewIdsOf urls [] ;;
  if List.length previewIds =? 0 then Ret tt else
  let rows := map (fun id => PostLink.mk postId id) previewIds in
  r <- await (UpsertPostLinks rows) ;;
  match error r with
  | Some error => consoleError ("post_links upsert error: " ++ message error)
  | None => Ret tt
  end.

(* ------------------------- CREATE / DELETE POSTS ------------------------- *)

Definition createPost (userId : uuid) (content : string)
    (imageUrl : option string) : Prog Post.t :=
  r <- await (InsertPost userId content (orNull imageUrl)) ;;
  match error r with
  | Some postError => Throw postError
  | None =>
      match data r with
      | None => Throw TypeError
      | Some post =>
          _ <- Promise_allSettled
                 [ linkHashtags (Post.id post) content;
                   insertMentions (Post.id post) content;
                   linkUrls (Post.id post) content ] ;;
          Ret post
      end
  end.

(** [deletePost]; [auth_uid] is the user of the session that the imported
    [supabase] client holds when it sends the request. *)
Definition deletePost (auth_uid : option uuid) (postId : uuid) : Prog unit :=
  r <- await (DeletePost auth_uid postId) ;;
  match error r with
  | Some error => Throw error
  | None => Ret tt
  end.

(* ------------------------------ HOME FEED ------------------------------- *)

(** The query builder. *)
Definition from_posts (likes_count : bool) : PostsQuery :=
  mkPostsQuery likes_count None None None None false None.

Definition in_user_id (ids : list uuid) (q : PostsQuery) : PostsQuery :=
  mkPostsQuery (q_likes_count q) (Some ids) (q_eq_user_id q) (q_eq_is_deleted q)
    (q_lt_created_at q) (q_order_created_at_desc q) (q_limit q).

Definition eq_user_id (id : uuid) (q : PostsQuery) : PostsQuery :=
  mkPostsQuery (q_likes_count q) (q_in_user_id q) (Some id) (q_eq_is_deleted q)
    (q_lt_created_at q) (q_order_created_at_desc q) (q_limit q).

Definition eq_is_deleted (b : bool) (q : PostsQuery) : PostsQuery :=
  mkPostsQuery (q_likes_count q) (q_in_user_id q) (q_eq_user_id q) (Some b)
    (q_lt_created_at q) (q_order_created_at_desc q) (q_limit q).

Definition order_created_at_desc (q : PostsQuery) : PostsQuery :=
  mkPostsQuery (q_likes_count q) (q_in_user_id q) (q_eq_user_id q)
    (q_eq_is_deleted q) (q_lt_created_at q) true (q_limit q).

Definition limit_ (n : nat) (q : PostsQuery) : PostsQuery :=
  mkPostsQuery (q_likes_count q) (q_in_user_id q) (q_eq_user_id q)
    (q_eq_is_deleted q) (q_lt_created_at q) (q_order_created_at_desc q) (Some n).

Definition lt_created_at (c : timestamptz) (q : PostsQuery) : PostsQuery :=
  mkPostsQuery (q_likes_count q) (q_in_user_id q) (q_eq_user_id q)
    (q_eq_is_deleted q) (Some c) (q_order_created_at_desc q) (q_limit q).

(** [limit = 20] *)
Definition limitOr20 (limit : option nat) : nat :=
  match limit with
  | Some n => n
  | None => 20
  end.

(** The list of authors of the home feed: [following.data?.map(...) || []]
    and then [push(userId)]. *)
Definition followingIdsOf (userId : uuid) (following : Result (list uuid))
    : list uuid :=
  (* a row of the answer is its only column, [following_id] *)
  let followingIds :=
    match data following with
    | Some rows => map (fun f => f) rows
    | None => []
    end in
  followingIds ++ [userId].

Definition homeFeedQuery (followingIds : list uuid) (cursor : option timestamptz)
    (limit : nat) : PostsQuery :=
  let query :=
    limit_ limit
      (order_created_at_desc
         (eq_is_deleted false (in_user_id followingIds (from_posts false)))) in
  match cursor with
  | Some c => lt_created_at c query
  | None => query
  end.

(** The post is older than the cursor, when there is one. *)
Definition before_cursor (cursor : option timestamptz) (p : Post.t) : Prop :=
  match cursor with
  | Some c => exists t, Post.created_at p = Some t /\ (t < c)%Z
  | None => True
  end.

Definition getHomeFeed (userId : uuid) (cursor : option timestamptz)
    (limit : option nat) : Prog (option (list FeedRow.t)) :=
  let limit := limitOr20 limit in
  following <- await (SelectFollowing userId) ;;
  let followingIds := followingIdsOf userId following in
  if List.length followingIds =? 0 then Ret (Some []) else
  r <- await (SelectPosts (homeFeedQuery followingIds cursor limit)) ;;
  match error r with
  | Some error => Throw error
  | None => Ret (data r)
  end.

Definition userPostsQuery (userId : uuid) (cursor : option timestamptz)
    (limit : nat) : PostsQuery :=
  let query :=
    limit_ limit
      (order_created_at_desc
         (eq_is_deleted false (eq_user_id userId (from_posts true)))) in
  match cursor with
  | Some c => lt_created_at c query
  | None => query
  end.

Definition getUserPosts (userId : uuid) (cursor : option timestamptz)
    (limit : option nat) : Prog (option (list FeedRow.t)) :=
  let limit := limitOr20 limit in
  r <- await (SelectPosts (userPostsQuery userId cursor limit)) ;;
  match error r with
  | Some error => Throw error
  | None => Ret (data r)
  end.

(* ---------------------------- FOLLOWS / LIKES --------------------------- *)

Definition followUser (followerId followingId : uuid) : Prog (option Follow.t) :=
  r <- await (InsertFollow followerId followingId) ;;
  match error r with
  | Some error => Throw error
  | None => Ret (data r)
  end.

Definition unfollowUser (followerId followingId : uuid) : Prog unit :=
  r <- await (DeleteFollow followerId followingId) ;;
  match error r with
  | Some error => Throw error
  | None => Ret tt
  end.

End Api.

(* ===================================================================== *)
(** * Scenario: a small instance                                          *)
(* ===================================================================== *)

Module Scenario.
Import Store Async.

Definition alice : Profile.t :=
  Profile.mk 1 "alice_dev" "Alice" None None (Some false) (Some 10%Z) (Some 10%Z).

Definition bob : Profile.t :=
  Profile.mk 2 "Bob_Designer" "Bob" None None (Some false) (Some 20%Z) (Some 20%Z).

Definition hello : Post.t :=
  Post.mk 50 1 "hello #world" None (Some false) None None (Some 100%Z).

Definition removed : Post.t :=
  Post.mk 51 1 "spam" None (Some true) (Some 2) (Some 250%Z) (Some 200%Z).

Definition reply : Post.t :=
  Post.mk 52 2 "hi @alice_dev" None (Some false) None None (Some 300%Z).

Definition world : Hashtag.t := Hashtag.mk 60 "world" (Some 100%Z).

(** Alice and Bob, three posts (one of them soft-deleted), nobody follows
    anybody. *)
Definition town : Db :=
  mkDb [alice; bob] [hello; removed; reply] [] [] [world]
       [PostHashtag.mk 50 60] [] [] [] 100 1000%Z.

(** Another client creates the hashtag [rust] after our lookup and before
    our insert. *)
Definition race : Machine :=
  mkMachine town [] [calm; mkEvent [foreign (InsertHashtag "rust")] 5 None] [].

(** The same race while a post is being created: the first request is the
    insert of the post, the next three are the first request of each
    enrichment task. *)
Definition posting_race : Machine :=
  mkMachine town []
    [calm; calm; calm; calm; mkEvent [foreign (InsertHashtag "rust")] 5 None]
    [[0; 1; 2; 0; 1; 2]; [0]].

End Scenario.

(* ===================================================================== *)
(** * StoreExt: the other queries of api.ts                               *)
(* ===================================================================== *)

Module StoreExt.
Import Store.

Definition with_profiles (l : list Profile.t) (db : Db) : Db :=
  mkDb l (posts db) (follows db) (likes db) (hashtags db)
       (post_hashtags db) (mentions db) (link_previews db) (post_links db)
       (uuid_next db) (now db).

(** [updates: { name?: string; bio?: string; avatar_url?: string }]; a
    field that is [undefined] is not sent. *)
Record ProfileUpdates := mkUpdates
  { new_name : option string;
    new_bio : option string;
    new_avatar_url : option string }.

(** The answer to a query made with [{ count: 'exact', head: true }]. *)
Record Counted := mkCounted
  { count : option nat;
    count_error : option Error }.

(** A row of the answer to the pages' query for posts: the five columns
    of the select list and the author, who is never missing since the
    join is an inner join. *)
Module PageRow.
Record t := mk
  { id : uuid;
    content : string;
    image_url : option string;
    created_at : option timestamptz;
    user_id : uuid;
    profiles : ProfileCard.t }.
End PageRow.

Inductive Request : Type -> Type :=
  (* from('posts').update({is_deleted: true, deleted_by, deleted_at}).eq('id', id),
     sent with the session [auth_uid] *)
| SoftDeletePost (auth_uid : option uuid) (id deleted_by : uuid)
    (deleted_at : timestamptz) : Request unit
  (* from('profiles').select('*').eq('handle', handle).maybeSingle() *)
| SelectProfile (handle : string) : Request Profile.t
  (* from('profiles').update(updates).eq('id', id).select().single() *)
| UpdateProfile (id : uuid) (updates : ProfileUpdates) : Request Profile.t
  (* from('follows').select('id').eq('follower_id', a).eq('following_id', b).maybeSingle() *)
| SelectFollow (follower_id following_id : uuid) : Request uuid
  (* from('likes').insert({user_id, post_id}).select().single() *)
| InsertLike (user_id post_id : uuid) : Request Like.t
  (* from('likes').delete().eq('user_id', u).eq('post_id', p) *)
| DeleteLike (user_id post_id : uuid) : Request unit
  (* from('likes').select('id').eq('user_id', u).eq('post_id', p).maybeSingle() *)
| SelectLike (user_id post_id : uuid) : Request uuid
  (* from('posts').select('id, content, image_url, created_at, user_id,
     profiles!inner (id, handle, name, avatar_url)') with the filters of
     the query *)
| SelectPostsInner (q : PostsQuery) : Request (list PageRow.t)
  (* from('likes').select('post_id', { count: 'exact' }).in('post_id', ids) *)
| SelectLikesOfPosts (post_ids : list uuid) : Request (list uuid)
  (* from('likes').select('post_id').eq('user_id', u).in('post_id', ids) *)
| SelectLikesOfUser (user_id : uuid) (post_ids : list uuid) : Request (list uuid).

Inductive CountRequest : Type :=
  (* from('follows').select('*', {count, head}).eq('following_id', id) *)
| CountFollowers (following_id : uuid)
  (* from('follows').select('*', {count, head}).eq('follower_id', id) *)
| CountFollowing (follower_id : uuid)
  (* from('likes').select('*', {count, head}).eq('post_id', id) *)
| CountLikes (post_id : uuid).

Definition is_like (u p : uuid) (l : Like.t) : bool :=
  (Like.user_id l =? u) && (Like.post_id l =? p).

Definition mark_deleted (deleted_by : uuid) (deleted_at : timestamptz) (p : Post.t)
    : Post.t :=
  Post.mk (Post.id p) (Post.user_id p) (Post.content p) (Post.image_url p)
    (Some true) (Some deleted_by) (Some deleted_at) (Post.created_at p).

(** [EXISTS (SELECT 1 FROM profiles WHERE profiles.id = auth.uid()
                AND profiles.is_admin = true)] *)
Definition is_admin_user (db : Db) (auth_uid : option uuid) : bool :=
  match auth_uid with
  | Some u =>
      existsb (fun pr => (Profile.id pr =? u)
                         && match Profile.is_admin pr with
                            | Some b => b
                            | None => false
                            end)
        (profiles db)
  | None => false
  end.

(** The two UPDATE policies of [posts], "Users can update their own posts"
    and "Admins can soft-delete any post": permissive policies, so that
    one of them is enough.  Each has the same expression for [USING] (on
    the row as it is) and for [WITH CHECK] (on the row as written). *)
Definition posts_update_policy (db : Db) (auth_uid : option uuid) (p : Post.t)
    : bool :=
  match auth_uid with
  | Some u => u =? Post.user_id p
  | None => false
  end
  || is_admin_user db auth_uid.

(** The rows [UPDATE posts SET ... WHERE id = $1] reaches: the statement
    filters on a column, so that a row has to pass the SELECT policy as
    well as the UPDATE policies. *)
Definition updatable (db : Db) (auth_uid : option uuid) (id : uuid) (p : Post.t)
    : bool :=
  (Post.id p =? id) && posts_select_policy p && posts_update_policy db auth_uid p.

(** SQLSTATE 42501, raised when a row that a statement writes fails a
    policy. *)
Definition row_security_violation (table : string) : Error :=
  Failure ("new row violates row-level security policy for table " ++ table).

(** An UPDATE that reaches no row changes nothing and reports no error.
    The rows as written are checked against the [WITH CHECK] of the UPDATE
    policies and, since the statement reads the table, against the SELECT
    policy too (PostgreSQL, CREATE POLICY, "Policies Applied by Command
    Type": for UPDATE the SELECT policies apply to existing and new
    rows); a row that fails makes the statement fail.  Then [deleted_by]
    has to refer to a profile. *)
Definition soft_delete_post (auth_uid : option uuid) (id deleted_by : uuid)
    (deleted_at : timestamptz) (db : Db) : Result unit * Db :=
  let written :=
    map (mark_deleted deleted_by deleted_at)
      (filter (updatable db auth_uid id) (posts db)) in
  if negb (existsb (updatable db auth_uid id) (posts db)) then (done, db)
  else if negb (forallb (posts_update_policy db auth_uid) written
                && forallb posts_select_policy written) then
    (failed (row_security_violation "posts"), db)
  else if negb (profile_exists db deleted_by) then
    (failed (ForeignKeyViolation "posts_deleted_by_fkey"), db)
  else
    (done,
     with_posts
       (map (fun p => if updatable db auth_uid id p
                      then mark_deleted deleted_by deleted_at p else p)
          (posts db))
       db).

Definition select_profile (handle : string) (db : Db) : Result Profile.t * Db :=
  (maybeSingle
     (filter (fun p => String.eqb (Profile.handle p) handle) (profiles db)),
   db).

Definition no_column (u : ProfileUpdates) : bool :=
  match new_name u, new_bio u, new_avatar_url u with
  | None, None, None => true
  | _, _, _ => false
  end.

(** The columns of the update, and [updated_at] as the trigger
    [update_profiles_updated_at] sets it. *)
Definition updated (u : ProfileUpdates) (t : timestamptz) (p : Profile.t)
    : Profile.t :=
  Profile.mk (Profile.id p) (Profile.handle p)
    match new_name u with Some n => n | None => Profile.name p end
    match new_bio u with Some b => Some b | None => Profile.bio p end
    match new_avatar_url u with Some a => Some a | None => Profile.avatar_url p end
    (Profile.is_admin p) (Profile.created_at p) (Some t).

(** [.single()] wants exactly one row back: with none (or with no column
    to set) the answer is the error PGRST116 and nothing is written. *)
Definition update_profile (id : uuid) (u : ProfileUpdates) (db : Db)
    : Result Profile.t * Db :=
  if no_column u then (failed NotSingleRow, db)
  else
    match filter (fun p => Profile.id p =? id) (profiles db) with
    | [p] =>
        (ok (updated u (now db) p),
         with_profiles
           (map (fun q => if Profile.id q =? id then updated u (now db) q else q)
              (profiles db))
           db)
    | _ => (failed NotSingleRow, db)
    end.

Definition select_follow (a b : uuid) (db : Db) : Result uuid * Db :=
  (maybeSingle (map Follow.id (filter (is_follow a b) (follows db))), db).

Definition insert_like (user_id post_id : uuid) (db : Db) : Result Like.t * Db :=
  if existsb (is_like user_id post_id) (likes db) then
    (failed (UniqueViolation "unique_like"), db)
  else if negb (profile_exists db user_id) then
    (failed (ForeignKeyViolation "likes_user_id_fkey"), db)
  else if negb (post_exists db post_id) then
    (failed (ForeignKeyViolation "likes_post_id_fkey"), db)
  else
    let row := Like.mk (uuid_next db) user_id post_id (Some (now db)) in
    (ok row, with_uuid_next (S (uuid_next db)) (with_likes (likes db ++ [row]) db)).

Definition delete_like (user_id post_id : uuid) (db : Db) : Result unit * Db :=
  (done,
   with_likes (filter (fun l => negb (is_like user_id post_id l)) (likes db)) db).

Definition select_like (u p : uuid) (db : Db) : Result uuid * Db :=
  (maybeSingle (map Like.id (filter (is_like u p) (likes db))), db).

(** [profiles!inner]: an inner join, so a post without the row of its
    author is left out before the page is cut. *)
Definition has_author (db : Db) (p : Post.t) : bool :=
  match author_card db p with
  | Some _ => true
  | None => false
  end.

Definition select_page_inner (q : PostsQuery) (db : Db) : list Post.t :=
  let matching :=
    filter (fun p => where_posts q p && has_author db p) (posts db) in
  let ordered :=
    if q_order_created_at_desc q then order_desc matching else matching in
  match q_limit q with
  | Some n => firstn n ordered
  | None => ordered
  end.

Definition page_row (db : Db) (p : Post.t) : list PageRow.t :=
  match author_card db p with
  | Some card =>
      [PageRow.mk (Post.id p) (Post.content p) (Post.image_url p)
         (Post.created_at p) (Post.user_id p) card]
  | None => []
  end.

Definition select_posts_inner (q : PostsQuery) (db : Db) : list PageRow.t :=
  flat_map (page_row db) (select_page_inner q db).

(** A row of these answers is its only column, [post_id]. *)
Definition select_likes_of_posts (post_ids : list uuid) (db : Db) : list uuid :=
  map Like.post_id
    (filter (fun l => existsb (Nat.eqb (Like.post_id l)) post_ids) (likes db)).

Definition select_likes_of_user (user_id : uuid) (post_ids : list uuid) (db : Db)
    : list uuid :=
  map Like.post_id
    (filter (fun l => (Like.user_id l =? user_id)
                      && existsb (Nat.eqb (Like.post_id l)) post_ids)
       (likes db)).

Definition exec {X} (r : Request X) (db : Db) : Result X * Db :=
  match r in Request X return Result X * Db with
  | SelectPostsInner q => (ok (select_posts_inner q db), db)
  | SelectLikesOfPosts ids => (ok (select_likes_of_posts ids db), db)
  | SelectLikesOfUser u ids => (ok (select_likes_of_user u ids db), db)
  | SoftDeletePost u i a t => soft_delete_post u i a t db
  | SelectProfile h => select_profile h db
  | UpdateProfile i u => update_profile i u db
  | SelectFollow a b => select_follow a b db
  | InsertLike u p => insert_like u p db
  | DeleteLike u p => delete_like u p db
  | SelectLike u p => select_like u p db
  end.

Definition exec_count (r : CountRequest) (db : Db) : nat :=
  match r with
  | CountFollowers b =>
      List.length (filter (fun f => Follow.following_id f =? b) (follows db))
  | CountFollowing a =>
      List.length (filter (fun f => Follow.follower_id f =? a) (follows db))
  | CountLikes p =>
      List.length (filter (fun l => Like.post_id l =? p) (likes db))
  end.

End StoreExt.

(* ===================================================================== *)
(** * AsyncExt: programs over both families of queries                    *)
(* ===================================================================== *)

Module AsyncExt.
Import Store Async.

Inductive Effect : Type -> Type :=
| Base {R} (eff : Async.Effect R) : Effect R
| Query {X} (q : StoreExt.Request X) : Effect (Result X)
| Count (q : StoreExt.CountRequest) : Effect StoreExt.Counted.

Inductive Prog (A : Type) : Type :=
| Ret (a : A)
| Throw (e : Error)
| Vis {R : Type} (eff : Effect R) (k : R -> Prog A).

Arguments Ret {A} _.
Arguments Throw {A} _.
Arguments Vis {A R} _ _.

Fixpoint bind {A B} (p : Prog A) (f : A -> Prog B) : Prog B :=
  match p with
  | Ret a => f a
  | Throw e => Throw e
  | Vis eff k => Vis eff (fun r => bind (k r) f)
  end.

(** [try { t } catch { ... }]: go on with the outcome of [t]. *)
Fixpoint settle {A B} (t : Prog A) (k : Outcome A -> Prog B) : Prog B :=
  match t with
  | Ret a => k (Fulfilled a)
  | Throw e => k (Rejected e)
  | Vis eff f => Vis eff (fun r => settle (f r) k)
  end.

(** A function of the first family, called from here. *)
Fixpoint lift {A} (p : Async.Prog A) : Prog A :=
  match p with
  | Async.Ret a => Ret a
  | Async.Throw e => Throw e
  | Async.Vis eff k => Vis (Base eff) (fun r => lift (k r))
  end.

(** One request: the event of the environment, then the fault or the
    answer of the store, as for [Async.perform]. *)
Definition request {R} (onFault : Error -> R) (answer : Db -> R * Db)
    (m : Machine) : R * Machine :=
  let ev := hd calm (events m) in
  let d := disturb ev (db m) in
  match fault ev with
  | Some e => (onFault e, mkMachine d (console m) (tl (events m)) (schedules m))
  | None =>
      (fst (answer d),
       mkMachine (snd (answer d)) (console m) (tl (events m)) (schedules m))
  end.

Definition perform {R} (eff : Effect R) (m : Machine) : R * Machine :=
  match eff in Effect R return R * Machine with
  | Base eff => Async.perform eff m
  | Query q => request failed (StoreExt.exec q) m
  | Count q =>
      request (fun e => StoreExt.mkCounted None (Some e))
        (fun d => (StoreExt.mkCounted (Some (StoreExt.exec_count q d)) None, d)) m
  end.

Fixpoint run {A} (p : Prog A) (m : Machine) : Outcome A * Machine :=
  match p with
  | Ret a => (Fulfilled a, m)
  | Throw e => (Rejected e, m)
  | Vis eff k => run (k (fst (perform eff m))) (snd (perform eff m))
  end.

(** [await] of a query builder: its [{ data, error }]. *)
Definition query {X} (q : StoreExt.Request X) : Prog (Result X) :=
  Vis (Query q) Ret.

Definition consoleError (line : string) : Prog unit :=
  Vis (Base (Async.ConsoleError line)) Ret.

(** [Promise.all] over programs of this family, as [Async.Promise_all]. *)
Definition noteRejection {A} (first : option Error) (t : Prog A) : option Error :=
  match first, t with
  | None, Throw e => Some e
  | _, _ => first
  end.

Fixpoint drain {A} (ts : list (Prog A)) (settled : list (Outcome A))
    (first : option Error) : Prog (list (Outcome A) * option Error) :=
  match ts with
  | [] => Ret (rev settled, first)
  | t :: ts' =>
      settle t (fun o => drain ts' (o :: settled) (Async.noteOutcome first o))
  end.

Fixpoint interleave {A} (sched : list nat) (ts : list (Prog A))
    (first : option Error) : Prog (list (Outcome A) * option Error) :=
  match sched with
  | [] => drain ts [] first
  | i :: sched' =>
      match nth_error ts i with
      | Some (Vis eff k) =>
          Vis eff (fun r =>
            interleave sched' (Async.replace i (k r) ts)
              (noteRejection first (k r)))
      | _ => interleave sched' ts first
      end
  end.

Definition Promise_all {A} (ts : list (Prog A)) : Prog (list A) :=
  Vis (Base Async.Resume) (fun sched =>
    bind (interleave sched ts (fold_left noteRejection ts None))
      (fun r =>
         match snd r with
         | Some e => Throw e
         | None => Ret (Async.values (fst r))
         end)).

End AsyncExt.

(* ===================================================================== *)
(** * ApiExt: the other functions of src/lib/api.ts                       *)
(* ===================================================================== *)

Module ApiExt.
Import Store StoreExt AsyncExt.

(** [softDeletePost]; [today] is the value of [new Date()] at the call and
    [auth_uid] the user of the session that the imported [supabase] client
    holds when it sends the request. *)
Definition softDeletePost (auth_uid : option uuid) (today : timestamptz)
    (postId adminId : uuid) : Prog unit :=
  Vis (Query (SoftDeletePost auth_uid postId adminId today)) (fun r =>
  match error r with
  | Some error => Throw error
  | None => Ret tt
  end).

(* ------------------------------- PROFILES ------------------------------- *)

Definition getProfile (handle : string) : Prog (option Profile.t) :=
  Vis (Query (SelectProfile handle)) (fun r =>
  match error r with
  | Some error => Throw error
  | None => Ret (data r)
  end).

Definition updateProfile (userId : uuid) (updates : ProfileUpdates)
    : Prog (option Profile.t) :=
  Vis (Query (UpdateProfile userId updates)) (fun r =>
  match error r with
  | Some error => Throw error
  | None => Ret (data r)
  end).

(* ---------------------------- FOLLOWS / LIKES --------------------------- *)

(** [!!data] *)
Definition truthy {X} (data : option X) : bool :=
  match data with
  | Some _ => true
  | None => false
  end.

(** [count || 0] *)
Definition countOr0 (count : option nat) : nat :=
  match count with
  | Some n => n
  | None => 0
  end.

Definition isFollowing (followerId followingId : uuid) : Prog bool :=
  Vis (Query (SelectFollow followerId followingId)) (fun r =>
  match error r with
  | Some error => Throw error
  | None => Ret (truthy (data r))
  end).

Definition getFollowerCount (userId : uuid) : Prog nat :=
  Vis (Count (CountFollowers userId)) (fun r =>
  match count_error r with
  | Some error => Throw error
  | None => Ret (countOr0 (count r))
  end).

Definition getFollowingCount (userId : uuid) : Prog nat :=
  Vis (Count (CountFollowing userId)) (fun r =>
  match count_error r with
  | Some error => Throw error
  | None => Ret (countOr0 (count r))
  end).

Definition likePost (userId postId : uuid) : Prog (option Like.t) :=
  Vis (Query (InsertLike userId postId)) (fun r =>
  match error r with
  | Some error => Throw error
  | None => Ret (data r)
  end).

Definition unlikePost (userId postId : uuid) : Prog unit :=
  Vis (Query (DeleteLike userId postId)) (fun r =>
  match error r with
  | Some error => Throw error
  | None => Ret tt
  end).

Definition isPostLiked (userId postId : uuid) : Prog bool :=
  Vis (Query (SelectLike userId postId)) (fun r =>
  match error r with
  | Some error => Throw error
  | None => Ret (truthy (data r))
  end).

Definition getLikeCount (postId : uuid) : Prog nat :=
  Vis (Count (CountLikes postId)) (fun r =>
  match count_error r with
  | Some error => Throw error
  | None => Ret (countOr0 (count r))
  end).

End ApiExt.

(* ===================================================================== *)
(** * Ui: the logic of the components                                     *)
(* ===================================================================== *)

Module Ui.
Import Text Store Async Api.

(* ----------------- src/components/CreatePost.tsx ------------------------ *)

(** [String.prototype.trim]: white space and line terminators are removed
    at both ends. *)
Fixpoint trimStart (s : string) : string :=
  match s with
  | EmptyString => EmptyString
  | String c s' => if isSpace c then trimStart s' else s
  end.

Fixpoint trimEnd (s : string) : string :=
  match s with
  | EmptyString => EmptyString
  | String c s' =>
      match trimEnd s' with
      | EmptyString => if isSpace c then EmptyString else String c EmptyString
      | t => String c t
      end
  end.

Definition trim (s : string) : string := trimEnd (trimStart s).

(** A string is truthy when it is not empty. *)
Definition nonEmpty (s : string) : bool :=
  match s with
  | EmptyString => false
  | String _ _ => true
  end.

(** [const canPost = content.trim() && !isOverLimit && !loading] *)
Definition canPost (content : string) (loading : bool) : bool :=
  let charCount := String.length content in
  let maxChars := 280 in
  let isOverLimit := maxChars <? charCount in
  nonEmpty (trim content) && negb isOverLimit && negb loading.

(* -------------------- src/components/Post.tsx --------------------------- *)

(** The pieces [renderContent] pushes: plain text, or an element with its
    key and what it shows. *)
Inductive Part : Type :=
| PlainText (text : string)
| HashtagSpan (key : nat) (matched : string)
| MentionLink (key : nat) (href : string) (matched : string)
| UrlLink (key : nat) (href : string) (matched : string).

(** [/(#\w+|@\w+|https?:\/\/[^\s]+)/]: the first alternative that matches
    at the position. *)
Definition contentRegex : regex := fun s =>
  match sigilWord "#" s with
  | Some m => Some m
  | None =>
      match sigilWord "@" s with
      | Some m => Some m
      | None => httpUrl s
      end
  end.

Definition startsWith (prefix s : string) : bool :=
  match dropPrefix prefix s with
  | Some _ => true
  | None => false
  end.

Definition elementOf (index : nat) (matched : string) : list Part :=
  if startsWith "#" matched then [HashtagSpan index matched]
  else if startsWith "@" matched then
    let handle := slice1 matched in
    [MentionLink index ("/" ++ handle) matched]
  else if startsWith "http" matched then [UrlLink index matched matched]
  else [].

Definition textOf (pending : string) : list Part :=
  if nonEmpty pending then [PlainText pending] else [].

(** The [while ((match = regex.exec(text)) !== null)] loop, read from
    position [index] on; [skip] code units still belong to the last match
    and [pending] is [text.slice(lastIndex, index)]. *)
Fixpoint renderFrom (text : string) (index skip : nat) (pending : string)
    : list Part :=
  match text with
  | EmptyString => textOf pending
  | String c rest =>
      match skip with
      | S k => renderFrom rest (S index) k pending
      | O =>
          match contentRegex text with
          | Some matched =>
              textOf pending ++ elementOf index matched
              ++ renderFrom rest (S index) (String.length matched - 1) EmptyString
          | None =>
              renderFrom rest (S index) 0 (pending ++ String c EmptyString)
          end
      end
  end.

Definition renderContent (content : string) : list Part :=
  renderFrom content 0 0 EmptyString.

(** What a piece shows. *)
Definition shown (p : Part) : string :=
  match p with
  | PlainText t => t
  | HashtagSpan _ m => m
  | MentionLink _ _ m => m
  | UrlLink _ _ m => m
  end.

Fixpoint shownAll (ps : list Part) : string :=
  match ps with
  | [] => EmptyString
  | p :: ps' => (shown p ++ shownAll ps')%string
  end.



(* -------------------- src/app/[handle]/page.tsx ------------------------- *)



(* -------------------- src/components/Post.tsx --------------------------- *)

(** [const isOwnPost = profile?.id === post.user_id] *)
Definition isOwnPost (profile : option Profile.t) (post : Post.t) : bool :=
  match profile with
  | Some p => Profile.id p =? Post.user_id post
  | None => false
  end.

(** [const isAdmin = profile?.is_admin], read as a condition. *)
Definition isAdmin (profile : option Profile.t) : bool :=
  match profile with
  | Some p =>
      match Profile.is_admin p with
      | Some b => b
      | None => false
      end
  | None => false
  end.

(** What [handleDelete] leaves: the state [deleting], and whether the
    callback [onDelete] was called. *)
Record DeleteButton := mkDeleteButton
  { deleting : bool;
    onDeleteCalled : bool }.

(** [handleDelete]; [today] is the value of [new Date()] inside
    [softDeletePost], [auth_uid] the user of the session of the [supabase]
    client, and [profile] the profile that [useAuth()] holds in the
    browser. *)
Definition handleDelete (auth_uid : option uuid) (today : timestamptz)
    (profile : option Profile.t) (post : Post.t) (deleting : bool)
    : AsyncExt.Prog DeleteButton :=
  match profile with
  | None => AsyncExt.Ret (mkDeleteButton deleting false)
  | Some p =>
      if deleting then AsyncExt.Ret (mkDeleteButton deleting false) else
      AsyncExt.settle
        (if isOwnPost profile post then
           AsyncExt.lift (deletePost auth_uid (Post.id post))
         else if isAdmin profile then
           ApiExt.softDeletePost auth_uid today (Post.id post) (Profile.id p)
         else AsyncExt.Ret tt)
        (fun outcome =>
           match outcome with
           | Fulfilled _ => AsyncExt.Ret (mkDeleteButton false true)
           | Rejected error =>
               AsyncExt.Vis
                 (AsyncExt.Base
                    (ConsoleError ("Failed to delete post: " ++ message error)))
                 (fun _ => AsyncExt.Ret (mkDeleteButton false false))
           end)
  end.

End Ui.

(* ===================================================================== *)
(** * Integrity: what the schema promises about the tables                *)
(* ===================================================================== *)

Module Integrity.
Import Store.

Definition follow_pair (f : Follow.t) : uuid * uuid :=
  (Follow.follower_id f, Follow.following_id f).

Definition like_pair (l : Like.t) : uuid * uuid :=
  (Like.user_id l, Like.post_id l).

(** The constraints of the migration that the feeds and the enrichment
    read: the unique and check constraints, the foreign keys, and the
    primary keys of the tables whose rows are looked up by their key.
    The rest of the schema is in [generated] below, and the whole of it
    in [schema]. *)
Record consistent (d : Db) : Prop := mkConsistent
  { (* profiles: PRIMARY KEY (id), handle UNIQUE *)
    profiles_key : NoDup (map Profile.id (profiles d));
    handles_unique : NoDup (map Profile.handle (profiles d));
    (* posts: PRIMARY KEY (id), content_length, user_id and deleted_by
       REFERENCES profiles *)
    posts_key : NoDup (map Post.id (posts d));
    posts_content :
      Forall (fun p => content_length (Post.content p) = true) (posts d);
    posts_author :
      Forall (fun p => profile_exists d (Post.user_id p) = true) (posts d);
    posts_deleter :
      Forall (fun p => match Post.deleted_by p with
                       | Some a => profile_exists d a = true
                       | None => True
                       end) (posts d);
    (* follows: unique_follow, no_self_follow, REFERENCES profiles *)
    follows_unique : NoDup (map follow_pair (follows d));
    follows_irreflexive :
      Forall (fun f => Follow.follower_id f <> Follow.following_id f) (follows d);
    follows_refs :
      Forall (fun f => profile_exists d (Follow.follower_id f) = true
                       /\ profile_exists d (Follow.following_id f) = true)
        (follows d);
    (* likes: unique_like, REFERENCES profiles and posts *)
    likes_unique : NoDup (map like_pair (likes d));
    likes_refs :
      Forall (fun l => profile_exists d (Like.user_id l) = true
                       /\ post_exists d (Like.post_id l) = true)
        (likes d);
    (* hashtags: PRIMARY KEY (id), tag UNIQUE, tag_format *)
    hashtags_key : NoDup (map Hashtag.id (hashtags d));
    hashtags_unique : NoDup (map Hashtag.tag (hashtags d));
    hashtags_format :
      Forall (fun h => tag_format (Hashtag.tag h) = true) (hashtags d);
    (* post_hashtags: PRIMARY KEY (post_id, hashtag_id), REFERENCES *)
    post_hashtags_key : NoDup (post_hashtags d);
    post_hashtags_refs :
      Forall (fun l => post_exists d (PostHashtag.post_id l) = true
                       /\ hashtag_exists d (PostHashtag.hashtag_id l) = true)
        (post_hashtags d);
    (* mentions: REFERENCES posts and profiles *)
    mentions_refs :
      Forall (fun m => post_exists d (Mention.post_id m) = true
                       /\ profile_exists d (Mention.user_id m) = true)
        (mentions d);
    (* link_previews: PRIMARY KEY (id), url UNIQUE *)
    link_previews_key : NoDup (map LinkPreview.id (link_previews d));
    link_previews_unique : NoDup (map LinkPreview.url (link_previews d));
    (* post_links: PRIMARY KEY (post_id, link_preview_id), REFERENCES *)
    post_links_key : NoDup (post_links d);
    post_links_refs :
      Forall (fun l => post_exists d (PostLink.post_id l) = true
                       /\ link_preview_exists d (PostLink.link_preview_id l) = true)
        (post_links d);
    (* uuid_generate_v4() gives an identifier no row has yet *)
    posts_fresh : Forall (fun p => Post.id p < uuid_next d) (posts d);
    hashtags_fresh : Forall (fun h => Hashtag.id h < uuid_next d) (hashtags d);
    link_previews_fresh :
      Forall (fun l => LinkPreview.id l < uuid_next d) (link_previews d) }.

(** The other clients keep the promises too. *)
Definition civil (m : Async.Machine) : Prop :=
  Forall
    (fun ev =>
       Forall (fun f => forall d, consistent d -> consistent (exec_foreign f d))
         (Async.concurrent ev))
    (Async.events m).

(** [CONSTRAINT handle_length CHECK (char_length(handle) >= 3 AND
    char_length(handle) <= 30)] *)
Definition handle_length (handle : string) : bool :=
  (3 <=? String.length handle) && (String.length handle <=? 30).

(** [CONSTRAINT handle_format CHECK (handle ~ '^[a-zA-Z0-9_]+$')] *)
Definition handle_format (handle : string) : bool :=
  (0 <? String.length handle) && Text.forallb_string Text.isWord handle.

(** The rest of the schema: the primary keys of follows, likes and
    mentions, whose identifiers [uuid_generate_v4()] draws, and the two
    checks on the handle of a profile. *)
Record generated (d : Db) : Prop := mkGenerated
  { (* follows, likes, mentions: PRIMARY KEY (id) *)
    follows_key : NoDup (map Follow.id (follows d));
    likes_key : NoDup (map Like.id (likes d));
    mentions_key : NoDup (map Mention.id (mentions d));
    (* uuid_generate_v4() gives an identifier no row has yet *)
    follows_fresh : Forall (fun f => Follow.id f < uuid_next d) (follows d);
    likes_fresh : Forall (fun l => Like.id l < uuid_next d) (likes d);
    mentions_fresh : Forall (fun x => Mention.id x < uuid_next d) (mentions d);
    (* profiles: handle_length, handle_format *)
    handles_length :
      Forall (fun p => handle_length (Profile.handle p) = true) (profiles d);
    handles_format :
      Forall (fun p => handle_format (Profile.handle p) = true) (profiles d) }.

(** Every key, unique constraint, check and foreign key of the migration
    between its own tables (the reference from [profiles.id] to
    [auth.users] leaves the schema). *)
Definition schema (d : Db) : Prop := consistent d /\ generated d.

(** The other clients cannot break the schema either: the store refuses
    what would. *)
Definition lawful (m : Async.Machine) : Prop :=
  Forall
    (fun ev =>
       Forall (fun f => forall d, schema d -> schema (exec_foreign f d))
         (Async.concurrent ev))
    (Async.events m).

(** What running a function of api.ts leaves: the other clients are as
    lawful as before, and the store meets the schema. *)
Definition kept {A} (r : A * Async.Machine) : Prop :=
  lawful (snd r) /\ schema (Async.db (snd r)).

End Integrity.

(* ===================================================================== *)
(** * Cases: a second small instance                                      *)
(* ===================================================================== *)

Module Cases.
Import Store Async.

Definition first_post : Post.t :=
  Post.mk 50 1 "hello #world" None (Some false) None None (Some 100%Z).

Definition answer : Post.t :=
  Post.mk 52 2 "hi @alice_dev" None (Some false) None None (Some 300%Z).

Definition latest : Post.t :=
  Post.mk 53 1 "see https://x.io" None (Some false) None None (Some 500%Z).

(** Alice and Bob; Bob follows Alice and likes her first post. *)
Definition city : Db :=
  mkDb [Scenario.alice; Scenario.bob] [first_post; answer; latest]
       [Follow.mk 70 2 1 (Some 400%Z)] [Like.mk 80 2 50 (Some 450%Z)]
       [Scenario.world] [PostHashtag.mk 50 60]
       [Mention.mk 90 52 1 (Some 300%Z)] [] [] 100 1000%Z.

Definition row_of (d : Db) (p : Post.t) (likes : option nat) : FeedRow.t :=
  FeedRow.mk p (author_card d p) likes.

(** Carol is an administrator. *)
Definition carol : Profile.t :=
  Profile.mk 3 "carol_mod" "Carol" None None (Some true) (Some 30%Z) (Some 30%Z).

Definition moderated : Db :=
  StoreExt.with_profiles [Scenario.alice; Scenario.bob; carol] city.

End Cases.

(* ===================================================================== *)
(** * Footprint: the requests a program can send                          *)
(* ===================================================================== *)

Module Footprint.
Import Store Async.

(** Every request that the program sends, on any of its paths, is one
    that [P] allows. *)
Fixpoint requests_all (P : forall X, Request X -> Prop) {A : Type} (p : Prog A)
    : Prop :=
  match p with
  | Ret _ => True
  | Throw _ => True
  | Vis eff k =>
      match eff with
      | Query q => P _ q
      | ConsoleError _ => True
      | Resume => True
      end
      /\ forall r, requests_all P (k r)
  end.

(** The program calls [console.error] on none of its paths. *)
Fixpoint silent {A : Type} (p : Prog A) : Prop :=
  match p with
  | Ret _ => True
  | Throw _ => True
  | Vis eff k =>
      match eff with
      | ConsoleError _ => False
      | _ => True
      end
      /\ forall r, silent (k r)
  end.

(** The requests of the enrichment: hashtags, mentions and link previews,
    and the lookup of profiles by handle. *)
Definition enrichment_request (X : Type) (q : Request X) : Prop :=
  match q with
  | SelectHashtag _ | InsertHashtag _ | UpsertPostHashtags _
  | SelectProfilesByHandle _ | InsertMentions _
  | SelectLinkPreview _ | InsertLinkPreview _ | UpsertPostLinks _ => True
  | _ => False
  end.

End Footprint.

(* ===================================================================== *)
(** * Conditions: an environment that leaves the program in peace         *)
(* ===================================================================== *)

Module Conditions.
Import Store Async.

(** No other client writes and no request meets a fault; time passes. *)
Definition undisturbed (m : Machine) : Prop :=
  Forall (fun ev => concurrent ev = [] /\ fault ev = None) (events m).

(** The store as the next request finds it when nobody else writes. *)
Definition later (m : Machine) : Db :=
  with_now (now (db m) + Z.of_nat (elapsed (hd calm (events m))))%Z (db m).

End Conditions.

(* ===================================================================== *)
(** * Lookups: the get-or-create calls that run at the same time          *)
(* ===================================================================== *)

Module Lookups.
Import Text Store Async Api.

(** Where one [getOrCreateHashtag] of a [Promise.all] stands: before its
    select, between a select that found nothing and its insert, or
    returned with its row. *)
Inductive Phase : Type :=
| Looking (tag : string)
| Inserting (tag : string)
| Returned (tag : string) (row : Hashtag.t).

Definition tag_of (ph : Phase) : string :=
  match ph with
  | Looking tag => tag
  | Inserting tag => tag
  | Returned tag _ => tag
  end.

(** What is left of [getOrCreateHashtag] after a select without a row. *)
Definition insertOf (normalizedTag : string) : Prog (option Hashtag.t) :=
  Vis (Query (InsertHashtag normalizedTag)) (fun r' =>
  match error r' with
  | Some error => Throw error
  | None => Ret (data r')
  end).

Definition task (ph : Phase) : Prog (option Hashtag.t) :=
  match ph with
  | Looking tag => getOrCreateHashtag tag
  | Inserting tag => insertOf (toLowerCase tag)
  | Returned _ row => Ret (Some row)
  end.

(** What a call in that phase can rely on. *)
Definition settled_in (d : Db) (ph : Phase) : Prop :=
  match ph with
  | Looking _ => True
  | Inserting tag =>
      existsb (fun h => String.eqb (Hashtag.tag h) tag) (hashtags d) = false
  | Returned tag row => In row (hashtags d) /\ Hashtag.tag row = tag
  end.

(** From [d] to [d'] at most one hashtag was added, with the tag [tag];
    posts and links are the same. *)
Definition grows_by (tag : string) (d d' : Db) : Prop :=
  posts d' = posts d
  /\ post_hashtags d' = post_hashtags d
  /\ (hashtags d' = hashtags d
      \/ exists row, Hashtag.tag row = tag /\ hashtags d' = hashtags d ++ [row]).

(** Nobody else writes, no request fails, and no tag is there twice. *)
Definition steady (m : Machine) : Prop :=
  Conditions.undisturbed m /\ NoDup (map Hashtag.tag (hashtags (db m))).

(** The store went from [m] to [m'] by lookups only: posts and links are
    the same and no hashtag was removed. *)
Definition only_hashtags_added (m m' : Machine) : Prop :=
  posts (db m') = posts (db m)
  /\ post_hashtags (db m') = post_hashtags (db m)
  /\ forall h, In h (hashtags (db m)) -> In h (hashtags (db m')).

End Lookups.

(* ===================================================================== *)
(** * Pages: what the two pages fetch                                     *)
(* ===================================================================== *)

Module Pages.
Import Text Store Async Api.

(** [{ count: number; isLiked: boolean }] *)
Record LikeInfo := mkLikeInfo
  { count : nat;
    isLiked : bool }.

(** A JS object used as a map from post ids: its assignments, the latest
    first.  A key reads its latest assignment. *)
Fixpoint get {V} (o : list (uuid * V)) (key : uuid) : option V :=
  match o with
  | [] => None
  | (k, v) :: o' => if k =? key then Some v else get o' key
  end.

(** [{ ...prev, ...next }] *)
Definition spread {V} (prev next : list (uuid * V)) : list (uuid * V) :=
  next ++ prev.

(** The state of a page: [posts], [hasMore], [likesMap], [loading] and
    [loadingMore]. *)
Record Feed := mkFeed
  { posts : list StoreExt.PageRow.t;
    hasMore : bool;
    likesMap : list (uuid * LikeInfo);
    loading : bool;
    loadingMore : bool }.

(** [if (likeCounts.data) { for (const postId of postIds) {
      likeCountMap[postId] = likeCounts.data.filter(...).length } }] *)
Definition likeCountMapOf (likeCounts : Result (list uuid)) (postIds : list uuid)
    : list (uuid * nat) :=
  match data likeCounts with
  | Some rows =>
      fold_left
        (fun likeCountMap postId =>
           (postId, List.length (filter (fun l => l =? postId) rows))
           :: likeCountMap)
        postIds []
  | None => []
  end.

(** [new Set(userLikes.data?.map((l) => l.post_id))], read by [has]. *)
Definition userLikedSetOf (userLikes : Result (list uuid)) : list uuid :=
  match data userLikes with
  | Some rows => map (fun l => l) rows
  | None => []
  end.

(** [for (const postId of postIds) { newLikesMap[postId] = {
      count: likeCountMap[postId] || 0,
      isLiked: userLikedSet.has(postId) } }] *)
Definition newLikesMapOf (postIds : list uuid)
    (likeCounts userLikes : Result (list uuid)) : list (uuid * LikeInfo) :=
  let likeCountMap := likeCountMapOf likeCounts postIds in
  let userLikedSet := userLikedSetOf userLikes in
  fold_left
    (fun newLikesMap postId =>
       (postId,
        mkLikeInfo (ApiExt.countOr0 (get likeCountMap postId))
          (existsb (Nat.eqb postId) userLikedSet))
       :: newLikesMap)
    postIds [].

(** [setPosts] and [setHasMore] once the page has arrived. *)
Definition received (cursor : option timestamptz)
    (newPosts : list StoreExt.PageRow.t) (st : Feed) : Feed :=
  mkFeed
    match cursor with
    | Some _ => posts st ++ newPosts
    | None => newPosts
    end
    (if List.length newPosts <? 20 then false else hasMore st)
    (likesMap st) (loading st) (loadingMore st).

(** The two like queries, awaited together, and [setLikesMap]. *)
Definition likeBlock (viewer : uuid) (newPosts : list StoreExt.PageRow.t)
    (st : Feed) : AsyncExt.Prog Feed :=
  let postIds := map (fun p => StoreExt.PageRow.id p) newPosts in
  AsyncExt.bind
    (AsyncExt.Promise_all
       [ AsyncExt.query (StoreExt.SelectLikesOfPosts postIds);
         AsyncExt.query (StoreExt.SelectLikesOfUser viewer postIds) ])
    (fun answers =>
       match answers with
       | [likeCounts; userLikes] =>
           AsyncExt.Ret
             (mkFeed (posts st) (hasMore st)
                (spread (likesMap st) (newLikesMapOf postIds likeCounts userLikes))
                (loading st) (loadingMore st))
       | _ => AsyncExt.Throw TypeError
       end).

(** The body of the [try] after the posts query: the state is set as the
    statements run, so what was set before an exception stays. *)
Definition afterQuery (viewer : uuid) (cursor : option timestamptz)
    (finally : Feed -> Feed) (r : Result (list StoreExt.PageRow.t)) (st : Feed)
    : AsyncExt.Prog Feed :=
  match error r with
  | Some error =>
      AsyncExt.bind
        (AsyncExt.consoleError ("Error fetching posts: " ++ message error))
        (fun _ => AsyncExt.Ret (finally st))
  | None =>
      match data r with
      | None => AsyncExt.Ret (finally st)
      | Some newPosts =>
          let st1 := received cursor newPosts st in
          AsyncExt.settle (likeBlock viewer newPosts st1)
            (fun outcome =>
               match outcome with
               | Fulfilled st2 => AsyncExt.Ret (finally st2)
               | Rejected error =>
                   AsyncExt.bind
                     (AsyncExt.consoleError
                        ("Error fetching posts: " ++ message error))
                     (fun _ => AsyncExt.Ret (finally st1))
               end)
      end
  end.

(* ------------------------ src/unnamed/part_000 -------------------------- *)

Module HomePage.

(** [finally { setLoading(false); setLoadingMore(false); }] *)
Definition finally (st : Feed) : Feed :=
  mkFeed (posts st) (hasMore st) (likesMap st) false false.

(** [supabase.from('posts').select(...).in('user_id', followingIds)
      .eq('is_deleted', false).order('created_at', { ascending: false })
      .limit(20)], and [.lt('created_at', cursor)] when there is a cursor.
    The select list has no like count. *)
Definition postsQuery (followingIds : list uuid) (cursor : option timestamptz)
    : PostsQuery :=
  let query :=
    limit_ 20
      (order_created_at_desc
         (eq_is_deleted false (in_user_id followingIds (from_posts false)))) in
  match cursor with
  | Some c => lt_created_at c query
  | None => query
  end.

Definition fetchPosts (profile : option uuid) (cursor : option timestamptz)
    (st : Feed) : AsyncExt.Prog Feed :=
  match profile with
  | None => AsyncExt.Ret st
  | Some profile_id =>
      AsyncExt.Vis (AsyncExt.Base (Query (SelectFollowing profile_id)))
        (fun following =>
      let followingIds := followingIdsOf profile_id following in
      AsyncExt.Vis
        (AsyncExt.Query
           (StoreExt.SelectPostsInner (postsQuery followingIds cursor)))
        (fun r => afterQuery profile_id cursor finally r st))
  end.

End HomePage.

(* -------------------- src/app/[handle]/page.tsx ------------------------- *)

Module ProfilePage.

(** [finally { setLoadingMore(false); }] *)
Definition finally (st : Feed) : Feed :=
  mkFeed (posts st) (hasMore st) (likesMap st) (loading st) false.

(** [supabase.from('posts').select(...).eq('user_id', userId)
      .eq('is_deleted', false).order('created_at', { ascending: false })
      .limit(20)], and [.lt('created_at', cursor)] when there is a cursor.
    The select list has no like count. *)
Definition postsQuery (userId : uuid) (cursor : option timestamptz)
    : PostsQuery :=
  let query :=
    limit_ 20
      (order_created_at_desc
         (eq_is_deleted false (eq_user_id userId (from_posts false)))) in
  match cursor with
  | Some c => lt_created_at c query
  | None => query
  end.

Definition fetchPosts (currentProfile : option uuid) (userId : uuid)
    (cursor : option timestamptz) (st : Feed) : AsyncExt.Prog Feed :=
  match currentProfile with
  | None => AsyncExt.Ret st
  | Some currentProfile_id =>
      AsyncExt.Vis
        (AsyncExt.Query (StoreExt.SelectPostsInner (postsQuery userId cursor)))
        (fun r => afterQuery currentProfile_id cursor finally r st)
  end.

End ProfilePage.

(** Every post has the row of its author, as the foreign key of
    [posts.user_id] promises. *)
Definition authors_known (d : Db) : Prop :=
  Forall (fun p => profile_exists d (Post.user_id p) = true) (Store.posts d).






End Pages.

(* ===================================================================== *)
(** * Properties of the text annotator                                    *)
(* ===================================================================== *)

Module TextFacts.
Import Text.

Example parseHashtags_spec_example :
  parseHashtags "Hot take: #typescript is great. #TypeScript rules"
  = ["typescript"; "typescript"]%string.
Proof. reflexivity. Qed.

Example arrayFromSet_spec_example :
  arrayFromSet
    (parseHashtags "Hot take: #typescript is great. #TypeScript rules")
  = ["typescript"]%string.
Proof. reflexivity. Qed.

Example parseMentions_spec_example :
  arrayFromSet (parseMentions "Thanks @alice_dev and @Alice_Dev")
  = ["alice_dev"]%string.
Proof. reflexivity. Qed.

Example parseUrls_spec_example :
  parseUrls "see https://example.com/a and http://x.io"
  = ["https://example.com/a"; "http://x.io"]%string.
Proof. reflexivity. Qed.

Example parseHashtags_adjacent :
  parseHashtags "##a#b_1 c#" = ["a"; "b_1"]%string.
Proof. reflexivity. Qed.

Example parseUrls_https_alone :
  parseUrls "https:// http://a https://" = ["http://a"]%string.
Proof. reflexivity. Qed.


(** ** Characters *)

Ltac each_char c :=
  destruct c as [[] [] [] [] [] [] [] []]; vm_compute; try reflexivity; try discriminate.

Lemma lowerChar_word (c : ascii) : isWord c = true -> isLowerWord (lowerChar c) = true.
Proof. each_char c. Qed.

Lemma lowerChar_not_upper (c : ascii) : isUpper (lowerChar c) = false.
Proof. each_char c. Qed.

Lemma lowerChar_idem (c : ascii) : lowerChar (lowerChar c) = lowerChar c.
Proof. each_char c. Qed.

Lemma isLowerWord_fixed (c : ascii) : isLowerWord c = true -> lowerChar c = c.
Proof. each_char c. Qed.

(** ** Strings *)

Lemma toLowerCase_idem (s : string) : toLowerCase (toLowerCase s) = toLowerCase s.
Proof.
  induction s as [|c s IH]; simpl; [reflexivity|].
  now rewrite lowerChar_idem, IH.
Qed.

Lemma toLowerCase_no_upper (s : string) : hasUpper (toLowerCase s) = false.
Proof.
  unfold hasUpper.
  induction s as [|c s IH]; cbn [toLowerCase existsb_string]; [reflexivity|].
  now rewrite lowerChar_not_upper, IH.
Qed.

Lemma toLowerCase_word (s : string) :
  forallb_string isWord s = true ->
  forallb_string isLowerWord (toLowerCase s) = true.
Proof.
  induction s as [|c s IH]; simpl; [reflexivity|].
  intros H. apply andb_true_iff in H as [Hc Hs].
  now rewrite (lowerChar_word _ Hc), IH.
Qed.

Lemma takeWhile_all (f : ascii -> bool) (s : string) :
  forallb_string f (takeWhile f s) = true.
Proof.
  induction s as [|c s IH]; simpl; [reflexivity|].
  destruct (f c) eqn:E; simpl; [now rewrite E|reflexivity].
Qed.

Lemma takeWhile_length (f : ascii -> bool) (s : string) :
  String.length (takeWhile f s) <= String.length s.
Proof.
  induction s as [|c s IH]; simpl; [lia|].
  destruct (f c); simpl; lia.
Qed.

(** ** Matches *)

(** What one match of [#(\w+)] or [@(\w+)] looks like. *)
Lemma sigilWord_shape (sigil : ascii) (s m : string) :
  sigilWord sigil s = Some m ->
  exists w, m = String sigil w /\ w <> EmptyString
            /\ forallb_string isWord w = true.
Proof.
  destruct s as [|c rest]; simpl; [discriminate|].
  destruct (Ascii.eqb c sigil) eqn:E; [|discriminate].
  apply Ascii.eqb_eq in E; subst c.
  pose proof (takeWhile_all isWord rest) as Hall.
  destruct (takeWhile isWord rest) as [|c w] eqn:Ew; [discriminate|].
  intros [= <-]. exists (String c w). repeat split; [discriminate|exact Hall].
Qed.

Lemma matchAll_Forall (P : string -> Prop) (rx : regex) :
  (forall s m, rx s = Some m -> P m) ->
  forall s skip, Forall P (matchAll rx s skip).
Proof.
  intros Hrx. induction s as [|c s IH]; intros skip; simpl; [constructor|].
  destruct skip; [|apply IH].
  destruct (rx (String c s)) eqn:E; [|apply IH].
  constructor; [eapply Hrx; eassumption|apply IH].
Qed.

Lemma String_match_Forall (P : string -> Prop) (rx : regex) (s : string) (ms : list string) :
  (forall s m, rx s = Some m -> P m) ->
  String_match rx s = Some ms -> Forall P ms.
Proof.
  intros Hrx. unfold String_match.
  pose proof (matchAll_Forall P rx Hrx s 0) as H.
  destruct (matchAll rx s 0); [discriminate|]. now intros [= <-].
Qed.

Lemma normalized_fixed (t : string) : normalized t -> toLowerCase t = t.
Proof.
  intros [_ H]. induction t as [|c t IH]; simpl in *; [reflexivity|].
  apply andb_true_iff in H as [Hc Ht].
  now rewrite (isLowerWord_fixed _ Hc), IH.
Qed.

Lemma normalized_no_upper (t : string) : normalized t -> hasUpper t = false.
Proof.
  intros H. rewrite <- (normalized_fixed H). apply toLowerCase_no_upper.
Qed.

Lemma sigil_parse_normalized (sigil : ascii) (s : string) :
  Forall normalized
    match String_match (sigilWord sigil) s with
    | Some ms => map (fun m => toLowerCase (slice1 m)) ms
    | None => []
    end.
Proof.
  destruct (String_match (sigilWord sigil) s) as [ms|] eqn:E; [|constructor].
  apply Forall_map.
  eapply String_match_Forall in E; [exact E|].
  intros s' m Hm. apply sigilWord_shape in Hm as (w & -> & Hne & Hw).
  simpl. split.
  - destruct w; [congruence|discriminate].
  - now apply toLowerCase_word.
Qed.

Lemma parseHashtags_normalized (s : string) : Forall normalized (parseHashtags s).
Proof. apply sigil_parse_normalized. Qed.

Lemma parseMentions_normalized (s : string) : Forall normalized (parseMentions s).
Proof. apply sigil_parse_normalized. Qed.

(** ** [Array.from(new Set(xs))] *)

Lemma arrayFromSet_In (xs : list string) (y : string) :
  In y (arrayFromSet xs) <-> In y xs.
Proof.
  induction xs as [|x xs IH]; simpl; [tauto|].
  rewrite filter_In, IH, negb_true_iff, String.eqb_neq.
  destruct (string_dec x y); tauto.
Qed.

Lemma arrayFromSet_NoDup (xs : list string) : NoDup (arrayFromSet xs).
Proof.
  induction xs as [|x xs IH]; simpl; constructor.
  - rewrite filter_In, String.eqb_refl. intros [_ H]. discriminate.
  - now apply NoDup_filter.
Qed.

Lemma filter_all {A} (f : A -> bool) (l : list A) :
  (forall x, In x l -> f x = true) -> filter f l = l.
Proof.
  induction l as [|a l IH]; simpl; intros H; [reflexivity|].
  rewrite (H a (or_introl eq_refl)), IH; auto.
Qed.

Lemma arrayFromSet_NoDup_id (xs : list string) : NoDup xs -> arrayFromSet xs = xs.
Proof.
  induction 1 as [|x xs Hx _ IH]; simpl; [reflexivity|].
  rewrite IH, filter_all; [reflexivity|].
  intros y Hy. apply negb_true_iff, String.eqb_neq. congruence.
Qed.

Lemma arrayFromSet_idem (xs : list string) :
  arrayFromSet (arrayFromSet xs) = arrayFromSet xs.
Proof. apply arrayFromSet_NoDup_id, arrayFromSet_NoDup. Qed.

(** ** The results follow the order of the text

    Parsing a text made of two parts separated by a space gives the
    results of the first part followed by those of the second. *)

Lemma takeWhile_app_stop (f : ascii -> bool) (sep : ascii) (s t : string) :
  f sep = false ->
  takeWhile f (s ++ String sep t)%string = takeWhile f s.
Proof.
  intros Hsep. induction s as [|c s IH]; simpl.
  - now rewrite Hsep.
  - destruct (f c); [now rewrite IH|reflexivity].
Qed.

Lemma dropPrefix_Some (p s r : string) :
  dropPrefix p s = Some r -> s = (p ++ r)%string.
Proof.
  revert s. induction p as [|a p IH]; intros [|b s]; simpl; try discriminate.
  - now intros [= <-].
  - now intros [= <-].
  - destruct (Ascii.eqb a b) eqn:E; [|discriminate].
    apply Ascii.eqb_eq in E; subst b. intros H. now rewrite (IH _ H).
Qed.

Lemma dropPrefix_app_space (p s t : string) :
  forallb_string (fun a => negb (Ascii.eqb a " ")) p = true ->
  dropPrefix p (s ++ String " " t)%string
  = match dropPrefix p s with
    | Some r => Some (r ++ String " " t)%string
    | None => None
    end.
Proof.
  revert s. induction p as [|a p IH]; intros s Hp; [reflexivity|].
  simpl in Hp. apply andb_true_iff in Hp as [Ha Hp].
  destruct s as [|b s]; simpl.
  - apply negb_true_iff in Ha. now rewrite Ha.
  - destruct (Ascii.eqb a b); [now apply IH|reflexivity].
Qed.

Lemma string_app_length (s t : string) :
  String.length (s ++ t)%string = String.length s + String.length t.
Proof. induction s; simpl; congruence. Qed.

Section Separated.

Variable rx : regex.
Hypothesis rx_fits : forall s m, rx s = Some m -> String.length m <= String.length s.
Hypothesis rx_local : forall c s t, rx (String c (s ++ String " " t)%string) = rx (String c s).
Hypothesis rx_space : forall t, rx (String " " t) = None.

Lemma matchAll_separated (s2 s1 : string) (skip : nat) :
  skip <= String.length s1 ->
  matchAll rx (s1 ++ String " " s2)%string skip
  = matchAll rx s1 skip ++ matchAll rx s2 0.
Proof.
  revert skip. induction s1 as [|c s1 IH]; intros skip Hskip; simpl in *.
  - replace skip with 0 by lia. now rewrite rx_space.
  - destruct skip as [|k]; [|apply IH; lia].
    rewrite rx_local.
    destruct (rx (String c s1)) as [m|] eqn:E.
    + apply rx_fits in E. simpl in E. simpl. f_equal. apply IH. lia.
    + apply IH. lia.
Qed.

End Separated.

Lemma sigilWord_fits (sigil : ascii) (s m : string) :
  sigilWord sigil s = Some m -> String.length m <= String.length s.
Proof.
  destruct s as [|c rest]; simpl; [discriminate|].
  destruct (Ascii.eqb c sigil); [|discriminate].
  pose proof (takeWhile_length isWord rest).
  destruct (takeWhile isWord rest); [discriminate|].
  intros [= <-]. simpl in *. lia.
Qed.

Lemma sigilWord_local (sigil c : ascii) (s t : string) :
  sigilWord sigil (String c (s ++ String " " t)%string) = sigilWord sigil (String c s).
Proof.
  simpl. now rewrite takeWhile_app_stop.
Qed.

Lemma plusRun_fits (prefix rest m : string) :
  plusRun prefix rest = Some m ->
  String.length m <= String.length (prefix ++ rest)%string.
Proof.
  unfold plusRun. pose proof (takeWhile_length notSpace rest).
  destruct (takeWhile notSpace rest); [discriminate|].
  intros [= <-]. rewrite !string_app_length. simpl in *. lia.
Qed.

Lemma plusRun_local (prefix rest t : string) :
  plusRun prefix (rest ++ String " " t)%string = plusRun prefix rest.
Proof. unfold plusRun. now rewrite takeWhile_app_stop. Qed.

Lemma httpUrl_fits (s m : string) :
  httpUrl s = Some m -> String.length m <= String.length s.
Proof.
  unfold httpUrl.
  destruct (dropPrefix "https://" s) as [r|] eqn:E1.
  - apply dropPrefix_Some in E1. intros H. apply plusRun_fits in H. now subst.
  - destruct (dropPrefix "http://" s) as [r|] eqn:E2; [|discriminate].
    apply dropPrefix_Some in E2. intros H. apply plusRun_fits in H. now subst.
Qed.

Lemma httpUrl_local (s t : string) :
  httpUrl (s ++ String " " t)%string = httpUrl s.
Proof.
  unfold httpUrl.
  rewrite !dropPrefix_app_space by reflexivity.
  destruct (dropPrefix "https://" s); [apply plusRun_local|].
  destruct (dropPrefix "http://" s); [apply plusRun_local|reflexivity].
Qed.

Lemma sigil_parse_matchAll (f : string -> string) (rx : regex) (s : string) :
  match String_match rx s with
  | Some ms => map f ms
  | None => []
  end = map f (matchAll rx s 0).
Proof.
  unfold String_match. now destruct (matchAll rx s 0).
Qed.

Lemma parseHashtags_separated (s1 s2 : string) :
  parseHashtags (s1 ++ String " " s2)%string = parseHashtags s1 ++ parseHashtags s2.
Proof.
  unfold parseHashtags. cbv zeta. rewrite !sigil_parse_matchAll.
  rewrite matchAll_separated, map_app;
    [reflexivity|apply sigilWord_fits|apply sigilWord_local|reflexivity|lia].
Qed.

Lemma parseMentions_separated (s1 s2 : string) :
  parseMentions (s1 ++ String " " s2)%string = parseMentions s1 ++ parseMentions s2.
Proof.
  unfold parseMentions. cbv zeta. rewrite !sigil_parse_matchAll.
  rewrite matchAll_separated, map_app;
    [reflexivity|apply sigilWord_fits|apply sigilWord_local|reflexivity|lia].
Qed.

Lemma parseUrls_separated (s1 s2 : string) :
  parseUrls (s1 ++ String " " s2)%string = parseUrls s1 ++ parseUrls s2.
Proof.
  assert (E : forall s, parseUrls s = matchAll httpUrl s 0).
  { intros s. unfold parseUrls, String_match. now destruct (matchAll httpUrl s 0). }
  rewrite !E.
  rewrite matchAll_separated;
    [reflexivity|apply httpUrl_fits| |reflexivity|lia].
  intros c s t. apply (httpUrl_local (String c s) t).
Qed.

End TextFacts.

(* ===================================================================== *)
(** * Properties of the store                                             *)
(* ===================================================================== *)

Module StoreFacts.
Import Store.

(** ** ORDER BY created_at DESC *)

Lemma desc_total (a b : option timestamptz) : desc a b = false -> desc b a = true.
Proof.
  destruct a as [x|], b as [y|]; simpl; try easy.
  rewrite Z.leb_gt, Z.leb_le. lia.
Qed.

Lemma desc_trans (a b c : option timestamptz) :
  desc a b = true -> desc b c = true -> desc a c = true.
Proof.
  destruct a as [x|], b as [y|], c as [z|]; simpl; try easy.
  rewrite !Z.leb_le. lia.
Qed.

Lemma insert_desc_perm (p : Post.t) (l : list Post.t) :
  Permutation (p :: l) (insert_desc p l).
Proof.
  induction l as [|q l IH]; simpl; [reflexivity|].
  destruct (desc (Post.created_at p) (Post.created_at q)); [reflexivity|].
  rewrite perm_swap. now constructor.
Qed.

Lemma order_desc_perm (l : list Post.t) : Permutation l (order_desc l).
Proof.
  induction l as [|p l IH]; simpl; [reflexivity|].
  rewrite <- insert_desc_perm. now constructor.
Qed.

Lemma insert_desc_sorted (p : Post.t) (l : list Post.t) :
  StronglySorted newer l -> StronglySorted newer (insert_desc p l).
Proof.
  induction 1 as [|q l Hs IH Hq]; simpl.
  - repeat constructor.
  - destruct (desc (Post.created_at p) (Post.created_at q)) eqn:E.
    + constructor; [now constructor|].
      constructor; [exact E|].
      eapply Forall_impl; [|exact Hq].
      intros r Hr. eapply desc_trans; eassumption.
    + constructor; [exact IH|].
      eapply Permutation_Forall; [apply insert_desc_perm|].
      constructor; [now apply desc_total|exact Hq].
Qed.

Lemma order_desc_sorted (l : list Post.t) : StronglySorted newer (order_desc l).
Proof.
  induction l as [|p l IH]; simpl; [constructor|now apply insert_desc_sorted].
Qed.

Lemma In_firstn {A} (n : nat) (l : list A) (x : A) :
  In x (firstn n l) -> In x l.
Proof.
  revert n. induction l as [|a l IH]; intros [|n]; simpl; try tauto.
  intros [->|H]; [now left|right; eapply IH, H].
Qed.

Lemma filter_none {A} (f : A -> bool) (l : list A) :
  (forall x, In x l -> f x = false) -> filter f l = [].
Proof.
  induction l as [|a l IH]; simpl; intros H; [reflexivity|].
  rewrite (H a (or_introl eq_refl)). apply IH. auto.
Qed.

Lemma firstn_sorted {A} (R : A -> A -> Prop) (n : nat) (l : list A) :
  StronglySorted R l -> StronglySorted R (firstn n l).
Proof.
  intros H. revert n. induction H as [|a l Hs IH Ha]; intros [|n]; simpl;
    try constructor; [apply IH|].
  rewrite Forall_forall in *. intros x Hx. apply Ha.
  eapply In_firstn, Hx.
Qed.

Lemma firstn_Forall {A} (P : A -> Prop) (n : nat) (l : list A) :
  Forall P l -> Forall P (firstn n l).
Proof.
  rewrite !Forall_forall. intros H x Hx. apply H. eapply In_firstn, Hx.
Qed.

Lemma map_sorted {A B} (f : A -> B) (R : B -> B -> Prop) (l : list A) :
  StronglySorted (fun a b => R (f a) (f b)) l -> StronglySorted R (map f l).
Proof.
  induction 1 as [|a l Hs IH Ha]; simpl; constructor; [exact IH|].
  now apply Forall_map.
Qed.

(** ** A page of posts *)

Lemma select_posts_post (q : PostsQuery) (d : Db) :
  map FeedRow.post (select_posts q d) = select_page q d.
Proof.
  unfold select_posts. rewrite map_map. apply map_id.
Qed.

Lemma select_page_where (q : PostsQuery) (d : Db) :
  Forall (fun p => In p (posts d) /\ where_posts q p = true) (select_page q d).
Proof.
  assert (Hm : Forall (fun p => In p (posts d) /\ where_posts q p = true)
                 (filter (where_posts q) (posts d))).
  { rewrite Forall_forall. intros p Hp. now apply filter_In in Hp. }
  assert (Ho : Forall (fun p => In p (posts d) /\ where_posts q p = true)
                 (if q_order_created_at_desc q
                  then order_desc (filter (where_posts q) (posts d))
                  else filter (where_posts q) (posts d))).
  { destruct (q_order_created_at_desc q); [|exact Hm].
    eapply Permutation_Forall; [apply order_desc_perm|exact Hm]. }
  unfold select_page. destruct (q_limit q); [now apply firstn_Forall|exact Ho].
Qed.

Lemma select_page_sorted (q : PostsQuery) (d : Db) :
  q_order_created_at_desc q = true -> StronglySorted newer (select_page q d).
Proof.
  intros Ho. unfold select_page. rewrite Ho.
  destruct (q_limit q); [apply firstn_sorted|]; apply order_desc_sorted.
Qed.

Lemma select_page_length (q : PostsQuery) (d : Db) (n : nat) :
  q_limit q = Some n -> List.length (select_page q d) <= n.
Proof.
  intros Hn. unfold select_page. rewrite Hn. apply firstn_le_length.
Qed.

(** With a limit that covers the table, every matching post is on the
    page. *)
Lemma select_page_complete (q : PostsQuery) (d : Db) (p : Post.t) :
  match q_limit q with
  | Some n => List.length (posts d) <= n
  | None => True
  end ->
  In p (posts d) -> where_posts q p = true -> In p (select_page q d).
Proof.
  intros Hn Hp Hw.
  assert (Hm : In p (filter (where_posts q) (posts d))) by now apply filter_In.
  pose proof (filter_length_le (where_posts q) (posts d)) as Hlen.
  unfold select_page.
  destruct (q_order_created_at_desc q).
  - pose proof (order_desc_perm (filter (where_posts q) (posts d))) as Hperm.
    destruct (q_limit q) as [n|].
    + rewrite firstn_all2.
      * eapply Permutation_in; eassumption.
      * rewrite <- (Permutation_length Hperm). lia.
    + eapply Permutation_in; eassumption.
  - destruct (q_limit q) as [n|]; [rewrite firstn_all2; [exact Hm|lia]|exact Hm].
Qed.

Lemma where_not_deleted (q : PostsQuery) (p : Post.t) :
  q_eq_is_deleted q = Some false -> where_posts q p = true ->
  Post.is_deleted p = Some false.
Proof.
  unfold where_posts. intros ->.
  rewrite !andb_true_iff. intros [[[_ _] H] _].
  destruct (Post.is_deleted p) as [[]|]; simpl in H; congruence.
Qed.

Lemma where_before_cursor (q : PostsQuery) (p : Post.t) (c : timestamptz) :
  q_lt_created_at q = Some c -> where_posts q p = true ->
  exists t, Post.created_at p = Some t /\ (t < c)%Z.
Proof.
  unfold where_posts. intros ->.
  rewrite !andb_true_iff. intros [_ H].
  destruct (Post.created_at p) as [t|]; [|discriminate].
  exists t. split; [reflexivity|now apply Z.ltb_lt].
Qed.

(** ** ON CONFLICT DO NOTHING *)

Lemma same_post_hashtag_eq (a b : PostHashtag.t) :
  same_post_hashtag a b = true <-> a = b.
Proof.
  destruct a as [p h], b as [p' h']. unfold same_post_hashtag; simpl.
  rewrite andb_true_iff, !Nat.eqb_eq. split; [intros [-> ->]|intros [= -> ->]]; auto.
Qed.

Lemma existsb_same_In (r : PostHashtag.t) (table : list PostHashtag.t) :
  existsb (same_post_hashtag r) table = true <-> In r table.
Proof.
  rewrite existsb_exists. split.
  - intros (x & Hx & E). apply same_post_hashtag_eq in E. now subst.
  - intros H. exists r. split; [exact H|now apply same_post_hashtag_eq].
Qed.

Lemma upsert_rows_grows (d : Db) (rows table table' : list PostHashtag.t) :
  upsert_post_hashtags_rows d rows table = inr table' ->
  (forall r, In r table -> In r table') /\ (forall r, In r rows -> In r table').
Proof.
  revert table. induction rows as [|r rows IH]; intros table; simpl.
  - intros [= <-]. split; [auto|intros r []].
  - destruct (existsb (same_post_hashtag r) table) eqn:E.
    + intros H. destruct (IH _ H) as [Ht Hr]. split; [exact Ht|].
      intros x [<-|Hx]; [|now apply Hr]. now apply Ht, existsb_same_In.
    + destruct (negb (post_exists d (PostHashtag.post_id r))); [discriminate|].
      destruct (negb (hashtag_exists d (PostHashtag.hashtag_id r))); [discriminate|].
      intros H. destruct (IH _ H) as [Ht Hr]. split.
      * intros x Hx. apply Ht, in_or_app. now left.
      * intros x [<-|Hx]; [|now apply Hr]. apply Ht, in_or_app. right. now left.
Qed.

Lemma upsert_rows_present (d : Db) (rows table : list PostHashtag.t) :
  (forall r, In r rows -> In r table) ->
  upsert_post_hashtags_rows d rows table = inr table.
Proof.
  induction rows as [|r rows IH]; simpl; intros H; [reflexivity|].
  assert (E : existsb (same_post_hashtag r) table = true)
    by (apply existsb_same_In, H; now left).
  rewrite E. apply IH. intros x Hx. apply H. now right.
Qed.

Lemma upsert_rows_NoDup (d : Db) (rows table table' : list PostHashtag.t) :
  NoDup table ->
  upsert_post_hashtags_rows d rows table = inr table' -> NoDup table'.
Proof.
  revert table. induction rows as [|r rows IH]; intros table Hnd; simpl.
  - now intros [= <-].
  - destruct (existsb (same_post_hashtag r) table) eqn:E; [now apply IH|].
    destruct (negb (post_exists d (PostHashtag.post_id r))); [discriminate|].
    destruct (negb (hashtag_exists d (PostHashtag.hashtag_id r))); [discriminate|].
    apply IH.
    apply NoDup_app; [exact Hnd|repeat constructor; intros []|].
    intros x Hx [<-|[]].
    apply existsb_same_In in Hx. congruence.
Qed.

Lemma one_row_per_pair (r : PostHashtag.t) (table : list PostHashtag.t) :
  NoDup table -> In r table ->
  List.length (filter (same_post_hashtag r) table) = 1.
Proof.
  induction 1 as [|x table Hx Hnd IH]; simpl; [intros []|].
  intros [->|Hr].
  - replace (same_post_hashtag r r) with true
      by (symmetry; now apply same_post_hashtag_eq).
    simpl. f_equal.
    rewrite filter_none; [reflexivity|].
    intros y Hy. destruct (same_post_hashtag r y) eqn:E; [|reflexivity].
    apply same_post_hashtag_eq in E. congruence.
  - destruct (same_post_hashtag r x) eqn:E; [|now apply IH].
    apply same_post_hashtag_eq in E. congruence.
Qed.

End StoreFacts.

(* ===================================================================== *)
(** * Properties of the event loop                                        *)
(* ===================================================================== *)

Module AsyncFacts.
Import Store Async.

Lemma run_bind {A B} (p : Prog A) (f : A -> Prog B) (m : Machine) :
  run (bind p f) m
  = match fst (run p m) with
    | Fulfilled a => run (f a) (snd (run p m))
    | Rejected e => (Rejected e, snd (run p m))
    end.
Proof.
  revert m. induction p as [a|e|R eff k IH]; intros m; simpl; [reflexivity..|apply IH].
Qed.

Lemma run_settle {A B} (t : Prog A) (k : Outcome A -> Prog B) (m : Machine) :
  run (settle t k) m = run (k (fst (run t m))) (snd (run t m)).
Proof.
  revert m. induction t as [a|e|R eff f IH]; intros m; simpl; [reflexivity..|apply IH].
Qed.

Lemma run_reaches {A} (p : Prog A) (m : Machine) : reaches p (fst (run p m)).
Proof.
  revert m. induction p as [a|e|R eff k IH]; intros m; simpl.
  - constructor.
  - constructor.
  - econstructor. apply IH.
Qed.

(** Completing the tasks in turn settles every one of them. *)
Lemma drain_settles {A} (ts : list (Prog A)) :
  forall (settled : list (Outcome A)) (first : option Error) (m : Machine),
  exists outcomes first',
    fst (run (drain ts settled first) m) = Fulfilled (rev settled ++ outcomes, first')
    /\ Forall2 reaches ts outcomes.
Proof.
  induction ts as [|t ts IH]; intros settled first m; simpl.
  - exists [], first. rewrite app_nil_r. split; [reflexivity|constructor].
  - rewrite run_settle.
    destruct (IH (fst (run t m) :: settled)
                 (noteOutcome first (fst (run t m))) (snd (run t m)))
      as (outcomes & first' & E & Hall).
    exists (fst (run t m) :: outcomes), first'. split.
    + rewrite E. simpl. now rewrite <- app_assoc.
    + constructor; [apply run_reaches|exact Hall].
Qed.

Lemma reaches_replace {A} {R} (eff : Effect R) (k : R -> Prog A) (r : R)
    (ts : list (Prog A)) (outcomes : list (Outcome A)) :
  forall i, nth_error ts i = Some (Vis eff k) ->
  Forall2 reaches (replace i (k r) ts) outcomes ->
  Forall2 reaches ts outcomes.
Proof.
  revert outcomes. induction ts as [|t ts IH]; intros outcomes [|i]; simpl;
    try discriminate.
  - intros [= ->] H. inversion H; subst. constructor; [|assumption].
    econstructor. eassumption.
  - intros Hi H. inversion H; subst. constructor; [assumption|].
    eapply IH; eassumption.
Qed.

(** Whatever the schedule, every task is run to its end, and its outcome
    is one of its own. *)
Lemma interleave_settles {A} (sched : list nat) :
  forall (ts : list (Prog A)) (first : option Error) (m : Machine),
  exists outcomes first',
    fst (run (interleave sched ts first) m) = Fulfilled (outcomes, first')
    /\ Forall2 reaches ts outcomes.
Proof.
  induction sched as [|i sched IH]; intros ts first m.
  - apply (drain_settles ts [] first m).
  - simpl. destruct (nth_error ts i) as [[a|e|R eff k]|] eqn:E; try apply IH.
    simpl.
    destruct (IH (replace i (k (fst (perform eff m))) ts)
                 (noteRejection first (k (fst (perform eff m))))
                 (snd (perform eff m)))
      as (outcomes & first' & Hrun & Hall).
    exists outcomes, first'. split; [exact Hrun|].
    eapply reaches_replace; eassumption.
Qed.

Lemma Promise_allSettled_settles {A} (ts : list (Prog A)) (m : Machine) :
  exists outcomes,
    fst (run (Promise_allSettled ts) m) = Fulfilled outcomes
    /\ Forall2 reaches ts outcomes.
Proof.
  unfold Promise_allSettled. cbn [run]. rewrite run_bind.
  destruct (interleave_settles (fst (perform Resume m)) ts None (snd (perform Resume m)))
    as (outcomes & first' & E & Hall).
  rewrite E. simpl. exists outcomes. split; [reflexivity|exact Hall].
Qed.

(** ** Requests *)

Lemma perform_Query_answered {X} (q : Request X) (m : Machine) :
  fault (hd calm (events m)) = None ->
  perform (Query q) m
  = (fst (exec q (disturb (hd calm (events m)) (db m))),
     mkMachine (snd (exec q (disturb (hd calm (events m)) (db m))))
       (console m) (tl (events m)) (schedules m)).
Proof. simpl. now intros ->. Qed.

Lemma perform_Query_fault {X} (q : Request X) (m : Machine) (e : Error) :
  fault (hd calm (events m)) = Some e ->
  perform (Query q) m
  = (failed e,
     mkMachine (disturb (hd calm (events m)) (db m))
       (console m) (tl (events m)) (schedules m)).
Proof. simpl. now intros ->. Qed.

End AsyncFacts.

(* ===================================================================== *)
(** * The properties of the specification                                 *)
(* ===================================================================== *)

Import Text Store Async Api.
Import TextFacts StoreFacts AsyncFacts.

Lemma events_after_Query {X} (q : Request X) (m : Machine) :
  events (snd (perform (Query q) m)) = tl (events m).
Proof. simpl. now destruct (fault (hd calm (events m))). Qed.

(** ** Get-or-create of a hashtag *)

(** C1, as stated, fails: when another client creates the tag between the
    lookup and the insert, the lookup finds nothing, the insert violates
    the unique constraint on the tag, and [getOrCreateHashtag] is rejected
    with that violation; it does not read the row again. *)
Lemma getOrCreateHashtag_race_is_rejected :
  let lookup := perform (Query (SelectHashtag "rust")) Scenario.race in
  let insert := perform (Query (InsertHashtag "rust")) (snd lookup) in
  data (fst lookup) = None
  /\ error (fst insert) = Some (UniqueViolation "hashtags_tag_key")
  /\ fst (run (getOrCreateHashtag "Rust") Scenario.race)
     = Rejected (UniqueViolation "hashtags_tag_key")
  /\ ~ (exists row, fst (run (getOrCreateHashtag "Rust") Scenario.race) = Fulfilled row).
Proof.
  vm_compute. repeat split. intros [row H]. discriminate.
Qed.

(** C1, amended: when the lookup finds no row and the insert then fails,
    [getOrCreateHashtag] makes no further request and is rejected with the
    error of the insert; when that error is the unique violation raised by
    the store, the row of the other writer is in the table, unread. *)
Theorem getOrCreateHashtag_throws_insert_error
    (tag : string) (m : Machine) (e : Error) :
  let normalizedTag := toLowerCase tag in
  let lookup := perform (Query (SelectHashtag normalizedTag)) m in
  let insert := perform (Query (InsertHashtag normalizedTag)) (snd lookup) in
  data (fst lookup) = None ->
  error (fst insert) = Some e ->
  run (getOrCreateHashtag tag) m = (Rejected e, snd insert)
  /\ (fault (hd calm (events (snd lookup))) = None ->
      isUniqueViolation e = true ->
      exists h, In h (hashtags (db (snd insert)))
                /\ Hashtag.tag h = normalizedTag).
Proof.
  intros normalizedTag lookup insert Hlookup Hinsert. split.
  - unfold getOrCreateHashtag. cbn [run].
    fold normalizedTag. fold lookup. rewrite Hlookup. cbn [run].
    fold insert. now rewrite Hinsert.
  - intros Hfault Hunique. subst insert.
    rewrite perform_Query_answered in * by exact Hfault.
    cbn [fst snd db exec] in *.
    set (d := disturb (hd calm (events (snd lookup))) (db (snd lookup))) in *.
    unfold insert_hashtag in *.
    destruct (negb (tag_format normalizedTag)).
    + cbn in Hinsert. injection Hinsert as <-. discriminate.
    + destruct (existsb (fun h => String.eqb (Hashtag.tag h) normalizedTag) (hashtags d))
        eqn:E.
      * apply existsb_exists in E as (h & Hh & Htag).
        exists h. split; [exact Hh|now apply String.eqb_eq].
      * cbn in Hinsert. discriminate.
Qed.

Lemma getOrCreateHashtag_throws_insert_error_witness :
  run (getOrCreateHashtag "Rust") Scenario.race
  = (Rejected (UniqueViolation "hashtags_tag_key"),
     snd (perform (Query (InsertHashtag "rust"))
            (snd (perform (Query (SelectHashtag "rust")) Scenario.race)))).
Proof.
  exact (proj1 (@getOrCreateHashtag_throws_insert_error "Rust" Scenario.race
                  (UniqueViolation "hashtags_tag_key") eq_refl eq_refl)).
Defined.

(** ** Creating a post *)

Example createPost_enrichment_isolated :
  let post := Post.mk 100 1 "new #Rust for @alice_dev https://x.io" None
                (Some false) None None (Some 1000%Z) in
  let after := snd (run (createPost 1 "new #Rust for @alice_dev https://x.io" None)
                      Scenario.posting_race) in
  fst (run (createPost 1 "new #Rust for @alice_dev https://x.io" None)
         Scenario.posting_race) = Fulfilled post
  /\ fst (run (Promise_allSettled
                 [ linkHashtags 100 "new #Rust for @alice_dev https://x.io";
                   insertMentions 100 "new #Rust for @alice_dev https://x.io";
                   linkUrls 100 "new #Rust for @alice_dev https://x.io" ])
            (snd (perform (Query (InsertPost 1 "new #Rust for @alice_dev https://x.io" None))
                    Scenario.posting_race)))
     = Fulfilled [ Rejected (UniqueViolation "hashtags_tag_key");
                   Fulfilled tt; Fulfilled tt ]
  /\ map mention_pair (mentions (db after)) = [(100, 1)]
  /\ map PostLink.post_id (post_links (db after)) = [100]
  /\ filter (fun l => PostHashtag.post_id l =? 100) (post_hashtags (db after)) = []
  /\ console after = [].
Proof. vm_compute. repeat split. Qed.

(** Mentions are recorded without ever throwing: every error is logged. *)
Lemma insertMentions_never_throws (postId : uuid) (content : string) :
  never_throws (insertMentions postId content).
Proof.
  unfold insertMentions.
  destruct (List.length (arrayFromSet (parseMentions content)) =? 0); [exact I|].
  intros r. destruct (error r); [intros []; exact I|].
  destruct (data r) as [[|row rows]|]; try exact I.
  intros r'. destruct (error r'); [intros []|]; exact I.
Qed.

Lemma never_throws_reaches {A} (p : Prog A) (o : Outcome A) :
  reaches p o -> never_throws p -> exists a, o = Fulfilled a.
Proof.
  induction 1 as [a|e|R eff k r o Hr IH]; simpl.
  - intros _. now exists a.
  - intros [].
  - intros H. apply IH, H.
Qed.

(** Whatever happens to the hashtags and the links, the mentions task is
    fulfilled. *)
Lemma enrichment_mentions_fulfilled (postId : uuid) (content : string) (m : Machine) :
  exists hashtags_outcome links_outcome,
    fst (run (Promise_allSettled
                [ linkHashtags postId content;
                  insertMentions postId content;
                  linkUrls postId content ]) m)
    = Fulfilled [hashtags_outcome; Fulfilled tt; links_outcome].
Proof.
  destruct (Promise_allSettled_settles
              [ linkHashtags postId content;
                insertMentions postId content;
                linkUrls postId content ] m) as (outcomes & Hrun & Hall).
  inversion Hall as [|t1 o1 ts1 os1 _ Hall1]; subst.
  inversion Hall1 as [|t2 o2 ts2 os2 Hm Hall2]; subst.
  inversion Hall2 as [|t3 o3 ts3 os3 _ Hall3]; subst.
  inversion Hall3; subst.
  destruct (never_throws_reaches Hm (insertMentions_never_throws postId content))
    as [[] ->].
  now exists o1, o3.
Qed.

(** C2: when the insert of the post succeeds, [createPost] returns the
    inserted post, in every environment and for every order in which the
    three enrichment tasks are resumed.  The three tasks are all run to
    their end: each gets an outcome of its own, and a rejected task (for
    instance [linkHashtags] after a duplicate-key failure) changes neither
    the outcomes of the other two nor the result of [createPost]. *)
Theorem createPost_returns_post
    (userId : uuid) (content : string) (imageUrl : option string)
    (m : Machine) (post : Post.t) :
  let inserted := perform (Query (InsertPost userId content (orNull imageUrl))) m in
  let enrichment :=
    [ linkHashtags (Post.id post) content;
      insertMentions (Post.id post) content;
      linkUrls (Post.id post) content ] in
  fst inserted = ok post ->
  exists outcomes,
    fst (run (Promise_allSettled enrichment) (snd inserted)) = Fulfilled outcomes
    /\ Forall2 reaches enrichment outcomes
    /\ run (createPost userId content imageUrl) m
       = (Fulfilled post, snd (run (Promise_allSettled enrichment) (snd inserted))).
Proof.
  intros inserted enrichment Hok.
  destruct (Promise_allSettled_settles enrichment (snd inserted))
    as (outcomes & Hrun & Hall).
  exists outcomes. repeat split; [exact Hrun|exact Hall|].
  unfold createPost. cbn [run]. fold inserted. rewrite Hok.
  cbn [error data ok]. fold enrichment.
  rewrite run_bind, Hrun. reflexivity.
Qed.

Lemma createPost_returns_post_witness :
  exists outcomes,
    fst (run (Promise_allSettled
                [ linkHashtags 100 "new #Rust for @alice_dev https://x.io";
                  insertMentions 100 "new #Rust for @alice_dev https://x.io";
                  linkUrls 100 "new #Rust for @alice_dev https://x.io" ])
           (snd (perform (Query (InsertPost 1 "new #Rust for @alice_dev https://x.io" None))
                   Scenario.posting_race)))
    = Fulfilled outcomes
    /\ Forall2 reaches
         [ linkHashtags 100 "new #Rust for @alice_dev https://x.io";
           insertMentions 100 "new #Rust for @alice_dev https://x.io";
           linkUrls 100 "new #Rust for @alice_dev https://x.io" ]
         outcomes
    /\ run (createPost 1 "new #Rust for @alice_dev https://x.io" None)
         Scenario.posting_race
       = (Fulfilled (Post.mk 100 1 "new #Rust for @alice_dev https://x.io" None
                       (Some false) None None (Some 1000%Z)),
          snd (run (Promise_allSettled
                      [ linkHashtags 100 "new #Rust for @alice_dev https://x.io";
                        insertMentions 100 "new #Rust for @alice_dev https://x.io";
                        linkUrls 100 "new #Rust for @alice_dev https://x.io" ])
                 (snd (perform (Query (InsertPost 1 "new #Rust for @alice_dev https://x.io" None))
                         Scenario.posting_race)))).
Proof.
  exact (@createPost_returns_post 1 "new #Rust for @alice_dev https://x.io" None
           Scenario.posting_race
           (Post.mk 100 1 "new #Rust for @alice_dev https://x.io" None
              (Some false) None None (Some 1000%Z))
           eq_refl).
Defined.

(** ** Unfollowing *)

Lemma with_follows_same (d : Db) : with_follows (follows d) d = d.
Proof. now destruct d. Qed.

(** C8: when the store holds no follow relation from [a] to [b] at the
    time the request arrives, [unfollowUser a b] completes without error
    and the store is left exactly as it was. *)
Theorem unfollow_absent_is_noop (a b : uuid) (m : Machine) :
  let d := disturb (hd calm (events m)) (db m) in
  fault (hd calm (events m)) = None ->
  existsb (is_follow a b) (follows d) = false ->
  run (unfollowUser a b) m
  = (Fulfilled tt, mkMachine d (console m) (tl (events m)) (schedules m)).
Proof.
  intros d Hfault Habsent.
  unfold unfollowUser. cbn [run].
  rewrite perform_Query_answered by exact Hfault.
  fold d. cbn [fst snd exec delete_follow error Store.done run].
  rewrite filter_all, with_follows_same; [reflexivity|].
  intros f Hf. apply negb_true_iff.
  destruct (is_follow a b f) eqn:E; [|reflexivity].
  rewrite <- Habsent. symmetry. apply existsb_exists. now exists f.
Qed.

Lemma unfollow_absent_is_noop_witness :
  run (unfollowUser 1 2) (idle Scenario.town)
  = (Fulfilled tt,
     mkMachine (disturb (hd calm (events (idle Scenario.town)))
                  (db (idle Scenario.town)))
       (console (idle Scenario.town)) (tl (events (idle Scenario.town)))
       (schedules (idle Scenario.town))).
Proof.
  exact (@unfollow_absent_is_noop 1 2 (idle Scenario.town) eq_refl eq_refl).
Defined.

(** ** The feeds *)

Lemma followingIdsOf_not_empty (userId : uuid) (following : Result (list uuid)) :
  (List.length (followingIdsOf userId following) =? 0) = false.
Proof.
  unfold followingIdsOf. rewrite length_app, Nat.add_comm. reflexivity.
Qed.

(** What [getHomeFeed] does, request by request. *)
Lemma run_getHomeFeed (userId : uuid) (cursor : option timestamptz)
    (limit : option nat) (m : Machine) :
  let asked := perform (Query (SelectFollowing userId)) m in
  let query :=
    homeFeedQuery (followingIdsOf userId (fst asked)) cursor (limitOr20 limit) in
  let read := perform (Query (SelectPosts query)) (snd asked) in
  run (getHomeFeed userId cursor limit) m
  = match error (fst read) with
    | Some e => (Rejected e, snd read)
    | None => (Fulfilled (data (fst read)), snd read)
    end.
Proof.
  intros asked query read. unfold getHomeFeed. cbn [run].
  fold asked. rewrite followingIdsOf_not_empty. cbn [run].
  fold query. fold read. now destruct (error (fst read)).
Qed.

Lemma run_getUserPosts (userId : uuid) (cursor : option timestamptz)
    (limit : option nat) (m : Machine) :
  let read :=
    perform (Query (SelectPosts (userPostsQuery userId cursor (limitOr20 limit)))) m in
  run (getUserPosts userId cursor limit) m
  = match error (fst read) with
    | Some e => (Rejected e, snd read)
    | None => (Fulfilled (data (fst read)), snd read)
    end.
Proof.
  intros read. unfold getUserPosts. cbn [run].
  fold read. now destruct (error (fst read)).
Qed.

Lemma homeFeedQuery_fields (ids : list uuid) (cursor : option timestamptz) (n : nat) :
  let q := homeFeedQuery ids cursor n in
  q_in_user_id q = Some ids /\ q_eq_user_id q = None
  /\ q_eq_is_deleted q = Some false /\ q_lt_created_at q = cursor
  /\ q_order_created_at_desc q = true /\ q_limit q = Some n.
Proof. destruct cursor; cbn; repeat split. Qed.

Lemma userPostsQuery_fields (userId : uuid) (cursor : option timestamptz) (n : nat) :
  let q := userPostsQuery userId cursor n in
  q_in_user_id q = None /\ q_eq_user_id q = Some userId
  /\ q_eq_is_deleted q = Some false /\ q_lt_created_at q = cursor
  /\ q_order_created_at_desc q = true /\ q_limit q = Some n.
Proof. destruct cursor; cbn; repeat split. Qed.

(** The page of a query that filters on the deleted flag and the cursor,
    orders by creation time and limits the number of rows. *)
Lemma select_posts_page (q : PostsQuery) (d : Db) (c : timestamptz) (n : nat) :
  q_lt_created_at q = Some c ->
  q_order_created_at_desc q = true ->
  q_limit q = Some n ->
  Forall (older_than c) (select_posts q d)
  /\ newest_first (select_posts q d)
  /\ List.length (select_posts q d) <= n.
Proof.
  intros Hc Ho Hn. unfold select_posts. repeat split.
  - apply Forall_map.
    eapply Forall_impl; [|apply select_page_where].
    intros p [_ Hw]. unfold older_than, createdAt. cbn.
    eapply where_before_cursor; eassumption.
  - apply map_sorted. cbn. now apply select_page_sorted.
  - rewrite length_map. now apply select_page_length.
Qed.

Lemma select_posts_not_deleted (q : PostsQuery) (d : Db) :
  q_eq_is_deleted q = Some false ->
  Forall not_deleted (select_posts q d).
Proof.
  intros Hd. unfold select_posts. apply Forall_map.
  eapply Forall_impl; [|apply select_page_where].
  intros p [_ Hw]. unfold not_deleted. cbn.
  eapply where_not_deleted; eassumption.
Qed.

(** C4: with a cursor [c] and a limit [n], and the query for the posts
    answered by the store, [getHomeFeed] and [getUserPosts] return a page
    of posts created strictly before [c], newest first, of at most [n]
    posts. *)
Theorem feeds_page_before_cursor
    (userId : uuid) (c : timestamptz) (n : nat) (m m' : Machine) :
  fault (hd calm (tl (events m))) = None ->
  fault (hd calm (events m')) = None ->
  (exists page,
      fst (run (getHomeFeed userId (Some c) (Some n)) m) = Fulfilled (Some page)
      /\ Forall (older_than c) page /\ newest_first page
      /\ List.length page <= n)
  /\ (exists page,
      fst (run (getUserPosts userId (Some c) (Some n)) m') = Fulfilled (Some page)
      /\ Forall (older_than c) page /\ newest_first page
      /\ List.length page <= n).
Proof.
  intros Hhome Huser. split.
  - rewrite run_getHomeFeed.
    rewrite (perform_Query_answered (SelectPosts _))
      by (rewrite events_after_Query; exact Hhome).
    cbn [fst snd exec ok error data].
    eexists. split; [reflexivity|].
    apply select_posts_page; reflexivity.
  - rewrite run_getUserPosts.
    rewrite perform_Query_answered by exact Huser.
    cbn [fst snd exec ok error data].
    eexists. split; [reflexivity|].
    apply select_posts_page; reflexivity.
Qed.

Lemma feeds_page_before_cursor_witness :
  (exists page,
      fst (run (getHomeFeed 1 (Some 250%Z) (Some 1)) (idle Scenario.town))
      = Fulfilled (Some page)
      /\ Forall (older_than 250%Z) page /\ newest_first page
      /\ List.length page <= 1)
  /\ (exists page,
      fst (run (getUserPosts 1 (Some 250%Z) (Some 1)) (idle Scenario.town))
      = Fulfilled (Some page)
      /\ Forall (older_than 250%Z) page /\ newest_first page
      /\ List.length page <= 1).
Proof.
  exact (@feeds_page_before_cursor 1 250%Z 1 (idle Scenario.town) (idle Scenario.town)
           eq_refl eq_refl).
Defined.

Lemma not_deleted_excludes (page : list FeedRow.t) (p : Post.t) :
  Forall not_deleted page -> Post.is_deleted p = Some true ->
  ~ In p (map FeedRow.post page).
Proof.
  intros Hall Hp Hin. apply in_map_iff in Hin as (r & <- & Hr).
  rewrite Forall_forall in Hall. specialize (Hall r Hr).
  unfold not_deleted in Hall. congruence.
Qed.

(** C5: whatever the cursor and the limit, every post on a page returned
    by [getHomeFeed] or [getUserPosts] has its deleted flag set to false;
    a post whose flag is set is on no page, whoever its author is. *)
Theorem feeds_exclude_deleted
    (userId : uuid) (cursor : option timestamptz) (limit : option nat)
    (m m' : Machine) (p : Post.t) :
  fault (hd calm (tl (events m))) = None ->
  fault (hd calm (events m')) = None ->
  Post.is_deleted p = Some true ->
  (exists page,
      fst (run (getHomeFeed userId cursor limit) m) = Fulfilled (Some page)
      /\ Forall not_deleted page /\ ~ In p (map FeedRow.post page))
  /\ (exists page,
      fst (run (getUserPosts userId cursor limit) m') = Fulfilled (Some page)
      /\ Forall not_deleted page /\ ~ In p (map FeedRow.post page)).
Proof.
  intros Hhome Huser Hp. split.
  - rewrite run_getHomeFeed.
    rewrite (perform_Query_answered (SelectPosts _))
      by (rewrite events_after_Query; exact Hhome).
    cbn [fst snd exec ok error data].
    eexists. split; [reflexivity|].
    assert (H : forall ids d,
               Forall not_deleted
                 (select_posts (homeFeedQuery ids cursor (limitOr20 limit)) d)).
    { intros ids d. apply select_posts_not_deleted, homeFeedQuery_fields. }
    split; [apply H|]. eapply not_deleted_excludes; [apply H|exact Hp].
  - rewrite run_getUserPosts.
    rewrite perform_Query_answered by exact Huser.
    cbn [fst snd exec ok error data].
    eexists. split; [reflexivity|].
    assert (H : forall d,
               Forall not_deleted
                 (select_posts (userPostsQuery userId cursor (limitOr20 limit)) d)).
    { intros d. apply select_posts_not_deleted, userPostsQuery_fields. }
    split; [apply H|]. eapply not_deleted_excludes; [apply H|exact Hp].
Qed.

Lemma feeds_exclude_deleted_witness :
  (exists page,
      fst (run (getHomeFeed 1 None None) (idle Scenario.town)) = Fulfilled (Some page)
      /\ Forall not_deleted page
      /\ ~ In Scenario.removed (map FeedRow.post page))
  /\ (exists page,
      fst (run (getUserPosts 1 None None) (idle Scenario.town)) = Fulfilled (Some page)
      /\ Forall not_deleted page
      /\ ~ In Scenario.removed (map FeedRow.post page)).
Proof.
  exact (@feeds_exclude_deleted 1 None None (idle Scenario.town) (idle Scenario.town)
           Scenario.removed eq_refl eq_refl eq_refl).
Defined.

Lemma followingIdsOf_has_viewer (userId : uuid) (following : Result (list uuid)) :
  In userId (followingIdsOf userId following).
Proof. unfold followingIdsOf. apply in_or_app. right. now left. Qed.

Lemma own_post_matches (userId : uuid) (following : Result (list uuid))
    (cursor : option timestamptz) (n : nat) (p : Post.t) :
  Post.user_id p = userId ->
  Post.is_deleted p = Some false ->
  before_cursor cursor p ->
  where_posts (homeFeedQuery (followingIdsOf userId following) cursor n) p = true.
Proof.
  intros Hu Hd Hc.
  destruct (homeFeedQuery_fields (followingIdsOf userId following) cursor n)
    as (Hin & Heq & Hdel & Hlt & _).
  unfold where_posts. rewrite Hin, Heq, Hdel, Hlt, Hd.
  rewrite !andb_true_iff. repeat split.
  - apply existsb_exists. exists userId.
    split; [apply followingIdsOf_has_viewer|now apply Nat.eqb_eq].
  - destruct cursor as [c|]; [|reflexivity].
    destruct Hc as (t & -> & Ht). now apply Z.ltb_lt.
Qed.

(** C6: the list of authors that [getHomeFeed] computes always contains
    the viewer and is never empty, whatever the follows query answered;
    so a post of the viewer that is not deleted (and older than the
    cursor, when there is one) is on the page whenever the limit covers
    the posts table. *)
Theorem home_feed_includes_viewer
    (userId : uuid) (cursor : option timestamptz) (limit : option nat)
    (m : Machine) (p : Post.t) :
  let asked := perform (Query (SelectFollowing userId)) m in
  let followingIds := followingIdsOf userId (fst asked) in
  let d := disturb (hd calm (events (snd asked))) (db (snd asked)) in
  fault (hd calm (events (snd asked))) = None ->
  In p (posts d) ->
  Post.user_id p = userId ->
  Post.is_deleted p = Some false ->
  before_cursor cursor p ->
  List.length (posts d) <= limitOr20 limit ->
  In userId followingIds
  /\ followingIds <> []
  /\ exists page,
       fst (run (getHomeFeed userId cursor limit) m) = Fulfilled (Some page)
       /\ In p (map FeedRow.post page).
Proof.
  intros asked followingIds d Hfault Hp Hu Hd Hc Hn.
  split; [apply followingIdsOf_has_viewer|].
  split.
  { intros E. pose proof (followingIdsOf_has_viewer userId (fst asked)) as H.
    fold followingIds in H. rewrite E in H. destruct H. }
  rewrite run_getHomeFeed. fold asked. fold followingIds.
  rewrite (perform_Query_answered (SelectPosts _)) by exact Hfault.
  fold d. cbn [fst snd exec ok error data].
  eexists. split; [reflexivity|].
  rewrite select_posts_post.
  apply select_page_complete; [|exact Hp|now apply own_post_matches].
  destruct (homeFeedQuery_fields followingIds cursor (limitOr20 limit))
    as (_ & _ & _ & _ & _ & ->).
  exact Hn.
Qed.

Lemma home_feed_includes_viewer_witness :
  In 1 (followingIdsOf 1 (fst (perform (Query (SelectFollowing 1)) (idle Scenario.town))))
  /\ followingIdsOf 1 (fst (perform (Query (SelectFollowing 1)) (idle Scenario.town))) <> []
  /\ exists page,
       fst (run (getHomeFeed 1 None None) (idle Scenario.town)) = Fulfilled (Some page)
       /\ In Scenario.hello (map FeedRow.post page).
Proof.
  refine (@home_feed_includes_viewer 1 None None (idle Scenario.town)
            Scenario.hello eq_refl _ eq_refl eq_refl I _).
  - simpl. left. reflexivity.
  - simpl. lia.
Defined.

(** ** Linking a post to its hashtags *)

Example linkHashtags_twice :
  let once := snd (run (linkHashtags 52 "#world #World #new") (idle Scenario.town)) in
  let twice := snd (run (linkHashtags 52 "#world #World #new") once) in
  post_hashtags (db once)
  = [PostHashtag.mk 50 60; PostHashtag.mk 52 60; PostHashtag.mk 52 100]
  /\ post_hashtags (db twice) = post_hashtags (db once)
  /\ console twice = [].
Proof. vm_compute. repeat split. Qed.

(** Once a statement that links posts to hashtags has gone through,
    sending the same rows again is accepted without error and changes
    nothing, and the table holds exactly one row for each of the pairs. *)
Lemma upsert_post_hashtags_idempotent (rows : list PostHashtag.t) (d : Db) :
  let first := exec (UpsertPostHashtags rows) d in
  let second := exec (UpsertPostHashtags rows) (snd first) in
  NoDup (post_hashtags d) ->
  error (fst first) = None ->
  second = (Store.done, snd first)
  /\ forall r, In r rows ->
       List.length (filter (same_post_hashtag r) (post_hashtags (snd first))) = 1.
Proof.
  cbn [exec]. unfold upsert_post_hashtags.
  destruct (upsert_post_hashtags_rows d rows (post_hashtags d)) as [e|table] eqn:E;
    cbn [fst snd error failed Store.done post_hashtags with_post_hashtags];
    intros Hpk Hok; [discriminate|].
  destruct (upsert_rows_grows _ _ _ E) as [_ Hrows].
  split.
  - now rewrite (upsert_rows_present _ rows table Hrows).
  - intros r Hr. apply one_row_per_pair; [|now apply Hrows].
    eapply upsert_rows_NoDup; eassumption.
Qed.

(** ** Recording mentions *)

Lemma disturb_calm (d : Db) : disturb calm d = d.
Proof.
  unfold disturb. cbn. rewrite Z.add_0_r. now destruct d.
Qed.

Lemma disturb_alone (ev : Event) (d : Db) :
  concurrent ev = [] ->
  disturb ev d = with_now (now d + Z.of_nat (elapsed ev))%Z d.
Proof. unfold disturb. now intros ->. Qed.

Lemma mention_rows_pairs (rows : list (uuid * uuid)) :
  forall (id : uuid) (t : timestamptz),
  map mention_pair (mention_rows id t rows) = rows.
Proof.
  induction rows as [|[post_id user_id] rows IH]; intros id t; simpl;
    [reflexivity|]. now rewrite IH.
Qed.

Lemma profile_exists_In (d : Db) (p : Profile.t) :
  In p (profiles d) -> profile_exists d (Profile.id p) = true.
Proof.
  intros H. apply existsb_exists. exists p. split; [exact H|apply Nat.eqb_refl].
Qed.

Lemma insert_mentions_accepted (d : Db) (postId : uuid) (ps : list Profile.t) :
  post_exists d postId = true ->
  (forall p, In p ps -> In p (profiles d)) ->
  insert_mentions (map (fun p => (postId, Profile.id p)) ps) d
  = (Store.done,
     with_uuid_next (uuid_next d + List.length (map (fun p => (postId, Profile.id p)) ps))
       (with_mentions
          (mentions d
           ++ mention_rows (uuid_next d) (now d)
                (map (fun p => (postId, Profile.id p)) ps))
          d)).
Proof.
  intros Hpost Hps. unfold insert_mentions.
  replace (forallb (fun r => post_exists d (fst r))
             (map (fun p => (postId, Profile.id p)) ps)) with true.
  2:{ symmetry. apply forallb_forall. intros r Hr.
      apply in_map_iff in Hr as (p & <- & _). exact Hpost. }
  replace (forallb (fun r => profile_exists d (snd r))
             (map (fun p => (postId, Profile.id p)) ps)) with true.
  2:{ symmetry. apply forallb_forall. intros r Hr.
      apply in_map_iff in Hr as (p & <- & Hp). now apply profile_exists_In, Hps. }
  reflexivity.
Qed.

Lemma resolvedProfiles_In (content : string) (d : Db) (p : Profile.t) :
  In p (resolvedProfiles content d) ->
  In p (profiles d) /\ In (Profile.handle p) (parseMentions content).
Proof.
  unfold resolvedProfiles. rewrite filter_In, existsb_exists.
  intros (Hp & h & Hh & E). apply String.eqb_eq in E. subst h.
  split; [exact Hp|now apply arrayFromSet_In].
Qed.

(** One call on a store that nobody else touches. *)
Lemma run_insertMentions_quiet (postId : uuid) (content : string) (m : Machine) :
  events m = [] ->
  post_exists (db m) postId = true ->
  let m' := snd (run (insertMentions postId content) m) in
  events m' = []
  /\ profiles (db m') = profiles (db m)
  /\ posts (db m') = posts (db m)
  /\ map mention_pair (mentions (db m'))
     = map mention_pair (mentions (db m)) ++ mentionRows postId content (db m).
Proof.
  intros Hev Hpost. unfold insertMentions, mentionRows, resolvedProfiles.
  destruct (List.length (arrayFromSet (parseMentions content)) =? 0) eqn:El.
  - apply Nat.eqb_eq, length_zero_iff_nil in El. rewrite El.
    cbn. rewrite filter_false. cbn. now rewrite app_nil_r.
  - cbn [run].
    rewrite perform_Query_answered by (rewrite Hev; reflexivity).
    rewrite Hev. cbn [hd tl]. rewrite disturb_calm.
    cbn [exec select_profiles_by_handle fst snd error data ok].
    pose proof (resolvedProfiles_In content (db m)) as Hres.
    unfold resolvedProfiles in Hres.
    destruct (filter _ (profiles (db m))) as [|p ps] eqn:Er.
    + cbn. now rewrite app_nil_r.
    + cbn [map]. cbn [run].
      rewrite perform_Query_answered by reflexivity.
      cbn [db events hd tl console schedules]. rewrite disturb_calm.
      change ((postId, fst (Profile.id p, Profile.handle p))
              :: map (fun q => (postId, fst q))
                   (map (fun q => (Profile.id q, Profile.handle q)) ps))
        with (map (fun q => (postId, fst q))
                (map (fun q => (Profile.id q, Profile.handle q)) (p :: ps))).
      rewrite map_map. cbn [fst].
      cbn [exec]. rewrite insert_mentions_accepted;
        [|exact Hpost|intros q Hq; now apply Hres].
      cbn [fst snd error data Store.done run db events tl profiles posts mentions
           with_uuid_next with_mentions].
      rewrite map_app, mention_rows_pairs. auto.
Qed.

(** C9: on a store that nobody else touches, calling [insertMentions]
    twice with the same post and the same text appends the rows of the
    resolved profiles twice: the second call inserts a second row for
    every resolved handle. *)
Theorem insertMentions_twice_inserts_twice
    (postId : uuid) (content : string) (d : Db) :
  let once := snd (run (insertMentions postId content) (idle d)) in
  let twice := snd (run (insertMentions postId content) once) in
  post_exists d postId = true ->
  map mention_pair (mentions (db once))
  = map mention_pair (mentions d) ++ mentionRows postId content d
  /\ map mention_pair (mentions (db twice))
     = map mention_pair (mentions d)
       ++ mentionRows postId content d ++ mentionRows postId content d.
Proof.
  intros once twice Hpost.
  destruct (@run_insertMentions_quiet postId content (idle d) eq_refl Hpost)
    as (Hev & Hprofiles & Hposts & Honce).
  fold once in Hev, Hprofiles, Hposts, Honce. cbn [db idle] in *.
  split; [exact Honce|].
  assert (Hpost' : post_exists (db once) postId = true)
    by (unfold post_exists; now rewrite Hposts).
  destruct (@run_insertMentions_quiet postId content once Hev Hpost')
    as (_ & _ & _ & Htwice).
  fold twice in Htwice. rewrite Htwice, Honce, <- app_assoc.
  unfold mentionRows, resolvedProfiles. now rewrite Hprofiles.
Qed.

Example insertMentions_twice_example :
  let once := snd (run (insertMentions 52 "hi @alice_dev @Bob_Designer @nobody")
                     (idle Scenario.town)) in
  let twice := snd (run (insertMentions 52 "hi @alice_dev @Bob_Designer @nobody") once) in
  map mention_pair (mentions (db once)) = [(52, 1)]
  /\ map mention_pair (mentions (db twice)) = [(52, 1); (52, 1)].
Proof. vm_compute. split; reflexivity. Qed.

Lemma insertMentions_twice_inserts_twice_witness :
  map mention_pair
    (mentions (db (snd (run (insertMentions 52 "hi @alice_dev") (idle Scenario.town)))))
  = map mention_pair (mentions Scenario.town)
    ++ mentionRows 52 "hi @alice_dev" Scenario.town
  /\ map mention_pair
       (mentions
          (db (snd (run (insertMentions 52 "hi @alice_dev")
                      (snd (run (insertMentions 52 "hi @alice_dev")
                              (idle Scenario.town)))))))
     = map mention_pair (mentions Scenario.town)
       ++ mentionRows 52 "hi @alice_dev" Scenario.town
       ++ mentionRows 52 "hi @alice_dev" Scenario.town.
Proof.
  exact (@insertMentions_twice_inserts_twice 52 "hi @alice_dev" Scenario.town eq_refl).
Defined.

Lemma alone_hd (m : Machine) : alone m -> concurrent (hd calm (events m)) = [].
Proof.
  unfold alone. destruct (events m); [reflexivity|]. now inversion 1.
Qed.

Lemma alone_after_Query {X} (q : Request X) (m : Machine) :
  alone m -> alone (snd (perform (Query q) m)).
Proof.
  unfold alone. rewrite events_after_Query.
  destruct (events m); [auto|]. now inversion 1.
Qed.

Lemma tables_after_Query {X} (q : Request X) (m : Machine) :
  alone m ->
  let d := with_now (now (db m) + Z.of_nat (elapsed (hd calm (events m))))%Z (db m) in
  db (snd (perform (Query q) m))
  = match fault (hd calm (events m)) with
    | Some _ => d
    | None => snd (exec q d)
    end.
Proof.
  intros H. apply alone_hd in H. cbn [perform].
  rewrite disturb_alone by exact H.
  now destruct (fault (hd calm (events m))).
Qed.

Lemma db_after_consoleError (line : string) (m : Machine) :
  db (snd (run (consoleError line) m)) = db m.
Proof. reflexivity. Qed.

(** Every row that [insertMentions] adds is the row of a profile that the
    lookup resolved. *)
Lemma insertMentions_records_resolved (postId : uuid) (content : string) (m : Machine) :
  alone m ->
  exists new,
    mentions (db (snd (run (insertMentions postId content) m)))
    = mentions (db m) ++ new
    /\ forall r, In r new ->
         exists q, In q (resolvedProfiles content (db m))
                   /\ Mention.user_id r = Profile.id q.
Proof.
  intros Halone.
  assert (Hnone : forall d : Db, exists new : list Mention.t,
             mentions d = mentions d ++ new
             /\ forall r, In r new ->
                  exists q, In q (resolvedProfiles content (db m))
                            /\ Mention.user_id r = Profile.id q).
  { intros d. exists []. rewrite app_nil_r. split; [reflexivity|intros r []]. }
  unfold insertMentions.
  destruct (List.length (arrayFromSet (parseMentions content)) =? 0);
    [apply Hnone|].
  cbn [run].
  set (q1 := SelectProfilesByHandle (arrayFromSet (parseMentions content))).
  pose proof (tables_after_Query q1 Halone) as Hdb1.
  pose proof (alone_after_Query q1 Halone) as Halone1.
  set (d0 := with_now (now (db m) + Z.of_nat (elapsed (hd calm (events m))))%Z (db m)) in *.
  assert (Hfst : fst (perform (Query q1) m)
                 = match fault (hd calm (events m)) with
                   | Some e => failed e
                   | None => fst (exec q1 d0)
                   end).
  { cbn [perform]. rewrite disturb_alone by exact (alone_hd Halone). fold d0.
    now destruct (fault (hd calm (events m))). }
  destruct (fault (hd calm (events m))) as [e|].
  - rewrite Hfst. cbn [error failed]. rewrite db_after_consoleError.
    rewrite Hdb1. apply (Hnone (db m)).
  - rewrite Hfst. cbn [q1 exec select_profiles_by_handle fst snd error data ok] in *.
    fold (resolvedProfiles content d0).
    change (resolvedProfiles content d0) with (resolvedProfiles content (db m)).
    destruct (resolvedProfiles content (db m)) as [|p ps] eqn:Er.
    + cbn [map run snd]. rewrite Hdb1. apply (Hnone (db m)).
    + cbn [map]. cbn [run].
      set (rows := ((postId, fst (Profile.id p, Profile.handle p))
                    :: map (fun q => (postId, fst q))
                         (map (fun q => (Profile.id q, Profile.handle q)) ps))).
      assert (Hrows : forall r, In r rows ->
                 exists q, In q (p :: ps) /\ snd r = Profile.id q).
      { intros r [<-|Hr]; [exists p; split; [now left|reflexivity]|].
        rewrite map_map in Hr. apply in_map_iff in Hr as (q & <- & Hq).
        exists q. split; [now right|reflexivity]. }
      set (m1 := snd (perform (Query q1) m)) in *.
      pose proof (tables_after_Query (InsertMentions rows) Halone1) as Hdb2.
      assert (Hfst2 : fst (perform (Query (InsertMentions rows)) m1)
                 = match fault (hd calm (events m1)) with
                   | Some e => failed e
                   | None =>
                       fst (exec (InsertMentions rows)
                              (with_now (now (db m1)
                                         + Z.of_nat (elapsed (hd calm (events m1))))%Z
                                 (db m1)))
                   end).
      { cbn [perform]. rewrite disturb_alone by exact (alone_hd Halone1).
        now destruct (fault (hd calm (events m1))). }
      rewrite Hfst2.
      destruct (fault (hd calm (events m1))) as [e|].
      * cbn [error failed]. rewrite db_after_consoleError.
        rewrite Hdb2, Hdb1. apply (Hnone (db m)).
      * cbn [exec] in *. unfold insert_mentions in *.
        destruct (negb (forallb _ rows)).
        { cbn [error failed fst]. rewrite db_after_consoleError.
          rewrite Hdb2. cbn [snd with_now mentions]. rewrite Hdb1.
          apply (Hnone (db m)). }
        destruct (negb (forallb _ rows)).
        { cbn [error failed fst]. rewrite db_after_consoleError.
          rewrite Hdb2. cbn [snd with_now mentions]. rewrite Hdb1.
          apply (Hnone (db m)). }
        cbn [error Store.done run fst snd].
        rewrite Hdb2. cbn [snd with_now with_uuid_next with_mentions mentions].
        rewrite Hdb1. cbn [snd d0 with_now mentions].
        eexists. split; [reflexivity|].
        intros r Hr.
        assert (Hpair : In (mention_pair r) rows).
        { erewrite <- mention_rows_pairs. apply in_map, Hr. }
        destruct (Hrows _ Hpair) as (q & Hq & E).
        exists q. split; [exact Hq|exact E].
Qed.

Lemma NoDup_map_inj {A B} (f : A -> B) (l : list A) (x y : A) :
  NoDup (map f l) -> In x l -> In y l -> f x = f y -> x = y.
Proof.
  induction l as [|a l IH]; simpl; [intros _ []|].
  intros Hnd Hx Hy E. apply NoDup_cons_iff in Hnd as [Ha Hnd].
  destruct Hx as [->|Hx], Hy as [->|Hy]; auto.
  - exfalso. apply Ha. rewrite E. now apply in_map.
  - exfalso. apply Ha. rewrite <- E. now apply in_map.
Qed.

Example uppercase_handle_example :
  map mention_pair
    (mentions
       (db (snd (run (insertMentions 52 "hi @Bob_Designer @bob_designer @alice_dev")
                   (idle Scenario.town)))))
  = [(52, 1)].
Proof. vm_compute. reflexivity. Qed.

(** C10: a profile whose stored handle has an upper-case letter is never
    mentioned by [insertMentions]: while no other client writes, none of
    the rows that the call adds to the mentions table refers to it. *)
Theorem uppercase_handle_never_mentioned
    (postId : uuid) (content : string) (m : Machine) (p : Profile.t) :
  alone m ->
  NoDup (map Profile.id (profiles (db m))) ->
  In p (profiles (db m)) ->
  hasUpper (Profile.handle p) = true ->
  exists new,
    mentions (db (snd (run (insertMentions postId content) m)))
    = mentions (db m) ++ new
    /\ Forall (fun r => Mention.user_id r <> Profile.id p) new.
Proof.
  intros Halone Hpk Hp Hupper.
  destruct (insertMentions_records_resolved postId content Halone)
    as (new & Hnew & Hres).
  exists new. split; [exact Hnew|].
  apply Forall_forall. intros r Hr Hid.
  destruct (Hres r Hr) as (q & Hq & E).
  apply resolvedProfiles_In in Hq as [Hq Hhandle].
  assert (q = p) as -> by (eapply NoDup_map_inj; eauto; congruence).
  pose proof (parseMentions_normalized content) as Hnorm.
  rewrite Forall_forall in Hnorm.
  apply Hnorm, normalized_no_upper in Hhandle. congruence.
Qed.

Lemma uppercase_handle_never_mentioned_witness :
  exists new,
    mentions
      (db (snd (run (insertMentions 52 "hi @Bob_Designer @alice_dev")
                  (idle Scenario.town))))
    = mentions (db (idle Scenario.town)) ++ new
    /\ Forall (fun r => Mention.user_id r <> Profile.id Scenario.bob) new.
Proof.
  refine (@uppercase_handle_never_mentioned 52 "hi @Bob_Designer @alice_dev"
            (idle Scenario.town) Scenario.bob _ _ _ eq_refl).
  - constructor.
  - simpl. repeat constructor; simpl; intuition discriminate.
  - simpl. right. left. reflexivity.
Defined.

(** ** The text annotator *)

(** Before the collapse the result of [parseHashtags] holds a tag once for
    each time the text has it, as on the example of the specification. *)
Lemma parseHashtags_result_repeats :
  ~ NoDup (parseHashtags "Hot take: #typescript is great. #TypeScript rules").
Proof.
  rewrite parseHashtags_spec_example. intros H.
  apply NoDup_cons_iff in H as [H _]. apply H. now left.
Qed.

Lemma arrayFromSet_collapse (xs : list string) : collapse_of xs (arrayFromSet xs).
Proof.
  split; [apply arrayFromSet_NoDup|apply arrayFromSet_In].
Qed.

Lemma normalized_map_fixed (l : list string) :
  Forall normalized l -> map toLowerCase l = l.
Proof.
  induction 1 as [|t l Ht _ IH]; simpl; [reflexivity|].
  now rewrite (normalized_fixed Ht), IH.
Qed.

(** C3: the three parsers are functions of the text alone, so running one
    again on the same text gives the same result.  Their results follow
    the order of the text (the results for a text in two parts separated
    by a space are those of the first part followed by those of the
    second) and, for hashtags and mentions, are normalized: normalizing
    again changes nothing.  After normalization the results are collapsed
    through a Set, as every caller does: the collapsed array is
    duplicate-free, holds the same values, and is left as it is by a
    second pass through a Set. *)
Theorem parsers_normalized_and_collapsed (s : string) :
  (Forall normalized (parseHashtags s)
   /\ Forall normalized (parseMentions s)
   /\ map toLowerCase (parseHashtags s) = parseHashtags s
   /\ map toLowerCase (parseMentions s) = parseMentions s)
  /\ (forall s', parseHashtags (s ++ String " " s')%string
                 = parseHashtags s ++ parseHashtags s')
  /\ (forall s', parseMentions (s ++ String " " s')%string
                 = parseMentions s ++ parseMentions s')
  /\ (forall s', parseUrls (s ++ String " " s')%string
                 = parseUrls s ++ parseUrls s')
  /\ (collapse_of (parseHashtags s) (arrayFromSet (parseHashtags s))
      /\ arrayFromSet (arrayFromSet (parseHashtags s)) = arrayFromSet (parseHashtags s))
  /\ (collapse_of (parseMentions s) (arrayFromSet (parseMentions s))
      /\ arrayFromSet (arrayFromSet (parseMentions s)) = arrayFromSet (parseMentions s))
  /\ (collapse_of (parseUrls s) (arrayFromSet (parseUrls s))
      /\ arrayFromSet (arrayFromSet (parseUrls s)) = arrayFromSet (parseUrls s)).
Proof.
  pose proof (parseHashtags_normalized s) as Hh.
  pose proof (parseMentions_normalized s) as Hm.
  split; [auto 6 using normalized_map_fixed|].
  split; [apply parseHashtags_separated|].
  split; [apply parseMentions_separated|].
  split; [apply parseUrls_separated|].
  split; [split; [apply arrayFromSet_collapse|apply arrayFromSet_idem]|].
  split; [split; [apply arrayFromSet_collapse|apply arrayFromSet_idem]|].
  split; [apply arrayFromSet_collapse|apply arrayFromSet_idem].
Qed.

(* ===================================================================== *)
(** * Further properties of the data-access layer                         *)
(* ===================================================================== *)

(** ** The follow relation *)

Lemma existsb_false_filter {A} (f : A -> bool) (l : list A) :
  existsb f l = false -> filter (fun x => negb (f x)) l = l.
Proof.
  intros H. apply filter_all. intros x Hx. apply negb_true_iff.
  destruct (f x) eqn:E; [|reflexivity].
  rewrite <- H. symmetry. apply existsb_exists. now exists x.
Qed.

(** [followUser a b], once its request reaches the store, succeeds
    exactly when [a] and [b] differ, [a] does not follow [b] yet and both
    have a profile; it then adds the one row (a, b).  Otherwise it is
    rejected and the store is as the request found it: a self-follow with
    the check violation [no_self_follow], an existing pair with the unique
    violation [unique_follow]. *)
Theorem followUser_outcome (a b : uuid) (m : Machine) :
  let d := disturb (hd calm (events m)) (db m) in
  let after := snd (run (followUser a b) m) in
  fault (hd calm (events m)) = None ->
  (a <> b /\ existsb (is_follow a b) (follows d) = false
   /\ profile_exists d a = true /\ profile_exists d b = true ->
   exists row,
     fst (run (followUser a b) m) = Fulfilled (Some row)
     /\ Follow.follower_id row = a /\ Follow.following_id row = b
     /\ follows (db after) = follows d ++ [row])
  /\ (a = b ->
      fst (run (followUser a b) m) = Rejected (CheckViolation "no_self_follow")
      /\ db after = d)
  /\ (a <> b -> existsb (is_follow a b) (follows d) = true ->
      fst (run (followUser a b) m) = Rejected (UniqueViolation "unique_follow")
      /\ db after = d)
  /\ (profile_exists d a = false \/ profile_exists d b = false ->
      (exists e, fst (run (followUser a b) m) = Rejected e) /\ db after = d).
Proof.
  intros d after Hfault. subst after.
  unfold followUser. cbn [run].
  rewrite perform_Query_answered by exact Hfault. fold d.
  cbn [fst snd exec]. unfold insert_follow.
  split; [|split; [|split]].
  - intros (Hab & Hnew & Ha & Hb).
    apply Nat.eqb_neq in Hab. rewrite Hab, Hnew, Ha, Hb. cbn.
    eexists. repeat split.
  - intros ->. now rewrite Nat.eqb_refl.
  - intros Hab Hold. apply Nat.eqb_neq in Hab. now rewrite Hab, Hold.
  - intros Hmissing.
    destruct (a =? b); [cbn; eauto|].
    destruct (existsb (is_follow a b) (follows d)); [cbn; eauto|].
    destruct (profile_exists d a); [|cbn; eauto].
    destruct (profile_exists d b); [|cbn; eauto].
    destruct Hmissing; discriminate.
Qed.

(** [follows] after the environment's event, when no other client acts. *)
Lemma follows_disturb_alone (ev : Event) (d : Db) :
  concurrent ev = [] -> follows (disturb ev d) = follows d.
Proof. intros H. now rewrite disturb_alone. Qed.

Lemma is_follow_pair (a b : uuid) (f : Follow.t) :
  is_follow a b f = true <-> Follow.follower_id f = a /\ Follow.following_id f = b.
Proof.
  unfold is_follow. now rewrite andb_true_iff, !Nat.eqb_eq.
Qed.

(** What a successful [followUser] did. *)
Lemma followUser_fulfilled (a b : uuid) (m : Machine) (row : option Follow.t) :
  fst (run (followUser a b) m) = Fulfilled row ->
  let d := disturb (hd calm (events m)) (db m) in
  exists r,
    row = Some r
    /\ Follow.follower_id r = a /\ Follow.following_id r = b
    /\ a <> b
    /\ existsb (is_follow a b) (follows d) = false
    /\ profile_exists d a = true /\ profile_exists d b = true
    /\ snd (run (followUser a b) m)
       = mkMachine
           (with_uuid_next (S (uuid_next d)) (with_follows (follows d ++ [r]) d))
           (console m) (tl (events m)) (schedules m).
Proof.
  unfold followUser. cbn [run].
  destruct (fault (hd calm (events m))) as [e|] eqn:F.
  - rewrite perform_Query_fault with (e := e) by exact F. discriminate.
  - rewrite perform_Query_answered by exact F.
    cbn [fst snd exec]. unfold insert_follow.
    set (d := disturb (hd calm (events m)) (db m)).
    destruct (a =? b) eqn:Eab; [discriminate|].
    destruct (existsb (is_follow a b) (follows d)) eqn:Eold; [discriminate|].
    destruct (profile_exists d a) eqn:Ea; [|discriminate].
    destruct (profile_exists d b) eqn:Eb; [|discriminate].
    cbn. intros [= <-]. eexists. repeat split.
    now apply Nat.eqb_neq.
Qed.

(** Following and then unfollowing gives back the follow relation as it
    was: [unfollowUser] removes exactly the row that [followUser] added. *)
Lemma follow_then_unfollow_restores
    (a b : uuid) (m : Machine) (row : option Follow.t) :
  let d := disturb (hd calm (events m)) (db m) in
  let followed := snd (run (followUser a b) m) in
  let unfollowed := snd (run (unfollowUser a b) followed) in
  fst (run (followUser a b) m) = Fulfilled row ->
  concurrent (hd calm (events followed)) = [] ->
  fault (hd calm (events followed)) = None ->
  fst (run (unfollowUser a b) followed) = Fulfilled tt
  /\ follows (db unfollowed) = follows d.
Proof.
  intros d followed unfollowed Hrow Halone Hfault.
  destruct (followUser_fulfilled a b m Hrow)
    as (r & _ & Hra & Hrb & _ & Hnew & _ & _ & Hm).
  fold d in Hnew, Hm. subst unfollowed. fold followed in Hm.
  unfold unfollowUser. cbn [run].
  rewrite perform_Query_answered by exact Hfault.
  cbn [fst snd exec delete_follow error Store.done run db follows with_follows].
  split; [reflexivity|].
  rewrite follows_disturb_alone by exact Halone.
  rewrite Hm. cbn [db follows with_uuid_next with_follows].
  rewrite filter_app, existsb_false_filter by exact Hnew.
  cbn [filter].
  replace (is_follow a b r) with true
    by (symmetry; now apply is_follow_pair).
  cbn. now rewrite app_nil_r.
Qed.

(** ** Creating and deleting posts *)

(** A post whose text is empty or longer than 280 characters, or whose
    author has no profile, is refused by the store: [createPost] is
    rejected with the error of the insert (the violation of
    [content_length] for a bad text), sends no other request and leaves
    the store as it found it. *)
Theorem createPost_invalid_rejected
    (userId : uuid) (content : string) (imageUrl : option string) (m : Machine) :
  let d := disturb (hd calm (events m)) (db m) in
  fault (hd calm (events m)) = None ->
  content_length content = false \/ profile_exists d userId = false ->
  exists e,
    run (createPost userId content imageUrl) m
    = (Rejected e, mkMachine d (console m) (tl (events m)) (schedules m))
    /\ (content_length content = false -> e = CheckViolation "content_length").
Proof.
  intros d Hfault Hbad.
  unfold createPost. cbn [run].
  rewrite perform_Query_answered by exact Hfault. fold d.
  cbn [fst snd exec]. unfold insert_post.
  destruct (content_length content) eqn:Ec; cbn [negb].
  - destruct Hbad as [Hbad|Hbad]; [discriminate|]. rewrite Hbad. cbn.
    eexists. split; [reflexivity|discriminate].
  - cbn. eexists. split; reflexivity.
Qed.

Lemma In_filter_other {A} (key : A -> nat) (i : nat) (l : list A) (x : A) :
  In x (filter (fun y => negb (key y =? i)) l) <-> In x l /\ key x <> i.
Proof.
  now rewrite filter_In, negb_true_iff, Nat.eqb_neq.
Qed.

Lemma deletable_iff (auth_uid : option uuid) (id : uuid) (p : Post.t) :
  deletable auth_uid id p = true
  <-> Post.id p = id /\ Post.is_deleted p = Some false
      /\ auth_uid = Some (Post.user_id p).
Proof.
  unfold deletable, posts_select_policy, posts_delete_policy.
  rewrite !andb_true_iff, Nat.eqb_eq.
  destruct (Post.is_deleted p) as [[|]|], auth_uid as [u|]; cbn;
    rewrite ?Nat.eqb_eq; intuition (try discriminate; try congruence).
Qed.

(** [deletePost] sent with the session of the author of a post that is not
    soft-deleted removes the post and, with it, every like, hashtag link,
    mention and link-preview link of the post; the other rows of these
    tables and the other tables stay.  Sent with another session, or with
    none, or for a post that is soft-deleted or not there, it changes
    nothing and is no error: the policies hide the row from the
    statement. *)
Theorem deletePost_cascades (auth_uid : option uuid) (postId : uuid) (m : Machine) :
  let d := disturb (hd calm (events m)) (db m) in
  let after := db (snd (run (deletePost auth_uid postId) m)) in
  fault (hd calm (events m)) = None ->
  fst (run (deletePost auth_uid postId) m) = Fulfilled tt
  /\ (forall p, In p (posts after)
                <-> In p (posts d)
                    /\ ~ (Post.id p = postId /\ Post.is_deleted p = Some false
                          /\ auth_uid = Some (Post.user_id p)))
  /\ (forall p, In p (posts d) -> Post.id p = postId ->
      Post.is_deleted p = Some false -> auth_uid = Some (Post.user_id p) ->
      (NoDup (map Post.id (posts d)) -> post_exists after postId = false)
      /\ (forall l, In l (likes after)
                    <-> In l (likes d) /\ Like.post_id l <> postId)
      /\ (forall l, In l (post_hashtags after)
                    <-> In l (post_hashtags d) /\ PostHashtag.post_id l <> postId)
      /\ (forall x, In x (mentions after)
                    <-> In x (mentions d) /\ Mention.post_id x <> postId)
      /\ (forall l, In l (post_links after)
                    <-> In l (post_links d) /\ PostLink.post_id l <> postId))
  /\ ((forall p, In p (posts d) -> Post.id p = postId ->
       auth_uid <> Some (Post.user_id p) \/ Post.is_deleted p <> Some false) ->
      after = d)
  /\ profiles after = profiles d /\ follows after = follows d
  /\ hashtags after = hashtags d /\ link_previews after = link_previews d.
Proof.
  intros d after Hfault. subst after.
  unfold deletePost. cbn [run].
  rewrite perform_Query_answered by exact Hfault. fold d.
  cbn [fst snd exec]. unfold delete_post.
  destruct (existsb (deletable auth_uid postId) (posts d)) eqn:Ex;
    cbn [fst snd error Store.done run db posts likes post_hashtags mentions
         post_links profiles follows hashtags link_previews
         with_posts with_likes with_post_hashtags with_mentions with_post_links].
  - split; [reflexivity|].
    split.
    { intros p. rewrite filter_In, negb_true_iff, <- deletable_iff.
      now destruct (deletable auth_uid postId p). }
    split.
    { intros p Hp Hid Hlive Hown. split.
      - intros Hkey. unfold post_exists. cbn [posts with_posts].
        apply not_true_is_false. intros H.
        apply existsb_exists in H as (p' & Hp' & E). apply Nat.eqb_eq in E.
        apply filter_In in Hp' as [Hp' Hkeep].
        assert (p' = p).
        { eapply NoDup_map_inj; [exact Hkey|exact Hp'|exact Hp|congruence]. }
        subst p'. apply negb_true_iff in Hkeep.
        enough (deletable auth_uid postId p = true) by congruence.
        now apply deletable_iff.
      - split; [|split; [|split]]; intros x; apply In_filter_other. }
    split; [|repeat split].
    intros Hnone. apply existsb_exists in Ex as (p & Hp & E).
    apply deletable_iff in E as (Hid & Hlive & Hown).
    destruct (Hnone p Hp Hid); contradiction.
  - split; [reflexivity|].
    split.
    { intros p. split; [|tauto]. intros Hp. split; [exact Hp|].
      intros H. apply deletable_iff in H.
      enough (existsb (deletable auth_uid postId) (posts d) = true) by congruence.
      apply existsb_exists. now exists p. }
    split; [|repeat split].
    intros p Hp Hid Hlive Hown.
    enough (existsb (deletable auth_uid postId) (posts d) = true) by congruence.
    apply existsb_exists. exists p. split; [exact Hp|]. now apply deletable_iff.
Qed.

(** ** Link previews *)

(** An answer to the insert of a link preview that carries no error
    carries the identifier of the new row. *)
Lemma InsertLinkPreview_answer (url : string) (m : Machine) :
  error (fst (perform (Query (InsertLinkPreview url)) m)) = None ->
  exists id, data (fst (perform (Query (InsertLinkPreview url)) m)) = Some id.
Proof.
  cbn [perform]. destruct (fault (hd calm (events m))); [discriminate|].
  cbn [fst exec]. unfold insert_link_preview.
  destruct (existsb _ _); [discriminate|]. cbn. eauto.
Qed.

Lemma previewIdsOf_fulfilled (urls : list string) :
  forall (previewIds : list uuid) (m : Machine),
  exists ids, fst (run (previewIdsOf urls previewIds) m) = Fulfilled ids.
Proof.
  induction urls as [|url urls IH]; intros previewIds m; cbn [previewIdsOf run].
  - eexists. reflexivity.
  - destruct (data (fst (perform (Query (SelectLinkPreview url)) m))); [apply IH|].
    cbn [run].
    set (m1 := snd (perform (Query (SelectLinkPreview url)) m)).
    pose proof (InsertLinkPreview_answer url m1) as Hdata.
    destruct (error (fst (perform (Query (InsertLinkPreview url)) m1))).
    + cbn [bind consoleError run]. apply IH.
    + destruct (Hdata eq_refl) as [id ->]. apply IH.
Qed.

(** [linkUrls] is never rejected: whatever the store and the network
    answer, every error is logged (and the URL skipped) and the promise is
    fulfilled. *)
Theorem linkUrls_never_rejects (postId : uuid) (content : string) (m : Machine) :
  fst (run (linkUrls postId content) m) = Fulfilled tt.
Proof.
  unfold linkUrls.
  destruct (List.length (arrayFromSet (parseUrls content)) =? 0); [reflexivity|].
  rewrite run_bind.
  destruct (previewIdsOf_fulfilled (arrayFromSet (parseUrls content)) [] m)
    as [ids ->].
  destruct (List.length ids =? 0); [reflexivity|].
  cbn [run].
  destruct (error (fst (perform (Query (UpsertPostLinks _)) _))); reflexivity.
Qed.

(** ** More about the feeds *)

(** A page that a feed returned is the answer of the store to its query. *)
Lemma getHomeFeed_page (userId : uuid) (cursor : option timestamptz)
    (limit : option nat) (m : Machine) (page : list FeedRow.t) :
  fst (run (getHomeFeed userId cursor limit) m) = Fulfilled (Some page) ->
  let asked := perform (Query (SelectFollowing userId)) m in
  page = select_posts
           (homeFeedQuery (followingIdsOf userId (fst asked)) cursor (limitOr20 limit))
           (disturb (hd calm (events (snd asked))) (db (snd asked))).
Proof.
  rewrite run_getHomeFeed. cbn zeta.
  set (asked := perform (Query (SelectFollowing userId)) m).
  set (q := homeFeedQuery _ _ _).
  cbn [perform].
  destruct (fault (hd calm (events (snd asked)))); cbn; [discriminate|].
  now intros [= <-].
Qed.

Lemma getUserPosts_page (userId : uuid) (cursor : option timestamptz)
    (limit : option nat) (m : Machine) (page : list FeedRow.t) :
  fst (run (getUserPosts userId cursor limit) m) = Fulfilled (Some page) ->
  page = select_posts (userPostsQuery userId cursor (limitOr20 limit))
           (disturb (hd calm (events m)) (db m)).
Proof.
  rewrite run_getUserPosts. cbn zeta. cbn [perform].
  destruct (fault (hd calm (events m))); cbn; [discriminate|].
  now intros [= <-].
Qed.

Lemma select_posts_sorted (q : PostsQuery) (d : Db) :
  q_order_created_at_desc q = true -> newest_first (select_posts q d).
Proof.
  intros Ho. unfold select_posts. apply map_sorted. cbn.
  now apply select_page_sorted.
Qed.

Lemma select_posts_where (q : PostsQuery) (d : Db) :
  Forall (fun r => In (FeedRow.post r) (posts d)
                   /\ where_posts q (FeedRow.post r) = true)
    (select_posts q d).
Proof.
  unfold select_posts. apply Forall_map. cbn. apply select_page_where.
Qed.

(** The answer of the follows query, read as [getHomeFeed] reads it. *)
Lemma followingIdsOf_In (userId : uuid) (m : Machine) (author : uuid) :
  let asked := perform (Query (SelectFollowing userId)) m in
  let d := disturb (hd calm (events m)) (db m) in
  In author (followingIdsOf userId (fst asked)) ->
  author = userId
  \/ exists f, In f (follows d)
               /\ Follow.follower_id f = userId /\ Follow.following_id f = author.
Proof.
  cbn zeta. unfold followingIdsOf. rewrite in_app_iff. cbn [In perform].
  intros [H|[H|[]]]; [|now left]. right.
  destruct (fault (hd calm (events m))); [destruct H|].
  cbn in H. rewrite map_id in H.
  apply in_map_iff in H as (f & <- & Hf).
  apply filter_In in Hf as [Hf E]. apply Nat.eqb_eq in E.
  exists f. auto.
Qed.

(** No stranger on a page: every post of the home feed is by the viewer or
    by someone the viewer follows (in the store as the follows query found
    it), and every post of a profile feed is by that user. *)
Theorem feeds_show_only_their_authors
    (userId : uuid) (cursor : option timestamptz) (limit : option nat)
    (m m' : Machine) :
  let d := disturb (hd calm (events m)) (db m) in
  fault (hd calm (tl (events m))) = None ->
  fault (hd calm (events m')) = None ->
  (exists page,
      fst (run (getHomeFeed userId cursor limit) m) = Fulfilled (Some page)
      /\ Forall
           (fun r =>
              Post.user_id (FeedRow.post r) = userId
              \/ exists f, In f (follows d)
                           /\ Follow.follower_id f = userId
                           /\ Follow.following_id f = Post.user_id (FeedRow.post r))
           page)
  /\ (exists page,
      fst (run (getUserPosts userId cursor limit) m') = Fulfilled (Some page)
      /\ Forall (fun r => Post.user_id (FeedRow.post r) = userId) page).
Proof.
  intros d Hhome Huser. split.
  - rewrite run_getHomeFeed.
    rewrite (perform_Query_answered (SelectPosts _))
      by (rewrite events_after_Query; exact Hhome).
    cbn [fst snd exec ok error data].
    eexists. split; [reflexivity|].
    eapply Forall_impl; [|apply select_posts_where].
    intros r [_ Hw]. apply (followingIdsOf_In userId m).
    unfold where_posts in Hw.
    destruct (homeFeedQuery_fields
                (followingIdsOf userId (fst (perform (Query (SelectFollowing userId)) m)))
                cursor (limitOr20 limit)) as (Hin & _).
    rewrite Hin in Hw. rewrite !andb_true_iff in Hw.
    destruct Hw as [[[Hw _] _] _].
    apply existsb_exists in Hw as (x & Hx & E).
    apply Nat.eqb_eq in E. now rewrite E.
  - rewrite run_getUserPosts.
    rewrite perform_Query_answered by exact Huser.
    cbn [fst snd exec ok error data].
    eexists. split; [reflexivity|].
    eapply Forall_impl; [|apply select_posts_where].
    intros r [_ Hw]. unfold where_posts in Hw.
    destruct (userPostsQuery_fields userId cursor (limitOr20 limit))
      as (_ & Heq & _).
    rewrite Heq in Hw. rewrite !andb_true_iff in Hw.
    destruct Hw as [[[_ Hw] _] _]. now apply Nat.eqb_eq.
Qed.

(** In a page ordered newest first, no row is older than the last. *)
Lemma newest_first_last (front : list FeedRow.t) (lastRow r : FeedRow.t) :
  newest_first (front ++ [lastRow]) -> In r (front ++ [lastRow]) ->
  desc (createdAt r) (createdAt lastRow) = true.
Proof.
  unfold newest_first.
  induction front as [|x front IH]; cbn [app]; intros Hs Hr.
  - destruct Hr as [<-|[]].
    destruct (createdAt lastRow); cbn; [apply Z.leb_refl|reflexivity].
  - apply StronglySorted_inv in Hs as [Hs Hx].
    destruct Hr as [<-|Hr]; [|now apply IH].
    rewrite Forall_forall in Hx. apply Hx, in_or_app. right. now left.
Qed.

Lemma author_post_matches (ids : list uuid) (cursor : option timestamptz)
    (n : nat) (p : Post.t) :
  In (Post.user_id p) ids ->
  Post.is_deleted p = Some false ->
  before_cursor cursor p ->
  where_posts (homeFeedQuery ids cursor n) p = true.
Proof.
  intros Hu Hd Hc.
  destruct (homeFeedQuery_fields ids cursor n) as (Hin & Heq & Hdel & Hlt & _).
  unfold where_posts. rewrite Hin, Heq, Hdel, Hlt, Hd.
  rewrite !andb_true_iff. repeat split.
  - apply existsb_exists. exists (Post.user_id p).
    split; [exact Hu|apply Nat.eqb_refl].
  - destruct cursor as [c|]; [|reflexivity].
    destruct Hc as (t & -> & Ht). now apply Z.ltb_lt.
Qed.

Lemma posts_disturb_alone (ev : Event) (d : Db) :
  concurrent ev = [] -> posts (disturb ev d) = posts d.
Proof. intros H. now rewrite disturb_alone. Qed.

(** After [a] has followed [b], the posts of [b] that are not deleted (and
    older than the cursor, when there is one) are on the home feed of [a],
    when no one else writes in between and the limit covers the posts
    table. *)
Theorem followed_posts_reach_home_feed
    (a b : uuid) (m : Machine) (row : option Follow.t)
    (cursor : option timestamptz) (limit : option nat) (p : Post.t) :
  let followed := snd (run (followUser a b) m) in
  fst (run (followUser a b) m) = Fulfilled row ->
  alone followed ->
  fault (hd calm (events followed)) = None ->
  fault (hd calm (tl (events followed))) = None ->
  In p (posts (db followed)) ->
  Post.user_id p = b ->
  Post.is_deleted p = Some false ->
  before_cursor cursor p ->
  List.length (posts (db followed)) <= limitOr20 limit ->
  exists page,
    fst (run (getHomeFeed a cursor limit) followed) = Fulfilled (Some page)
    /\ In p (map FeedRow.post page).
Proof.
  intros followed Hrow Halone Hf1 Hf2 Hp Hb Hdel Hcur Hlim.
  destruct (followUser_fulfilled a b m Hrow)
    as (r & _ & Hra & Hrb & _ & _ & _ & _ & Hm).
  fold followed in Hm.
  pose proof (alone_hd Halone) as Hq1.
  pose proof (alone_hd (alone_after_Query (SelectFollowing a) Halone)) as Hq2.
  rewrite run_getHomeFeed.
  set (asked := perform (Query (SelectFollowing a)) followed) in *.
  assert (Hevents : events (snd asked) = tl (events followed))
    by apply events_after_Query.
  assert (Hdb : posts (db (snd asked)) = posts (db followed)).
  { subst asked. rewrite perform_Query_answered by exact Hf1.
    cbn [snd db exec select_following]. now apply posts_disturb_alone. }
  assert (Hids : In b (followingIdsOf a (fst asked))).
  { subst asked. rewrite perform_Query_answered by exact Hf1.
    cbn [fst exec select_following]. unfold followingIdsOf. cbn [data ok].
    rewrite map_id. apply in_or_app. left.
    rewrite follows_disturb_alone by exact Hq1.
    rewrite Hm. cbn [db follows with_uuid_next with_follows].
    rewrite <- Hrb. apply in_map, filter_In. split.
    - apply in_or_app. right. now left.
    - now apply Nat.eqb_eq. }
  rewrite (perform_Query_answered (SelectPosts _))
    by (rewrite Hevents; exact Hf2).
  cbn [fst snd exec ok error data].
  eexists. split; [reflexivity|].
  rewrite select_posts_post.
  assert (Hposts : posts (disturb (hd calm (events (snd asked))) (db (snd asked)))
                   = posts (db followed))
    by (rewrite posts_disturb_alone by exact Hq2; exact Hdb).
  apply select_page_complete.
  - destruct (homeFeedQuery_fields (followingIdsOf a (fst asked)) cursor
                (limitOr20 limit)) as (_ & _ & _ & _ & _ & ->).
    now rewrite Hposts.
  - now rewrite Hposts.
  - apply author_post_matches; [now rewrite Hb|exact Hdel|exact Hcur].
Qed.

(** ** Hashtags and URLs *)

Lemma isLowerWord_isWord (c : ascii) : isLowerWord c = true -> isWord c = true.
Proof. each_char c. Qed.

Lemma normalized_tag_format (t : string) : normalized t -> tag_format t = true.
Proof.
  intros [Hne Hall]. unfold tag_format. apply andb_true_iff. split.
  - destruct t; [congruence|reflexivity].
  - clear Hne. induction t as [|c t IH]; [reflexivity|].
    cbn in *. apply andb_true_iff in Hall as [Hc Ht].
    now rewrite (isLowerWord_isWord _ Hc), IH.
Qed.

(** Every tag that [parseHashtags] returns passes the check [tag_format]
    of the hashtags table and is in lower case already: the insert of
    [getOrCreateHashtag] cannot fail on the format of a parsed tag, and
    its [toLowerCase] leaves the tag as it is. *)
Theorem parsed_tags_pass_tag_format (content tag : string) :
  In tag (parseHashtags content) ->
  tag_format tag = true /\ toLowerCase tag = tag.
Proof.
  intros H. pose proof (parseHashtags_normalized content) as Hall.
  rewrite Forall_forall in Hall. specialize (Hall tag H).
  split; [now apply normalized_tag_format|now apply normalized_fixed].
Qed.

Lemma parsed_tags_pass_tag_format_witness :
  tag_format "typescript" = true /\ toLowerCase "typescript" = "typescript"%string.
Proof.
  apply (@parsed_tags_pass_tag_format
           "Hot take: #typescript is great. #TypeScript rules" "typescript").
  simpl. left. reflexivity.
Defined.

Lemma plusRun_shape (prefix rest m : string) :
  plusRun prefix rest = Some m ->
  exists run, m = (prefix ++ run)%string /\ run <> EmptyString
              /\ forallb_string notSpace run = true.
Proof.
  unfold plusRun. pose proof (takeWhile_all notSpace rest) as Hall.
  destruct (takeWhile notSpace rest) as [|c run] eqn:E; [discriminate|].
  intros [= <-]. exists (String c run). repeat split; [discriminate|exact Hall].
Qed.

(** Every URL that [parseUrls] returns is [http://] or [https://] followed
    by at least one character, none of them white space. *)
Theorem parsed_urls_are_http (content url : string) :
  In url (parseUrls content) ->
  exists rest,
    (url = ("http://" ++ rest)%string \/ url = ("https://" ++ rest)%string)
    /\ rest <> EmptyString
    /\ forallb_string notSpace rest = true.
Proof.
  unfold parseUrls. cbv zeta.
  destruct (String_match httpUrl content) as [ms|] eqn:E; [|intros []].
  intros Hin.
  apply (String_match_Forall
           (fun u => exists rest,
              (u = ("http://" ++ rest)%string \/ u = ("https://" ++ rest)%string)
              /\ rest <> EmptyString
              /\ forallb_string notSpace rest = true)) in E.
  - rewrite Forall_forall in E. exact (E url Hin).
  - clear. intros s m. unfold httpUrl.
    destruct (dropPrefix "https://" s) as [rest|].
    + intros H. apply plusRun_shape in H as (run & -> & Hne & Hall). eauto.
    + destruct (dropPrefix "http://" s) as [rest|]; [|discriminate].
      intros H. apply plusRun_shape in H as (run & -> & Hne & Hall). eauto.
Qed.

Lemma parsed_urls_are_http_witness :
  exists rest,
    ("http://x.io" = "http://" ++ rest \/ "http://x.io" = "https://" ++ rest)%string
    /\ rest <> EmptyString
    /\ forallb_string notSpace rest = true.
Proof.
  apply (@parsed_urls_are_http "see https://example.com/a and http://x.io" "http://x.io").
  simpl. right. left. reflexivity.
Defined.

Lemma filter_key_unique {A} (key : A -> string) (k : string) (l : list A) :
  NoDup (map key l) ->
  List.length (filter (fun x => String.eqb (key x) k) l) <= 1.
Proof.
  induction l as [|x l IH]; cbn; [lia|].
  intros Hnd. apply NoDup_cons_iff in Hnd as [Hx Hnd].
  destruct (String.eqb (key x) k) eqn:E; [|now apply IH].
  apply String.eqb_eq in E. cbn.
  rewrite filter_none; [cbn; lia|].
  intros y Hy. apply String.eqb_neq. intros Ey.
  apply Hx. rewrite E, <- Ey. now apply in_map.
Qed.

(** Get-or-create, undisturbed: on a store whose tags are unique,
    [getOrCreateHashtag] returns the row of the lower-cased tag (creating
    it when it is missing) and deletes nothing; asking again, in any
    spelling of the same tag, returns that same row and changes nothing. *)
Theorem getOrCreateHashtag_round_trip (tag tag' : string) (d : Db) :
  let once := run (getOrCreateHashtag tag) (idle d) in
  NoDup (map Hashtag.tag (hashtags d)) ->
  tag_format (toLowerCase tag) = true ->
  toLowerCase tag' = toLowerCase tag ->
  exists h,
    fst once = Fulfilled (Some h)
    /\ Hashtag.tag h = toLowerCase tag
    /\ In h (hashtags (db (snd once)))
    /\ (forall h', In h' (hashtags d) -> In h' (hashtags (db (snd once))))
    /\ run (getOrCreateHashtag tag') (snd once) = (Fulfilled (Some h), snd once).
Proof.
  intros once Hunique Hformat Hsame. subst once.
  unfold getOrCreateHashtag. rewrite Hsame.
  set (t := toLowerCase tag) in *. cbn [run].
  rewrite !perform_Query_answered by reflexivity.
  cbn [idle events hd tl db console schedules]. rewrite !disturb_calm.
  cbn [fst snd exec select_hashtag].
  pose proof (filter_key_unique Hashtag.tag t (hashtags d) Hunique) as Hlen.
  destruct (filter (fun h => String.eqb (Hashtag.tag h) t) (hashtags d))
    as [|h [|h2 rest]] eqn:Ef; [| |cbn in Hlen; lia].
  - (* the tag is new *)
    cbn [maybeSingle data Store.done run].
    rewrite !perform_Query_answered by reflexivity.
    cbn [events hd tl db console schedules]. rewrite !disturb_calm.
    cbn [fst snd exec]. unfold insert_hashtag. rewrite Hformat. cbn [negb].
    replace (existsb (fun h => String.eqb (Hashtag.tag h) t) (hashtags d))
      with false.
    2:{ symmetry. apply not_true_is_false. intros H.
        apply existsb_exists in H as (h & Hh & E).
        assert (Hin : In h (filter (fun h => String.eqb (Hashtag.tag h) t) (hashtags d)))
          by (apply filter_In; auto).
        rewrite Ef in Hin. destruct Hin. }
    cbn [fst snd error data ok run db hashtags with_uuid_next with_hashtags].
    eexists. split; [reflexivity|]. split; [reflexivity|].
    split; [apply in_or_app; right; now left|].
    split; [intros h' Hh'; apply in_or_app; now left|].
    rewrite !perform_Query_answered by reflexivity.
    cbn [events hd tl db console schedules]. rewrite !disturb_calm.
    cbn [fst snd exec select_hashtag hashtags with_uuid_next with_hashtags].
    rewrite filter_app, Ef. cbn [filter app Hashtag.tag].
    rewrite String.eqb_refl. reflexivity.
  - (* the tag is there *)
    cbn [maybeSingle data ok run fst snd db].
    assert (Hh : In h (hashtags d) /\ String.eqb (Hashtag.tag h) t = true).
    { apply (filter_In (fun h => String.eqb (Hashtag.tag h) t)).
      rewrite Ef. now left. }
    destruct Hh as [Hh Et]. apply String.eqb_eq in Et.
    exists h. split; [reflexivity|]. split; [exact Et|].
    split; [exact Hh|]. split; [auto|].
    rewrite !perform_Query_answered by reflexivity.
    cbn [events hd tl db console schedules]. rewrite !disturb_calm.
    cbn [fst snd exec select_hashtag]. rewrite Ef. reflexivity.
Qed.

(** ** Instances *)

Lemma followUser_outcome_witness :
  fst (run (followUser 1 1) (idle Cases.city)) = Rejected (CheckViolation "no_self_follow")
  /\ fst (run (followUser 2 1) (idle Cases.city)) = Rejected (UniqueViolation "unique_follow")
  /\ exists row, fst (run (followUser 1 2) (idle Cases.city)) = Fulfilled (Some row).
Proof.
  split; [|split].
  - apply (proj1 (proj2 (@followUser_outcome 1 1 (idle Cases.city) eq_refl))).
    reflexivity.
  - apply (proj1 (proj2 (proj2 (@followUser_outcome 2 1 (idle Cases.city) eq_refl))));
      [discriminate|reflexivity].
  - destruct (proj1 (@followUser_outcome 1 2 (idle Cases.city) eq_refl))
      as (row & H & _).
    + repeat split; [discriminate|..]; reflexivity.
    + now exists row.
Defined.

Lemma follow_then_unfollow_restores_witness :
  fst (run (unfollowUser 1 2) (snd (run (followUser 1 2) (idle Cases.city))))
  = Fulfilled tt
  /\ follows
       (db (snd (run (unfollowUser 1 2)
                   (snd (run (followUser 1 2) (idle Cases.city))))))
     = follows (disturb (hd calm (events (idle Cases.city))) (db (idle Cases.city))).
Proof.
  exact (@follow_then_unfollow_restores 1 2 (idle Cases.city)
           (Some (Follow.mk 100 1 2 (Some 1000%Z))) eq_refl eq_refl eq_refl).
Defined.

Lemma createPost_invalid_rejected_witness :
  exists e,
    run (createPost 1 "" None) (idle Cases.city)
    = (Rejected e,
       mkMachine (disturb (hd calm (events (idle Cases.city))) (db (idle Cases.city)))
         (console (idle Cases.city)) (tl (events (idle Cases.city)))
         (schedules (idle Cases.city)))
    /\ (content_length "" = false -> e = CheckViolation "content_length").
Proof.
  exact (@createPost_invalid_rejected 1 "" None (idle Cases.city) eq_refl
           (or_introl eq_refl)).
Defined.

Lemma deletePost_cascades_witness :
  fst (run (deletePost (Some 1) 50) (idle Cases.city)) = Fulfilled tt
  /\ post_exists (db (snd (run (deletePost (Some 1) 50) (idle Cases.city)))) 50
     = false.
Proof.
  pose proof (@deletePost_cascades (Some 1) 50 (idle Cases.city) eq_refl) as H.
  cbv zeta in H. destruct H as (H1 & _ & H3 & _). split; [exact H1|].
  refine (proj1 (H3 Cases.first_post (or_introl eq_refl) eq_refl eq_refl eq_refl) _).
  repeat constructor; simpl; intuition discriminate.
Defined.

Lemma feeds_show_only_their_authors_witness :
  exists page,
    fst (run (getUserPosts 1 None None) (idle Cases.city)) = Fulfilled (Some page)
    /\ Forall (fun r => Post.user_id (FeedRow.post r) = 1) page.
Proof.
  exact (proj2 (@feeds_show_only_their_authors 1 None None (idle Cases.city)
                  (idle Cases.city) eq_refl eq_refl)).
Defined.

Lemma followed_posts_reach_home_feed_witness :
  exists page,
    fst (run (getHomeFeed 1 None None) (snd (run (followUser 1 2) (idle Cases.city))))
    = Fulfilled (Some page)
    /\ In Cases.answer (map FeedRow.post page).
Proof.
  refine (@followed_posts_reach_home_feed 1 2 (idle Cases.city)
            (Some (Follow.mk 100 1 2 (Some 1000%Z))) None None Cases.answer
            eq_refl _ eq_refl eq_refl _ eq_refl eq_refl I _).
  - constructor.
  - simpl. right. left. reflexivity.
  - simpl. lia.
Defined.

Lemma getOrCreateHashtag_round_trip_witness :
  exists h,
    fst (run (getOrCreateHashtag "Rust") (idle Cases.city)) = Fulfilled (Some h)
    /\ Hashtag.tag h = toLowerCase "Rust"
    /\ In h (hashtags (db (snd (run (getOrCreateHashtag "Rust") (idle Cases.city)))))
    /\ (forall h', In h' (hashtags Cases.city) ->
                   In h' (hashtags (db (snd (run (getOrCreateHashtag "Rust")
                                               (idle Cases.city))))))
    /\ run (getOrCreateHashtag "RUST")
         (snd (run (getOrCreateHashtag "Rust") (idle Cases.city)))
       = (Fulfilled (Some h), snd (run (getOrCreateHashtag "Rust") (idle Cases.city))).
Proof.
  refine (@getOrCreateHashtag_round_trip "Rust" "RUST" Cases.city _ eq_refl eq_refl).
  simpl. constructor; [intros []|constructor].
Defined.

(** ** What the enrichment can touch *)

Import Footprint.

Section Requests.

Variable P : forall X, Request X -> Prop.

Lemma requests_all_bind {A B} (p : Prog A) (f : A -> Prog B) :
  requests_all P p -> (forall a, requests_all P (f a)) ->
  requests_all P (bind p f).
Proof.
  intros Hp Hf. induction p as [a|e|R eff k IH]; cbn in *; auto.
  destruct Hp as [Hq Hk]. split; [exact Hq|]. intros r. now apply IH.
Qed.

Lemma requests_all_settle {A B} (t : Prog A) (k : Outcome A -> Prog B) :
  requests_all P t -> (forall o, requests_all P (k o)) ->
  requests_all P (settle t k).
Proof.
  intros Ht Hk. induction t as [a|e|R eff f IH]; cbn in *; auto.
  destruct Ht as [Hq Hf]. split; [exact Hq|]. intros r. now apply IH.
Qed.

Lemma requests_all_drain {A} (ts : list (Prog A)) :
  Forall (requests_all P) ts ->
  forall settled first, requests_all P (drain ts settled first).
Proof.
  induction 1 as [|t ts Ht _ IH]; intros settled first; cbn; [exact I|].
  apply requests_all_settle; [exact Ht|]. intros o. apply IH.
Qed.

Lemma Forall_replace {A} (Q : A -> Prop) (x : A) (l : list A) :
  Forall Q l -> Q x -> forall i, Forall Q (replace i x l).
Proof.
  induction 1 as [|y l Hy Hl IH]; intros Hx [|i]; cbn; constructor; auto.
Qed.

Lemma requests_all_interleave {A} (sched : list nat) :
  forall (ts : list (Prog A)) first,
  Forall (requests_all P) ts -> requests_all P (interleave sched ts first).
Proof.
  induction sched as [|i sched IH]; intros ts first Hts; cbn.
  - now apply requests_all_drain.
  - destruct (nth_error ts i) as [[a|e|R eff k]|] eqn:E; try now apply IH.
    apply nth_error_In in E.
    rewrite Forall_forall in Hts. pose proof (Hts _ E) as [Hq Hk].
    cbn. split; [exact Hq|]. intros r. apply IH.
    apply Forall_replace; [now apply Forall_forall|apply Hk].
Qed.

Lemma requests_all_Promise_all {A} (ts : list (Prog A)) :
  Forall (requests_all P) ts -> requests_all P (Promise_all ts).
Proof.
  intros Hts. cbn. split; [exact I|]. intros sched.
  apply requests_all_bind; [now apply requests_all_interleave|].
  intros [os [e|]]; exact I.
Qed.

Lemma requests_all_Promise_allSettled {A} (ts : list (Prog A)) :
  Forall (requests_all P) ts -> requests_all P (Promise_allSettled ts).
Proof.
  intros Hts. cbn. split; [exact I|]. intros sched.
  apply requests_all_bind; [now apply requests_all_interleave|].
  intros r. exact I.
Qed.

(** A table that the allowed requests leave alone is the same after the
    run, as long as no other client writes. *)
Lemma run_keeps {B} (table : Db -> B) :
  (forall t d, table (with_now t d) = table d) ->
  (forall X (q : Request X) d, P q -> table (snd (exec q d)) = table d) ->
  forall {A} (p : Prog A) (m : Machine),
  requests_all P p -> alone m ->
  table (db (snd (run p m))) = table (db m).
Proof.
  intros Hnow Hexec A p.
  induction p as [a|e|R eff k IH]; intros m Hp Halone; cbn [run]; try reflexivity.
  destruct Hp as [Hq Hk]. rewrite IH; [|apply Hk|].
  - destruct eff as [X q| |]; try reflexivity.
    rewrite tables_after_Query by exact Halone. cbv zeta.
    destruct (fault (hd calm (events m))); [apply Hnow|].
    rewrite Hexec by exact Hq. apply Hnow.
  - destruct eff as [X q| |]; try exact Halone.
    now apply alone_after_Query.
Qed.

End Requests.

Lemma getOrCreateHashtag_footprint (tag : string) :
  requests_all enrichment_request (getOrCreateHashtag tag).
Proof.
  unfold getOrCreateHashtag. cbn. split; [exact I|]. intros r.
  destruct (data r); [exact I|]. cbn. split; [exact I|]. intros r'.
  destruct (error r'); exact I.
Qed.

Lemma linkHashtags_footprint (postId : uuid) (content : string) :
  requests_all enrichment_request (linkHashtags postId content).
Proof.
  unfold linkHashtags.
  destruct (List.length (arrayFromSet (parseHashtags content)) =? 0); [exact I|].
  apply requests_all_bind.
  - apply requests_all_Promise_all, Forall_map, Forall_forall.
    intros t _. apply getOrCreateHashtag_footprint.
  - intros rows. destruct (hashtagLinks postId rows); [|exact I].
    cbn. split; [exact I|]. intros r. destruct (error r); cbn; auto.
Qed.

Lemma insertMentions_footprint (postId : uuid) (content : string) :
  requests_all enrichment_request (insertMentions postId content).
Proof.
  unfold insertMentions.
  destruct (List.length (arrayFromSet (parseMentions content)) =? 0); [exact I|].
  cbn. split; [exact I|]. intros r.
  destruct (error r); [cbn; auto|].
  destruct (data r) as [[|row rows]|]; try exact I.
  cbn. split; [exact I|]. intros r'. destruct (error r'); cbn; auto.
Qed.

Lemma previewIdsOf_footprint (urls : list string) :
  forall previewIds, requests_all enrichment_request (previewIdsOf urls previewIds).
Proof.
  induction urls as [|url urls IH]; intros previewIds; cbn; [exact I|].
  split; [exact I|]. intros r. destruct (data r); [apply IH|].
  cbn. split; [exact I|]. intros r'.
  destruct (error r'); [cbn; split; [exact I|intros _; apply IH]|].
  destruct (data r'); [apply IH|exact I].
Qed.

Lemma linkUrls_footprint (postId : uuid) (content : string) :
  requests_all enrichment_request (linkUrls postId content).
Proof.
  unfold linkUrls.
  destruct (List.length (arrayFromSet (parseUrls content)) =? 0); [exact I|].
  apply requests_all_bind; [apply previewIdsOf_footprint|].
  intros ids. destruct (List.length ids =? 0); [exact I|].
  cbn. split; [exact I|]. intros r. destruct (error r); cbn; auto.
Qed.

(** The requests of the enrichment write to the hashtags, mentions and
    link-preview tables only. *)
Lemma enrichment_request_keeps (X : Type) (q : Request X) (d : Db) :
  enrichment_request q ->
  posts (snd (exec q d)) = posts d /\ profiles (snd (exec q d)) = profiles d
  /\ follows (snd (exec q d)) = follows d /\ likes (snd (exec q d)) = likes d.
Proof.
  destruct q; cbn [enrichment_request exec]; intros H; try destruct H.
  - auto.
  - unfold insert_hashtag.
    destruct (negb _); [auto|]. destruct (existsb _ _); auto.
  - unfold upsert_post_hashtags.
    destruct (upsert_post_hashtags_rows _ _ _); auto.
  - auto.
  - unfold insert_mentions.
    destruct (negb _); [auto|]. destruct (negb _); auto.
  - auto.
  - unfold insert_link_preview. destruct (existsb _ _); auto.
  - unfold upsert_post_links.
    destruct (upsert_post_links_rows _ _ _); auto.
Qed.

Lemma alone_after_run {A} (p : Prog A) :
  forall m, alone m -> alone (snd (run p m)).
Proof.
  induction p as [a|e|R eff k IH]; intros m Hm; cbn [run snd]; try exact Hm.
  apply IH. destruct eff as [X q| |]; try exact Hm.
  now apply alone_after_Query.
Qed.

Lemma enrichment_footprint (postId : uuid) (content : string) :
  requests_all enrichment_request
    (Promise_allSettled
       [ linkHashtags postId content;
         insertMentions postId content;
         linkUrls postId content ]).
Proof.
  apply requests_all_Promise_allSettled.
  repeat constructor;
    auto using linkHashtags_footprint, insertMentions_footprint, linkUrls_footprint.
Qed.

(** What a successful [createPost] did, up to the enrichment. *)
Lemma createPost_fulfilled (userId : uuid) (content : string)
    (imageUrl : option string) (m : Machine) (post : Post.t) :
  fst (run (createPost userId content imageUrl) m) = Fulfilled post ->
  let d := disturb (hd calm (events m)) (db m) in
  let inserted :=
    mkMachine
      (with_uuid_next (S (uuid_next d)) (with_posts (posts d ++ [post]) d))
      (console m) (tl (events m)) (schedules m) in
  post = Post.mk (uuid_next d) userId content (orNull imageUrl)
           (Some false) None None (Some (now d))
  /\ content_length content = true
  /\ profile_exists d userId = true
  /\ snd (run (createPost userId content imageUrl) m)
     = snd (run (Promise_allSettled
                   [ linkHashtags (Post.id post) content;
                     insertMentions (Post.id post) content;
                     linkUrls (Post.id post) content ]) inserted).
Proof.
  unfold createPost. cbn [run].
  destruct (fault (hd calm (events m))) as [e|] eqn:F.
  - rewrite perform_Query_fault with (e := e) by exact F. discriminate.
  - rewrite perform_Query_answered by exact F.
    cbn [fst snd exec]. unfold insert_post.
    set (d := disturb (hd calm (events m)) (db m)).
    destruct (content_length content); [|discriminate].
    destruct (profile_exists d userId); [|discriminate].
    cbn [negb error data ok fst snd]. rewrite run_bind. cbn [Post.id].
    destruct (Promise_allSettled_settles
                [ linkHashtags (uuid_next d) content;
                  insertMentions (uuid_next d) content;
                  linkUrls (uuid_next d) content ]
                (mkMachine
                   (with_uuid_next (S (uuid_next d))
                      (with_posts
                         (posts d ++ [Post.mk (uuid_next d) userId content
                                        (orNull imageUrl) (Some false) None None
                                        (Some (now d))]) d))
                   (console m) (tl (events m)) (schedules m)))
      as (outcomes & -> & _).
    cbn [run fst snd Post.id]. intros [= <-]. repeat split.
Qed.

Lemma createPost_effect
    (userId : uuid) (content : string) (imageUrl : option string)
    (m : Machine) (post : Post.t) :
  let d := disturb (hd calm (events m)) (db m) in
  let after := db (snd (run (createPost userId content imageUrl) m)) in
  alone m ->
  fst (run (createPost userId content imageUrl) m) = Fulfilled post ->
  posts after = posts d ++ [post]
  /\ Post.user_id post = userId
  /\ Post.content post = content
  /\ Post.image_url post = orNull imageUrl
  /\ Post.is_deleted post = Some false
  /\ Post.created_at post = Some (now d)
  /\ profiles after = profiles d
  /\ follows after = follows d
  /\ likes after = likes d.
Proof.
  intros d after Halone Hpost. subst after.
  destruct (createPost_fulfilled userId content imageUrl m Hpost)
    as (Hrow & _ & _ & ->).
  fold d in Hrow |- *.
  set (inserted := mkMachine _ _ _ _).
  assert (Halone1 : alone inserted).
  { unfold alone, inserted. cbn [events]. unfold alone in Halone.
    destruct (events m); [constructor|now inversion Halone]. }
  pose proof (enrichment_footprint (Post.id post) content) as Hfoot.
  rewrite (run_keeps enrichment_request posts), (run_keeps enrichment_request profiles),
    (run_keeps enrichment_request follows), (run_keeps enrichment_request likes);
    try exact Hfoot; try exact Halone1; try reflexivity;
    try (intros X q d0 Hq; now apply enrichment_request_keeps).
  subst inserted. cbn [db posts profiles follows likes with_uuid_next with_posts].
  split; [reflexivity|]. rewrite Hrow. cbn. repeat split.
Qed.

(** A successful [createPost] adds one row to the posts table, the post
    it returns, with the author, the text and the image it was given, not
    deleted and dated by the server.  Whatever the enrichment does, in
    any order and with any failure, it leaves posts, profiles, follows and
    likes alone. *)
Theorem createPost_adds_one_post
    (userId : uuid) (content : string) (imageUrl : option string)
    (m : Machine) (post : Post.t) :
  let d := disturb (hd calm (events m)) (db m) in
  let after := db (snd (run (createPost userId content imageUrl) m)) in
  alone m ->
  fst (run (createPost userId content imageUrl) m) = Fulfilled post ->
  posts after = posts d ++ [post]
  /\ Post.user_id post = userId
  /\ Post.content post = content
  /\ Post.image_url post = orNull imageUrl
  /\ Post.is_deleted post = Some false
  /\ Post.created_at post = Some (now d)
  /\ profiles after = profiles d
  /\ follows after = follows d
  /\ likes after = likes d.
Proof. apply createPost_effect. Qed.

Lemma createPost_adds_one_post_witness :
  posts (db (snd (run (createPost 1 "new #Rust for @alice_dev https://x.io" None)
                    (idle Cases.city))))
  = posts (disturb (hd calm (events (idle Cases.city))) (db (idle Cases.city)))
    ++ [Post.mk 100 1 "new #Rust for @alice_dev https://x.io" None
          (Some false) None None (Some 1000%Z)].
Proof.
  refine (proj1 (@createPost_adds_one_post 1 "new #Rust for @alice_dev https://x.io"
                   None (idle Cases.city)
                   (Post.mk 100 1 "new #Rust for @alice_dev https://x.io" None
                      (Some false) None None (Some 1000%Z)) _ eq_refl)).
  constructor.
Defined.

(** A post that [createPost] returned is on the next page of its author's
    profile feed and home feed, when no one else writes in between and the
    limit covers the posts table. *)
Theorem created_post_is_on_the_feeds
    (userId : uuid) (content : string) (imageUrl : option string)
    (m : Machine) (post : Post.t) (limit : option nat) :
  let created := snd (run (createPost userId content imageUrl) m) in
  alone m ->
  fst (run (createPost userId content imageUrl) m) = Fulfilled post ->
  fault (hd calm (events created)) = None ->
  fault (hd calm (tl (events created))) = None ->
  List.length (posts (db created)) <= limitOr20 limit ->
  (exists page,
      fst (run (getUserPosts userId None limit) created) = Fulfilled (Some page)
      /\ In post (map FeedRow.post page))
  /\ (exists page,
      fst (run (getHomeFeed userId None limit) created) = Fulfilled (Some page)
      /\ In post (map FeedRow.post page)).
Proof.
  intros created Halone Hpost Hf1 Hf2 Hlim.
  destruct (createPost_effect userId content imageUrl Halone Hpost)
    as (Hposts & Hu & _ & _ & Hdel & _).
  fold created in Hposts.
  assert (Hcreated : alone created) by now apply alone_after_run.
  assert (Hin : In post (posts (db created)))
    by (rewrite Hposts; apply in_or_app; right; now left).
  split.
  - rewrite run_getUserPosts.
    rewrite perform_Query_answered by exact Hf1.
    cbn [fst snd exec ok error data].
    eexists. split; [reflexivity|].
    rewrite select_posts_post.
    pose proof (@posts_disturb_alone _ (db created) (alone_hd Hcreated)) as Hsame.
    apply select_page_complete.
    + destruct (userPostsQuery_fields userId None (limitOr20 limit))
        as (_ & _ & _ & _ & _ & ->). now rewrite Hsame.
    + now rewrite Hsame.
    + unfold where_posts. cbn. now rewrite Hu, Hdel, Nat.eqb_refl.
  - pose proof (alone_after_Query (SelectFollowing userId) Hcreated) as Hasked.
    rewrite run_getHomeFeed.
    set (asked := perform (Query (SelectFollowing userId)) created) in *.
    assert (Hdb : posts (db (snd asked)) = posts (db created)).
    { subst asked. rewrite perform_Query_answered by exact Hf1.
      cbn [snd db exec select_following].
      now apply posts_disturb_alone, alone_hd. }
    rewrite (perform_Query_answered (SelectPosts _))
      by (subst asked; rewrite events_after_Query; exact Hf2).
    cbn [fst snd exec ok error data].
    eexists. split; [reflexivity|].
    rewrite select_posts_post.
    pose proof (@posts_disturb_alone _ (db (snd asked)) (alone_hd Hasked)) as Hsame.
    rewrite Hdb in Hsame.
    apply select_page_complete.
    + destruct (homeFeedQuery_fields (followingIdsOf userId (fst asked)) None
                  (limitOr20 limit)) as (_ & _ & _ & _ & _ & ->).
      now rewrite Hsame.
    + now rewrite Hsame.
    + apply own_post_matches; [exact Hu|exact Hdel|exact I].
Qed.

Lemma created_post_is_on_the_feeds_witness :
  exists page,
    fst (run (getUserPosts 1 None None)
           (snd (run (createPost 1 "new #Rust for @alice_dev https://x.io" None)
                   (idle Cases.city))))
    = Fulfilled (Some page)
    /\ In (Post.mk 100 1 "new #Rust for @alice_dev https://x.io" None
             (Some false) None None (Some 1000%Z))
         (map FeedRow.post page).
Proof.
  refine (proj1 (@created_post_is_on_the_feeds 1 "new #Rust for @alice_dev https://x.io"
                   None (idle Cases.city)
                   (Post.mk 100 1 "new #Rust for @alice_dev https://x.io" None
                      (Some false) None None (Some 1000%Z)) None
                   _ eq_refl eq_refl eq_refl _)).
  - constructor.
  - vm_compute. lia.
Defined.

(* ===================================================================== *)
(** * Properties of the components                                        *)
(* ===================================================================== *)

Import Ui.

(** ** Rendering the text of a post *)

Lemma string_app_nil_r (s : string) : (s ++ "")%string = s.
Proof. induction s; cbn; congruence. Qed.

Lemma string_app_assoc (a b c : string) :
  ((a ++ b) ++ c)%string = (a ++ (b ++ c))%string.
Proof. induction a; cbn; congruence. Qed.

Lemma takeWhile_prefix (f : ascii -> bool) (s : string) :
  exists rest, s = (takeWhile f s ++ rest)%string.
Proof.
  induction s as [|c s [rest IH]]; cbn; [now exists EmptyString|].
  destruct (f c); cbn.
  - exists rest. now rewrite <- IH.
  - now exists (String c s).
Qed.

(** A match is a prefix of the text it was found in, and starts with the
    character its element is chosen by. *)
Lemma sigilWord_prefix (sigil : ascii) (s m : string) :
  sigilWord sigil s = Some m ->
  exists w rest, m = String sigil w /\ s = (m ++ rest)%string.
Proof.
  destruct s as [|c tail]; cbn; [discriminate|].
  destruct (Ascii.eqb c sigil) eqn:E; [|discriminate].
  apply Ascii.eqb_eq in E; subst c.
  destruct (takeWhile_prefix isWord tail) as [rest Hrest].
  destruct (takeWhile isWord tail) as [|c w]; [discriminate|].
  intros [= <-]. exists (String c w), rest. split; [reflexivity|].
  cbn [append]. f_equal. exact Hrest.
Qed.

Lemma httpUrl_prefix (s m : string) :
  httpUrl s = Some m ->
  exists w rest, m = ("http" ++ w)%string /\ s = (m ++ rest)%string.
Proof.
  unfold httpUrl, plusRun.
  destruct (dropPrefix "https://" s) as [tail|] eqn:E1.
  - apply dropPrefix_Some in E1.
    destruct (takeWhile_prefix notSpace tail) as [rest Hrest].
    destruct (takeWhile notSpace tail) as [|c w]; [discriminate|].
    intros [= <-]. exists ("s://" ++ String c w)%string, rest.
    split; [reflexivity|]. rewrite E1, Hrest. cbn. reflexivity.
  - destruct (dropPrefix "http://" s) as [tail|] eqn:E2; [|discriminate].
    apply dropPrefix_Some in E2.
    destruct (takeWhile_prefix notSpace tail) as [rest Hrest].
    destruct (takeWhile notSpace tail) as [|c w]; [discriminate|].
    intros [= <-]. exists ("://" ++ String c w)%string, rest.
    split; [reflexivity|]. rewrite E2, Hrest. cbn. reflexivity.
Qed.

Lemma contentRegex_element (s m : string) (index : nat) :
  contentRegex s = Some m ->
  shownAll (elementOf index m) = m /\ m <> EmptyString
  /\ exists rest, s = (m ++ rest)%string.
Proof.
  unfold contentRegex.
  destruct (sigilWord "#" s) as [m1|] eqn:E1.
  - intros [= <-]. apply sigilWord_prefix in E1 as (w & rest & -> & Hs).
    split; [cbn; now rewrite string_app_nil_r|split; [discriminate|eauto]].
  - destruct (sigilWord "@" s) as [m2|] eqn:E2.
    + intros [= <-]. apply sigilWord_prefix in E2 as (w & rest & -> & Hs).
      split; [cbn; now rewrite string_app_nil_r|split; [discriminate|eauto]].
    + intros H. apply httpUrl_prefix in H as (w & rest & -> & Hs).
      split; [cbn; now rewrite string_app_nil_r|split; [discriminate|eauto]].
Qed.

Lemma shownAll_app (ps qs : list Part) :
  shownAll (ps ++ qs) = (shownAll ps ++ shownAll qs)%string.
Proof.
  induction ps as [|p ps IH]; cbn; [reflexivity|].
  now rewrite IH, string_app_assoc.
Qed.

Lemma shownAll_textOf (pending : string) : shownAll (textOf pending) = pending.
Proof.
  destruct pending; cbn; [reflexivity|]. now rewrite string_app_nil_r.
Qed.

Lemma string_app_inv_head (a b c : string) :
  (a ++ b)%string = (a ++ c)%string -> b = c.
Proof. induction a; cbn; [auto|]. intros [= H]. auto. Qed.

Lemma shownAll_renderFrom (text : string) :
  forall (skipped rest : string) (index : nat) (pending : string),
  text = (skipped ++ rest)%string ->
  shownAll (renderFrom text index (String.length skipped) pending)
  = (pending ++ rest)%string.
Proof.
  induction text as [|c text IH]; intros skipped rest index pending Htext.
  - destruct skipped; [|discriminate]. cbn in Htext. subst rest.
    cbn. now rewrite shownAll_textOf, string_app_nil_r.
  - destruct skipped as [|c' skipped].
    + cbn in Htext. subst rest. cbn [String.length renderFrom].
      destruct (contentRegex (String c text)) as [m|] eqn:E.
      * destruct (@contentRegex_element _ _ index E) as (Hshown & Hm & tail & Htail).
        rewrite !shownAll_app, shownAll_textOf, Hshown.
        destruct m as [|c0 m]; [now destruct Hm|].
        cbn in Htail. injection Htail as -> Htail.
        cbn [String.length].
        replace (S (String.length m) - 1) with (String.length m) by lia.
        rewrite (IH m tail (S index) EmptyString Htail).
        cbn. now rewrite Htail.
      * change 0 with (String.length EmptyString).
        rewrite (IH EmptyString text (S index) (pending ++ String c EmptyString)%string
                   eq_refl).
        now rewrite string_app_assoc.
    + cbn in Htext. injection Htext as -> Htext.
      cbn [String.length renderFrom]. now apply IH.
Qed.

(** Rendering loses nothing and adds nothing: what the pieces of
    [renderContent] show, read in order, is the text of the post. *)
Theorem renderContent_shows_the_text (content : string) :
  shownAll (renderContent content) = content.
Proof.
  unfold renderContent.
  exact (@shownAll_renderFrom content EmptyString content 0 EmptyString eq_refl).
Qed.

(** ** The composer *)

Lemma canPost_content_length (content : string) (loading : bool) :
  canPost content loading = true ->
  content_length content = true /\ loading = false.
Proof.
  unfold canPost, content_length. intros H.
  apply andb_prop in H as [H Hloading].
  apply andb_prop in H as [Htext Hlimit].
  apply negb_true_iff in Hloading, Hlimit.
  split; [|exact Hloading].
  apply Nat.ltb_ge in Hlimit.
  apply andb_true_intro. split.
  - destruct content; [discriminate Htext|reflexivity].
  - now apply Nat.leb_le.
Qed.

(** What the composer lets through, the store takes: when [canPost] holds
    for a text, the text passes the constraint [content_length], so
    [createPost] with it, for an author who has a profile and without a
    fault of the transport, returns the new post with that text. *)
Theorem postable_text_is_accepted
    (userId : uuid) (content : string) (imageUrl : option string)
    (loading : bool) (m : Machine) :
  let d := disturb (hd calm (events m)) (db m) in
  canPost content loading = true ->
  fault (hd calm (events m)) = None ->
  profile_exists d userId = true ->
  content_length content = true
  /\ exists post,
       fst (run (createPost userId content imageUrl) m) = Fulfilled post
       /\ Post.user_id post = userId
       /\ Post.content post = content
       /\ Post.is_deleted post = Some false.
Proof.
  intros d Hcan Hfault Hauthor.
  destruct (canPost_content_length _ _ Hcan) as [Hlen _].
  split; [exact Hlen|].
  unfold createPost. cbn [run].
  rewrite perform_Query_answered by exact Hfault.
  fold d. cbn [fst snd exec]. unfold insert_post.
  rewrite Hlen, Hauthor. cbn [negb fst snd error data ok].
  eexists. rewrite run_bind.
  match goal with
  | |- context [run (Promise_allSettled ?ts) ?m'] =>
      destruct (Promise_allSettled_settles ts m') as (outcomes & -> & _)
  end.
  cbn. repeat split.
Qed.

Lemma postable_text_is_accepted_witness :
  content_length "hello #world" = true
  /\ exists post,
       fst (run (createPost 1 "hello #world" None) (idle Scenario.town))
       = Fulfilled post
       /\ Post.user_id post = 1
       /\ Post.content post = "hello #world"%string
       /\ Post.is_deleted post = Some false.
Proof.
  exact (@postable_text_is_accepted 1 "hello #world" None false
           (idle Scenario.town) eq_refl eq_refl eq_refl).
Defined.

(* ===================================================================== *)
(** * Likes, follow state, profiles and moderation                        *)
(* ===================================================================== *)

Import Conditions.

(** ** Requests in an environment that leaves the program in peace *)

Lemma undisturbed_hd (m : Machine) :
  undisturbed m ->
  concurrent (hd calm (events m)) = [] /\ fault (hd calm (events m)) = None.
Proof.
  unfold undisturbed. destruct (events m); cbn; [auto|].
  intros H. now inversion H.
Qed.

Lemma undisturbed_next (m : Machine) (d : Db) :
  undisturbed m ->
  undisturbed (mkMachine d (console m) (tl (events m)) (schedules m)).
Proof.
  unfold undisturbed. cbn. destruct (events m); cbn; [auto|].
  intros H. now inversion H.
Qed.

Lemma undisturbed_alone (m : Machine) : undisturbed m -> alone m.
Proof.
  unfold undisturbed, alone. apply Forall_impl. now intros ev [H _].
Qed.

Lemma disturb_undisturbed (m : Machine) :
  undisturbed m -> disturb (hd calm (events m)) (db m) = later m.
Proof.
  intros H. apply undisturbed_hd in H as [H _]. now rewrite disturb_alone.
Qed.

Lemma request_answered {R} (onFault : Error -> R) (answer : Db -> R * Db)
    (m : Machine) :
  fault (hd calm (events m)) = None ->
  AsyncExt.request onFault answer m
  = (fst (answer (disturb (hd calm (events m)) (db m))),
     mkMachine (snd (answer (disturb (hd calm (events m)) (db m))))
       (console m) (tl (events m)) (schedules m)).
Proof. unfold AsyncExt.request. now intros ->. Qed.

Lemma request_fault {R} (onFault : Error -> R) (answer : Db -> R * Db)
    (m : Machine) (e : Error) :
  fault (hd calm (events m)) = Some e ->
  AsyncExt.request onFault answer m
  = (onFault e,
     mkMachine (disturb (hd calm (events m)) (db m))
       (console m) (tl (events m)) (schedules m)).
Proof. unfold AsyncExt.request. now intros ->. Qed.

Lemma request_undisturbed {R} (onFault : Error -> R) (answer : Db -> R * Db)
    (m : Machine) :
  undisturbed m ->
  AsyncExt.request onFault answer m
  = (fst (answer (later m)),
     mkMachine (snd (answer (later m)))
       (console m) (tl (events m)) (schedules m)).
Proof.
  intros H. rewrite request_answered by apply (undisturbed_hd H).
  now rewrite (disturb_undisturbed H).
Qed.

Lemma perform_undisturbed {X} (q : Request X) (m : Machine) :
  undisturbed m ->
  perform (Query q) m
  = (fst (exec q (later m)),
     mkMachine (snd (exec q (later m)))
       (console m) (tl (events m)) (schedules m)).
Proof.
  intros H. rewrite perform_Query_answered by apply (undisturbed_hd H).
  now rewrite (disturb_undisturbed H).
Qed.

Lemma existsb_false_none {A} (f : A -> bool) (l : list A) :
  existsb f l = false -> filter f l = [].
Proof.
  induction l as [|x l IH]; cbn; [reflexivity|].
  destruct (f x); [discriminate|exact IH].
Qed.

Lemma filter_negb_none {A} (f : A -> bool) (l : list A) :
  filter f (filter (fun x => negb (f x)) l) = [].
Proof.
  induction l as [|x l IH]; cbn; [reflexivity|].
  destruct (f x) eqn:E; cbn; [exact IH|]. now rewrite E.
Qed.

(** ** Likes *)

(** [likePost u p], once its request reaches the store, succeeds exactly
    when [u] has not liked [p] yet and both exist; it then adds the one
    row (u, p).  A second like of the same post is rejected with the
    unique violation [unique_like], a like by or of something that does
    not exist with a foreign-key violation, and then the store is as the
    request found it. *)
Theorem likePost_outcome (u p : uuid) (m : Machine) :
  let d := disturb (hd calm (events m)) (db m) in
  let after := snd (AsyncExt.run (ApiExt.likePost u p) m) in
  fault (hd calm (events m)) = None ->
  (existsb (StoreExt.is_like u p) (likes d) = false
   /\ profile_exists d u = true /\ post_exists d p = true ->
   exists row,
     fst (AsyncExt.run (ApiExt.likePost u p) m) = Fulfilled (Some row)
     /\ Like.user_id row = u /\ Like.post_id row = p
     /\ likes (db after) = likes d ++ [row])
  /\ (existsb (StoreExt.is_like u p) (likes d) = true ->
      fst (AsyncExt.run (ApiExt.likePost u p) m)
      = Rejected (UniqueViolation "unique_like")
      /\ db after = d)
  /\ (existsb (StoreExt.is_like u p) (likes d) = false ->
      profile_exists d u = false \/ post_exists d p = false ->
      (exists c, fst (AsyncExt.run (ApiExt.likePost u p) m)
                 = Rejected (ForeignKeyViolation c))
      /\ db after = d).
Proof.
  intros d after Hfault. subst after.
  unfold ApiExt.likePost. cbn [AsyncExt.run AsyncExt.perform].
  rewrite request_answered by exact Hfault. fold d.
  cbn [fst snd StoreExt.exec]. unfold StoreExt.insert_like.
  split; [|split].
  - intros (Hnew & Hu & Hp). rewrite Hnew, Hu, Hp. cbn.
    eexists. repeat split.
  - intros Hold. now rewrite Hold.
  - intros Hnew Hmissing. rewrite Hnew.
    destruct (profile_exists d u); [|cbn; eauto].
    destruct (post_exists d p); [|cbn; eauto].
    destruct Hmissing; discriminate.
Qed.

Lemma likePost_outcome_witness :
  fst (AsyncExt.run (ApiExt.likePost 2 50) (idle Cases.city))
  = Rejected (UniqueViolation "unique_like")
  /\ db (snd (AsyncExt.run (ApiExt.likePost 2 50) (idle Cases.city)))
     = Cases.city.
Proof.
  exact (proj1 (proj2 (@likePost_outcome 2 50 (idle Cases.city) eq_refl)) eq_refl).
Defined.

(** Liking a post and taking the like back: in between, [isPostLiked]
    answers [true] and [getLikeCount] is one more than before; afterwards
    both answer as at the start and the table of likes is as it was. *)
Theorem like_unlike_round_trip (u p : uuid) (m : Machine) :
  let liked := snd (AsyncExt.run (ApiExt.likePost u p) m) in
  let unliked := snd (AsyncExt.run (ApiExt.unlikePost u p) liked) in
  let n := StoreExt.exec_count (StoreExt.CountLikes p) (db m) in
  undisturbed m ->
  existsb (StoreExt.is_like u p) (likes (db m)) = false ->
  profile_exists (db m) u = true ->
  post_exists (db m) p = true ->
  fst (AsyncExt.run (ApiExt.isPostLiked u p) m) = Fulfilled false
  /\ fst (AsyncExt.run (ApiExt.getLikeCount p) m) = Fulfilled n
  /\ fst (AsyncExt.run (ApiExt.isPostLiked u p) liked) = Fulfilled true
  /\ fst (AsyncExt.run (ApiExt.getLikeCount p) liked) = Fulfilled (S n)
  /\ fst (AsyncExt.run (ApiExt.unlikePost u p) liked) = Fulfilled tt
  /\ fst (AsyncExt.run (ApiExt.isPostLiked u p) unliked) = Fulfilled false
  /\ fst (AsyncExt.run (ApiExt.getLikeCount p) unliked) = Fulfilled n
  /\ likes (db unliked) = likes (db m).
Proof.
  intros liked unliked n Hm Hnew Hu Hp.
  set (row := Like.mk (uuid_next (db m)) u p (Some (now (later m)))).
  assert (Hliked :
    liked = mkMachine
              (with_uuid_next (S (uuid_next (db m)))
                 (with_likes (likes (db m) ++ [row]) (later m)))
              (console m) (tl (events m)) (schedules m)).
  { subst liked. unfold ApiExt.likePost. cbn [AsyncExt.run AsyncExt.perform].
    rewrite request_undisturbed by exact Hm.
    cbn [fst snd StoreExt.exec]. unfold StoreExt.insert_like.
    change (likes (later m)) with (likes (db m)).
    change (profile_exists (later m) u) with (profile_exists (db m) u).
    change (post_exists (later m) p) with (post_exists (db m) p).
    rewrite Hnew, Hu, Hp. reflexivity. }
  assert (Hq : undisturbed liked)
    by (rewrite Hliked; now apply undisturbed_next).
  assert (Hrow : StoreExt.is_like u p row = true)
    by (unfold StoreExt.is_like; cbn; now rewrite !Nat.eqb_refl).
  assert (Hlikes : likes (db liked) = likes (db m) ++ [row])
    by (now rewrite Hliked).
  assert (Hunliked :
    unliked = mkMachine
                (with_likes
                   (filter (fun l => negb (StoreExt.is_like u p l)) (likes (db liked)))
                   (later liked))
                (console liked) (tl (events liked)) (schedules liked)).
  { subst unliked. unfold ApiExt.unlikePost. cbn [AsyncExt.run AsyncExt.perform].
    rewrite request_undisturbed by exact Hq. reflexivity. }
  assert (Hq' : undisturbed unliked)
    by (rewrite Hunliked; now apply undisturbed_next).
  assert (Hback : likes (db unliked) = likes (db m)).
  { rewrite Hunliked. cbn [db likes with_likes]. rewrite Hlikes.
    rewrite filter_app, existsb_false_filter by exact Hnew.
    cbn [filter]. rewrite Hrow. cbn. now rewrite app_nil_r. }
  unfold ApiExt.isPostLiked, ApiExt.getLikeCount, ApiExt.unlikePost.
  cbn [AsyncExt.run AsyncExt.perform].
  rewrite !request_undisturbed by assumption.
  cbn [fst snd StoreExt.exec StoreExt.select_like StoreExt.delete_like
       StoreExt.count_error StoreExt.count error Store.done].
  change (likes (later m)) with (likes (db m)).
  change (likes (later liked)) with (likes (db liked)).
  change (likes (later unliked)) with (likes (db unliked)).
  unfold StoreExt.exec_count.
  change (likes (later m)) with (likes (db m)).
  change (likes (later liked)) with (likes (db liked)).
  change (likes (later unliked)) with (likes (db unliked)).
  rewrite Hback, Hlikes, !filter_app, !length_app.
  rewrite (existsb_false_none _ _ Hnew).
  cbn [filter]. rewrite Hrow.
  cbn [Like.post_id row]. subst row. cbn [Like.post_id]. rewrite Nat.eqb_refl.
  cbn. subst n. cbn [StoreExt.exec_count].
  repeat split. f_equal. lia.
Qed.

Lemma like_unlike_round_trip_witness :
  fst (AsyncExt.run (ApiExt.isPostLiked 1 50) (idle Cases.city)) = Fulfilled false
  /\ fst (AsyncExt.run (ApiExt.getLikeCount 50) (idle Cases.city)) = Fulfilled 1
  /\ fst (AsyncExt.run (ApiExt.isPostLiked 1 50)
            (snd (AsyncExt.run (ApiExt.likePost 1 50) (idle Cases.city))))
     = Fulfilled true
  /\ fst (AsyncExt.run (ApiExt.getLikeCount 50)
            (snd (AsyncExt.run (ApiExt.likePost 1 50) (idle Cases.city))))
     = Fulfilled 2.
Proof.
  pose proof (@like_unlike_round_trip 1 50 (idle Cases.city)
                (Forall_nil _) eq_refl eq_refl eq_refl) as H.
  cbv zeta in H. destruct H as (H1 & H2 & H3 & H4 & _).
  exact (conj H1 (conj H2 (conj H3 H4))).
Defined.

(** ** What the follow state reads back *)

(** After [followUser a b], [isFollowing a b] answers [true], and [b] has
    one follower more and [a] follows one more than before; after
    [unfollowUser a b] all three answer as at the start. *)
Theorem follow_is_read_back (a b : uuid) (m : Machine) :
  let followed := snd (run (followUser a b) m) in
  let unfollowed := snd (run (unfollowUser a b) followed) in
  let followers := StoreExt.exec_count (StoreExt.CountFollowers b) (db m) in
  let following := StoreExt.exec_count (StoreExt.CountFollowing a) (db m) in
  undisturbed m ->
  a <> b ->
  existsb (is_follow a b) (follows (db m)) = false ->
  profile_exists (db m) a = true ->
  profile_exists (db m) b = true ->
  fst (AsyncExt.run (ApiExt.isFollowing a b) m) = Fulfilled false
  /\ fst (AsyncExt.run (ApiExt.isFollowing a b) followed) = Fulfilled true
  /\ fst (AsyncExt.run (ApiExt.getFollowerCount b) followed) = Fulfilled (S followers)
  /\ fst (AsyncExt.run (ApiExt.getFollowingCount a) followed) = Fulfilled (S following)
  /\ fst (AsyncExt.run (ApiExt.isFollowing a b) unfollowed) = Fulfilled false
  /\ fst (AsyncExt.run (ApiExt.getFollowerCount b) unfollowed) = Fulfilled followers
  /\ fst (AsyncExt.run (ApiExt.getFollowingCount a) unfollowed) = Fulfilled following.
Proof.
  intros followed unfollowed followers following Hm Hab Hnew Ha Hb.
  set (row := Follow.mk (uuid_next (db m)) a b (Some (now (later m)))).
  assert (Hfollowed :
    followed = mkMachine
                 (with_uuid_next (S (uuid_next (db m)))
                    (with_follows (follows (db m) ++ [row]) (later m)))
                 (console m) (tl (events m)) (schedules m)).
  { subst followed. unfold followUser. cbn [run].
    rewrite perform_undisturbed by exact Hm.
    cbn [fst snd exec]. unfold insert_follow.
    change (follows (later m)) with (follows (db m)).
    change (profile_exists (later m) a) with (profile_exists (db m) a).
    change (profile_exists (later m) b) with (profile_exists (db m) b).
    apply Nat.eqb_neq in Hab. rewrite Hab, Hnew, Ha, Hb. reflexivity. }
  assert (Hq : undisturbed followed)
    by (rewrite Hfollowed; now apply undisturbed_next).
  assert (Hrow : is_follow a b row = true)
    by (unfold is_follow; cbn; now rewrite !Nat.eqb_refl).
  assert (Hfollows : follows (db followed) = follows (db m) ++ [row])
    by (now rewrite Hfollowed).
  assert (Hunfollowed :
    unfollowed = mkMachine
                   (with_follows
                      (filter (fun f => negb (is_follow a b f)) (follows (db followed)))
                      (later followed))
                   (console followed) (tl (events followed)) (schedules followed)).
  { subst unfollowed. unfold unfollowUser. cbn [run].
    rewrite perform_undisturbed by exact Hq. reflexivity. }
  assert (Hq' : undisturbed unfollowed)
    by (rewrite Hunfollowed; now apply undisturbed_next).
  assert (Hback : follows (db unfollowed) = follows (db m)).
  { rewrite Hunfollowed. cbn [db follows with_follows]. rewrite Hfollows.
    rewrite filter_app, existsb_false_filter by exact Hnew.
    cbn [filter]. rewrite Hrow. cbn. now rewrite app_nil_r. }
  unfold ApiExt.isFollowing, ApiExt.getFollowerCount, ApiExt.getFollowingCount.
  cbn [AsyncExt.run AsyncExt.perform].
  rewrite !request_undisturbed by assumption.
  cbn [fst snd StoreExt.exec StoreExt.select_follow
       StoreExt.count_error StoreExt.count error].
  unfold StoreExt.exec_count.
  change (follows (later m)) with (follows (db m)).
  change (follows (later followed)) with (follows (db followed)).
  change (follows (later unfollowed)) with (follows (db unfollowed)).
  rewrite Hback, Hfollows, !filter_app, !length_app.
  rewrite (existsb_false_none _ _ Hnew).
  cbn [filter]. rewrite Hrow.
  subst row. cbn [Follow.follower_id Follow.following_id]. rewrite !Nat.eqb_refl.
  cbn. subst followers following. cbn [StoreExt.exec_count].
  repeat split; f_equal; lia.
Qed.

Lemma follow_is_read_back_witness :
  fst (AsyncExt.run (ApiExt.isFollowing 1 2) (idle Cases.city)) = Fulfilled false
  /\ fst (AsyncExt.run (ApiExt.isFollowing 1 2)
            (snd (run (followUser 1 2) (idle Cases.city))))
     = Fulfilled true
  /\ fst (AsyncExt.run (ApiExt.getFollowerCount 2)
            (snd (run (followUser 1 2) (idle Cases.city))))
     = Fulfilled 1.
Proof.
  pose proof (@follow_is_read_back 1 2 (idle Cases.city)
                (Forall_nil _) ltac:(discriminate) eq_refl eq_refl eq_refl) as H.
  cbv zeta in H. destruct H as (H1 & H2 & H3 & _).
  exact (conj H1 (conj H2 H3)).
Defined.

(** ** The like button and the follow button *)


Lemma ext_run_settle {A B} (t : AsyncExt.Prog A)
    (k : Outcome A -> AsyncExt.Prog B) (m : Machine) :
  AsyncExt.run (AsyncExt.settle t k) m
  = AsyncExt.run (k (fst (AsyncExt.run t m))) (snd (AsyncExt.run t m)).
Proof.
  revert m. induction t as [a|e|R eff f IH]; intros m; simpl;
    [reflexivity..|apply IH].
Qed.















(** ** The rows of a page *)

(** The rows of a page are rows of the posts table that are not marked as
    deleted, when no other client writes meanwhile. *)
Lemma getHomeFeed_rows_live (userId : uuid) (cursor : option timestamptz)
    (limit : option nat) (m : Machine) (page : list FeedRow.t) :
  alone m ->
  fst (run (getHomeFeed userId cursor limit) m) = Fulfilled (Some page) ->
  Forall (fun r => In (FeedRow.post r) (posts (db m)) /\ not_deleted r) page.
Proof.
  intros Hm Hpage. apply getHomeFeed_page in Hpage. cbv zeta in Hpage.
  subst page.
  set (asked := perform (Query (SelectFollowing userId)) m).
  set (q := homeFeedQuery _ _ _).
  assert (Hposts :
    posts (disturb (hd calm (events (snd asked))) (db (snd asked))) = posts (db m)).
  { rewrite posts_disturb_alone
      by (apply alone_hd; subst asked; now apply alone_after_Query).
    subst asked. rewrite tables_after_Query by exact Hm.
    now destruct (fault (hd calm (events m))). }
  eapply Forall_impl; [|apply Forall_and;
                         [apply select_posts_where
                         |apply (@select_posts_not_deleted q);
                          subst q; apply homeFeedQuery_fields]].
  cbn beta. intros r [[Hin _] Hlive]. rewrite Hposts in Hin. now split.
Qed.

Lemma getUserPosts_rows_live (userId : uuid) (cursor : option timestamptz)
    (limit : option nat) (m : Machine) (page : list FeedRow.t) :
  alone m ->
  fst (run (getUserPosts userId cursor limit) m) = Fulfilled (Some page) ->
  Forall (fun r => In (FeedRow.post r) (posts (db m)) /\ not_deleted r) page.
Proof.
  intros Hm Hpage. apply getUserPosts_page in Hpage. subst page.
  set (q := userPostsQuery _ _ _).
  eapply Forall_impl; [|apply Forall_and;
                         [apply select_posts_where
                         |apply (@select_posts_not_deleted q);
                          subst q; apply userPostsQuery_fields]].
  cbn beta. intros r [[Hin _] Hlive].
  rewrite posts_disturb_alone in Hin by now apply alone_hd. now split.
Qed.

Lemma post_exists_false (d : Db) (i : uuid) (p : Post.t) :
  post_exists d i = false -> In p (posts d) -> Post.id p <> i.
Proof.
  unfold post_exists. intros H Hin E.
  assert (existsb (fun p => Post.id p =? i) (posts d) = true); [|congruence].
  apply existsb_exists. exists p. split; [exact Hin|]. now apply Nat.eqb_eq.
Qed.

(** ** Paging *)

(** A row of the page asked for with the creation time of the last row of
    a page as cursor is older than every row of that page. *)
Lemma pages_share_no_time (front page2 : list FeedRow.t) (lastRow : FeedRow.t)
    (c : timestamptz) :
  newest_first (front ++ [lastRow]) ->
  createdAt lastRow = Some c ->
  Forall (older_than c) page2 ->
  forall r1 r2, In r1 (front ++ [lastRow]) -> In r2 page2 ->
                createdAt r1 <> createdAt r2.
Proof.
  intros Hs Hc Hold r1 r2 H1 H2 E.
  pose proof (@newest_first_last front lastRow r1 Hs H1) as Hd.
  rewrite Forall_forall in Hold. destruct (Hold r2 H2) as (t & Ht & Hlt).
  rewrite Hc, E, Ht in Hd. cbn in Hd.
  apply Z.leb_le in Hd. lia.
Qed.

(** Paging never shows a post twice.  The page asked for with the
    creation time of the last row of a page as cursor has no row of the
    posts table in common with that page, whatever happened to the store
    in between.  And as long as a post keeps its creation time from one
    read to the other (no function of api.ts changes it), and nobody
    writes while a page is read, no post is on both pages: the two pages
    have no identifier of a post in common. *)
Theorem next_page_repeats_no_post
    (feed : uuid -> option timestamptz -> option nat -> Prog (option (list FeedRow.t)))
    (userId : uuid) (cursor : option timestamptz) (limit limit' : option nat)
    (m m' : Machine) (front page' : list FeedRow.t) (lastRow : FeedRow.t)
    (c : timestamptz) :
  feed = getHomeFeed \/ feed = getUserPosts ->
  fst (run (feed userId cursor limit) m) = Fulfilled (Some (front ++ [lastRow])) ->
  createdAt lastRow = Some c ->
  fst (run (feed userId (Some c) limit') m') = Fulfilled (Some page') ->
  (forall r r', In r (front ++ [lastRow]) -> In r' page' ->
                FeedRow.post r <> FeedRow.post r')
  /\ (alone m -> alone m' ->
      (forall p p', In p (posts (db m)) -> In p' (posts (db m')) ->
                    Post.id p = Post.id p' ->
                    Post.created_at p = Post.created_at p') ->
      forall r r', In r (front ++ [lastRow]) -> In r' page' ->
                   Post.id (FeedRow.post r) <> Post.id (FeedRow.post r')).
Proof.
  intros Hfeed Hpage Hc Hpage'.
  assert (Htimes : forall r r', In r (front ++ [lastRow]) -> In r' page' ->
                                createdAt r <> createdAt r').
  { destruct Hfeed as [->| ->].
    - pose proof (getHomeFeed_page _ _ _ _ Hpage) as E.
      pose proof (getHomeFeed_page _ _ _ _ Hpage') as E'. cbn zeta in *.
      eapply pages_share_no_time; [|exact Hc|].
      + rewrite E. apply select_posts_sorted, homeFeedQuery_fields.
      + rewrite E'. eapply select_posts_page; reflexivity.
    - pose proof (getUserPosts_page _ _ _ _ Hpage) as E.
      pose proof (getUserPosts_page _ _ _ _ Hpage') as E'.
      eapply pages_share_no_time; [|exact Hc|].
      + rewrite E. apply select_posts_sorted, userPostsQuery_fields.
      + rewrite E'. eapply select_posts_page; reflexivity. }
  split.
  - intros r r' Hr Hr' E. apply (Htimes r r' Hr Hr'). unfold createdAt.
    now rewrite E.
  - intros Hm Hm' Hstable r r' Hr Hr' E.
    assert (Hrows :
      Forall (fun r => In (FeedRow.post r) (posts (db m)) /\ not_deleted r)
        (front ++ [lastRow])
      /\ Forall (fun r => In (FeedRow.post r) (posts (db m')) /\ not_deleted r)
           page').
    { destruct Hfeed as [->| ->]; split.
      - exact (@getHomeFeed_rows_live userId cursor limit m _ Hm Hpage).
      - exact (@getHomeFeed_rows_live userId (Some c) limit' m' _ Hm' Hpage').
      - exact (@getUserPosts_rows_live userId cursor limit m _ Hm Hpage).
      - exact (@getUserPosts_rows_live userId (Some c) limit' m' _ Hm' Hpage'). }
    destruct Hrows as [Hin Hin']. rewrite Forall_forall in Hin, Hin'.
    destruct (Hin r Hr) as [Hp _]. destruct (Hin' r' Hr') as [Hp' _].
    apply (Htimes r r' Hr Hr'). unfold createdAt. now apply Hstable.
Qed.

Lemma next_page_repeats_no_post_witness :
  Post.id (FeedRow.post (Cases.row_of Cases.city Cases.latest (Some 0)))
  <> Post.id (FeedRow.post (Cases.row_of Cases.city Cases.first_post (Some 1))).
Proof.
  refine (proj2 (@next_page_repeats_no_post getUserPosts 1 None (Some 1) None
                   (idle Cases.city) (idle Cases.city) []
                   [Cases.row_of Cases.city Cases.first_post (Some 1)]
                   (Cases.row_of Cases.city Cases.latest (Some 0)) 500%Z
                   (or_intror eq_refl) eq_refl eq_refl eq_refl)
            (Forall_nil _) (Forall_nil _) _
            (Cases.row_of Cases.city Cases.latest (Some 0))
            (Cases.row_of Cases.city Cases.first_post (Some 1))
            (or_introl eq_refl) (or_introl eq_refl)).
  intros p p' Hp Hp' E. cbn in Hp, Hp'.
  destruct Hp as [<-|[<-|[<-|[]]]], Hp' as [<-|[<-|[<-|[]]]];
    first [reflexivity | discriminate E].
Defined.


(** ** Moderation *)

(** The rows an update of a post reaches. *)
Lemma updatable_iff (d : Db) (auth_uid : option uuid) (id : uuid) (p : Post.t) :
  StoreExt.updatable d auth_uid id p = true
  <-> Post.id p = id /\ Post.is_deleted p = Some false
      /\ (auth_uid = Some (Post.user_id p)
          \/ StoreExt.is_admin_user d auth_uid = true).
Proof.
  unfold StoreExt.updatable, StoreExt.posts_update_policy, posts_select_policy.
  rewrite !andb_true_iff, orb_true_iff, Nat.eqb_eq.
  destruct (Post.is_deleted p) as [[|]|], auth_uid as [u|]; cbn;
    rewrite ?Nat.eqb_eq; intuition (try discriminate; try congruence).
Qed.

(** A row marked as deleted does not pass the SELECT policy of [posts]. *)
Lemma marked_rows_hidden (by_ : uuid) (at_ : timestamptz) (l : list Post.t) :
  l <> [] ->
  forallb posts_select_policy (map (StoreExt.mark_deleted by_ at_) l) = false.
Proof.
  destruct l as [|p l]; [congruence|]. intros _. reflexivity.
Qed.

(** Under the policies of the migration the update of [softDeletePost]
    writes nothing: it is refused when it reaches a row, and accepted
    when it reaches none. *)
Lemma soft_delete_post_refused (auth_uid : option uuid) (id deleted_by : uuid)
    (deleted_at : timestamptz) (d : Db) :
  StoreExt.soft_delete_post auth_uid id deleted_by deleted_at d
  = (if existsb (StoreExt.updatable d auth_uid id) (posts d)
     then failed (StoreExt.row_security_violation "posts")
     else Store.done,
     d).
Proof.
  unfold StoreExt.soft_delete_post.
  destruct (existsb (StoreExt.updatable d auth_uid id) (posts d)) eqn:Ex;
    cbn [negb]; [|reflexivity].
  rewrite marked_rows_hidden, andb_false_r; [reflexivity|].
  apply existsb_exists in Ex as (p & Hp & E). intros Hnil.
  assert (Hin : In p (filter (StoreExt.updatable d auth_uid id) (posts d)))
    by now apply filter_In.
  rewrite Hnil in Hin. destruct Hin.
Qed.

Lemma run_softDeletePost (auth_uid : option uuid) (today : timestamptz)
    (postId adminId : uuid) (m : Machine) :
  let d := disturb (hd calm (events m)) (db m) in
  fault (hd calm (events m)) = None ->
  AsyncExt.run (ApiExt.softDeletePost auth_uid today postId adminId) m
  = (if existsb (StoreExt.updatable d auth_uid postId) (posts d)
     then Rejected (StoreExt.row_security_violation "posts")
     else Fulfilled tt,
     mkMachine d (console m) (tl (events m)) (schedules m)).
Proof.
  intros d Hfault.
  unfold ApiExt.softDeletePost. cbn [AsyncExt.run AsyncExt.perform].
  rewrite request_answered by exact Hfault. fold d.
  cbn [fst snd StoreExt.exec]. rewrite soft_delete_post_refused.
  now destruct (existsb (StoreExt.updatable d auth_uid postId) (posts d)).
Qed.

(** [softDeletePost] leaves the store as the request found it, whoever
    calls it.  When the post is visible and the session is that of its
    author or of an administrator, the update reaches the row, but the row
    as written carries [is_deleted = true] and so fails the SELECT policy
    of [posts]: the statement is refused and [softDeletePost] throws.  In
    every other case the policies hide the row from the update, which
    changes nothing and reports no error. *)
Theorem softDeletePost_outcome
    (auth_uid : option uuid) (today : timestamptz) (postId adminId : uuid)
    (m : Machine) :
  let d := disturb (hd calm (events m)) (db m) in
  let r := AsyncExt.run (ApiExt.softDeletePost auth_uid today postId adminId) m in
  fault (hd calm (events m)) = None ->
  db (snd r) = d
  /\ ((exists p, In p (posts d) /\ Post.id p = postId
                 /\ Post.is_deleted p = Some false
                 /\ (auth_uid = Some (Post.user_id p)
                     \/ StoreExt.is_admin_user d auth_uid = true)) ->
      fst r = Rejected (StoreExt.row_security_violation "posts"))
  /\ ((forall p, In p (posts d) -> Post.id p = postId ->
       Post.is_deleted p = Some false ->
       auth_uid <> Some (Post.user_id p)
       /\ StoreExt.is_admin_user d auth_uid = false) ->
      fst r = Fulfilled tt).
Proof.
  intros d r Hfault. subst r. rewrite run_softDeletePost by exact Hfault. fold d.
  cbn [fst snd db]. split; [reflexivity|]. split.
  - intros (p & Hp & Hid & Hlive & Hright).
    replace (existsb (StoreExt.updatable d auth_uid postId) (posts d)) with true;
      [reflexivity|].
    symmetry. apply existsb_exists. exists p. split; [exact Hp|].
    now apply updatable_iff.
  - intros Hnone.
    destruct (existsb (StoreExt.updatable d auth_uid postId) (posts d)) eqn:Ex;
      [|reflexivity].
    apply existsb_exists in Ex as (p & Hp & E).
    apply updatable_iff in E as (Hid & Hlive & Hright).
    destruct (Hnone p Hp Hid Hlive) as [Hother Hadmin].
    destruct Hright; congruence.
Qed.

Lemma softDeletePost_outcome_witness :
  db (snd (AsyncExt.run (ApiExt.softDeletePost (Some 3) 2000%Z 52 3)
             (idle Cases.moderated)))
  = Cases.moderated
  /\ fst (AsyncExt.run (ApiExt.softDeletePost (Some 3) 2000%Z 52 3)
            (idle Cases.moderated))
     = Rejected (StoreExt.row_security_violation "posts").
Proof.
  pose proof (@softDeletePost_outcome (Some 3) 2000%Z 52 3 (idle Cases.moderated)
                eq_refl) as H.
  cbv zeta in H. destruct H as (H1 & H2 & _). split; [exact H1|].
  apply H2. exists Cases.answer.
  split; [right; left; reflexivity|]. split; [reflexivity|].
  split; [reflexivity|right; reflexivity].
Defined.


(** ** Profiles *)

Lemma filter_nat_key_unique {A} (key : A -> nat) (k : nat) (l : list A) (x : A) :
  NoDup (map key l) -> In x l -> key x = k ->
  filter (fun y => key y =? k) l = [x].
Proof.
  induction l as [|y l IH]; cbn [map filter In]; [contradiction|].
  intros Hnd Hin Hk. inversion Hnd as [|? ? Hy Hl]; subst.
  destruct Hin as [->|Hin].
  - rewrite Nat.eqb_refl. f_equal. apply filter_none.
    intros z Hz. apply Nat.eqb_neq. intros E. apply Hy.
    rewrite <- E. now apply in_map.
  - destruct (key y =? key x) eqn:E.
    + apply Nat.eqb_eq in E. destruct Hy. rewrite E. now apply in_map.
    + now apply IH.
Qed.

Lemma filter_string_key_unique {A} (key : A -> string) (k : string)
    (l : list A) (x : A) :
  NoDup (map key l) -> In x l -> key x = k ->
  filter (fun y => String.eqb (key y) k) l = [x].
Proof.
  induction l as [|y l IH]; cbn [map filter In]; [contradiction|].
  intros Hnd Hin Hk. inversion Hnd as [|? ? Hy Hl]; subst.
  destruct Hin as [->|Hin].
  - rewrite String.eqb_refl. f_equal. apply filter_none.
    intros z Hz. apply String.eqb_neq. intros E. apply Hy.
    rewrite <- E. now apply in_map.
  - destruct (String.eqb (key y) (key x)) eqn:E.
    + apply String.eqb_eq in E. destruct Hy. rewrite E. now apply in_map.
    + now apply IH.
Qed.

(** [getProfile] looks a profile up by its handle: with handles unique, it
    returns the profile that has the handle, and [null] when there is
    none; it writes nothing. *)
Theorem getProfile_finds_by_handle (handle : string) (m : Machine) :
  let d := disturb (hd calm (events m)) (db m) in
  let r := AsyncExt.run (ApiExt.getProfile handle) m in
  fault (hd calm (events m)) = None ->
  NoDup (map Profile.handle (profiles d)) ->
  (forall p, In p (profiles d) -> Profile.handle p = handle ->
             fst r = Fulfilled (Some p))
  /\ ((forall p, In p (profiles d) -> Profile.handle p <> handle) ->
      fst r = Fulfilled None)
  /\ db (snd r) = d.
Proof.
  intros d r Hfault Hunique. subst r.
  unfold ApiExt.getProfile. cbn [AsyncExt.run AsyncExt.perform].
  rewrite request_answered by exact Hfault. fold d.
  cbn [fst snd StoreExt.exec StoreExt.select_profile].
  split; [|split].
  - intros p Hin Hp.
    now rewrite (filter_string_key_unique Profile.handle _ _ Hunique Hin Hp).
  - intros Hnone. rewrite filter_none; [reflexivity|].
    intros p Hin. apply String.eqb_neq. now apply Hnone.
  - now destruct (maybeSingle _) as [[x|] [e|]].
Qed.

Lemma getProfile_finds_by_handle_witness :
  fst (AsyncExt.run (ApiExt.getProfile "Bob_Designer") (idle Cases.city))
  = Fulfilled (Some Scenario.bob).
Proof.
  refine (proj1 (@getProfile_finds_by_handle "Bob_Designer" (idle Cases.city) eq_refl _)
            Scenario.bob _ eq_refl).
  - repeat constructor; cbn; intuition discriminate.
  - cbn. auto.
Defined.

(** [updateProfile] with at least one column to set, for a user who has a
    profile: it returns the row with the new values, [updated_at] set by
    the trigger; the id, the handle, the admin flag and the date of
    creation of the row stay, a column that is not sent keeps its value,
    and no other profile and no other table changes.  [getProfile] with
    the handle then returns the same row. *)
Lemma updateProfile_round_trip
    (userId : uuid) (updates : StoreExt.ProfileUpdates) (old : Profile.t)
    (m : Machine) :
  let d := disturb (hd calm (events m)) (db m) in
  let r := AsyncExt.run (ApiExt.updateProfile userId updates) m in
  fault (hd calm (events m)) = None ->
  NoDup (map Profile.id (profiles d)) ->
  NoDup (map Profile.handle (profiles d)) ->
  StoreExt.no_column updates = false ->
  In old (profiles d) ->
  Profile.id old = userId ->
  undisturbed (snd r) ->
  exists new,
    fst r = Fulfilled (Some new)
    /\ Profile.id new = userId
    /\ Profile.handle new = Profile.handle old
    /\ Profile.is_admin new = Profile.is_admin old
    /\ Profile.created_at new = Profile.created_at old
    /\ Profile.name new
       = match StoreExt.new_name updates with
         | Some n => n
         | None => Profile.name old
         end
    /\ Profile.bio new
       = match StoreExt.new_bio updates with
         | Some b => Some b
         | None => Profile.bio old
         end
    /\ Profile.avatar_url new
       = match StoreExt.new_avatar_url updates with
         | Some a => Some a
         | None => Profile.avatar_url old
         end
    /\ Profile.updated_at new = Some (now d)
    /\ In new (profiles (db (snd r)))
    /\ (forall p, In p (profiles d) -> Profile.id p <> userId ->
                  In p (profiles (db (snd r))))
    /\ StoreExt.with_profiles (profiles d) (db (snd r)) = d
    /\ fst (AsyncExt.run (ApiExt.getProfile (Profile.handle old)) (snd r))
       = Fulfilled (Some new).
Proof.
  intros d r Hfault Hkey Hhandles Hsent Hold Hid Hquiet.
  set (change := fun q => if Profile.id q =? userId
                          then StoreExt.updated updates (now d) q else q).
  assert (Hrun :
    r = (Fulfilled (Some (StoreExt.updated updates (now d) old)),
         mkMachine (StoreExt.with_profiles (map change (profiles d)) d)
           (console m) (tl (events m)) (schedules m))).
  { subst r. unfold ApiExt.updateProfile. cbn [AsyncExt.run AsyncExt.perform].
    rewrite request_answered by exact Hfault. fold d.
    cbn [fst snd StoreExt.exec]. unfold StoreExt.update_profile.
    rewrite Hsent.
    rewrite (filter_nat_key_unique Profile.id _ _ Hkey Hold Hid).
    reflexivity. }
  assert (Hnew : In (StoreExt.updated updates (now d) old)
                   (profiles (db (snd r)))).
  { rewrite Hrun. cbn [snd db profiles StoreExt.with_profiles].
    apply in_map_iff. exists old. split; [|exact Hold].
    subst change. cbn beta. apply Nat.eqb_eq in Hid. now rewrite Hid. }
  assert (Hhandles' : map Profile.handle (profiles (db (snd r)))
                      = map Profile.handle (profiles d)).
  { rewrite Hrun. cbn [snd db profiles StoreExt.with_profiles].
    rewrite map_map. apply map_ext. intros q. subst change. cbn beta.
    now destruct (Profile.id q =? userId). }
  exists (StoreExt.updated updates (now d) old).
  split; [now rewrite Hrun|].
  do 8 (split; [first [exact Hid | reflexivity]|]).
  split; [exact Hnew|]. split; [|split].
  - intros p Hin Hp. rewrite Hrun. cbn [snd db profiles StoreExt.with_profiles].
    apply in_map_iff. exists p. split; [|exact Hin].
    subst change. cbn beta. apply Nat.eqb_neq in Hp. now rewrite Hp.
  - rewrite Hrun. cbn [snd db]. now destruct d.
  - unfold ApiExt.getProfile. cbn [AsyncExt.run AsyncExt.perform].
    rewrite request_undisturbed by exact Hquiet.
    cbn [fst snd StoreExt.exec StoreExt.select_profile].
    change (profiles (later (snd r))) with (profiles (db (snd r))).
    rewrite (@filter_string_key_unique _ Profile.handle (Profile.handle old)
               (profiles (db (snd r))) (StoreExt.updated updates (now d) old));
      [reflexivity| |exact Hnew|reflexivity].
    now rewrite Hhandles'.
Qed.


(** [updateProfile] for a user without a profile is rejected, as
    [.single()] finds no row, and nothing is written. *)
Lemma updateProfile_unknown_user
    (userId : uuid) (updates : StoreExt.ProfileUpdates) (m : Machine) :
  let d := disturb (hd calm (events m)) (db m) in
  let r := AsyncExt.run (ApiExt.updateProfile userId updates) m in
  fault (hd calm (events m)) = None ->
  profile_exists d userId = false ->
  fst r = Rejected NotSingleRow /\ db (snd r) = d.
Proof.
  intros d r Hfault Hnone. subst r.
  unfold ApiExt.updateProfile. cbn [AsyncExt.run AsyncExt.perform].
  rewrite request_answered by exact Hfault. fold d.
  cbn [fst snd StoreExt.exec]. unfold StoreExt.update_profile.
  destruct (StoreExt.no_column updates); [now cbn|].
  unfold profile_exists in Hnone.
  rewrite (existsb_false_none _ _ Hnone). now cbn.
Qed.

(** [updateProfile] with at least one column to set, for a user who has a
    profile, returns the row with the new values and [updated_at] set by
    the trigger: the id, the handle, the admin flag and the date of
    creation stay, a column that is not sent keeps its value, no other
    profile and no other table changes, and [getProfile] with the handle
    then returns the same row.  For a user without a profile the call is
    rejected, as [.single()] finds no row, and nothing is written. *)
Theorem updateProfile_outcome
    (userId : uuid) (updates : StoreExt.ProfileUpdates) (old : Profile.t)
    (m : Machine) :
  (let d := disturb (hd calm (events m)) (db m) in
   let r := AsyncExt.run (ApiExt.updateProfile userId updates) m in
   fault (hd calm (events m)) = None ->
   NoDup (map Profile.id (profiles d)) ->
   NoDup (map Profile.handle (profiles d)) ->
   StoreExt.no_column updates = false ->
   In old (profiles d) ->
   Profile.id old = userId ->
   undisturbed (snd r) ->
   exists new,
     fst r = Fulfilled (Some new)
     /\ Profile.id new = userId
     /\ Profile.handle new = Profile.handle old
     /\ Profile.is_admin new = Profile.is_admin old
     /\ Profile.created_at new = Profile.created_at old
     /\ Profile.name new
        = match StoreExt.new_name updates with
          | Some n => n
          | None => Profile.name old
          end
     /\ Profile.bio new
        = match StoreExt.new_bio updates with
          | Some b => Some b
          | None => Profile.bio old
          end
     /\ Profile.avatar_url new
        = match StoreExt.new_avatar_url updates with
          | Some a => Some a
          | None => Profile.avatar_url old
          end
     /\ Profile.updated_at new = Some (now d)
     /\ In new (profiles (db (snd r)))
     /\ (forall p, In p (profiles d) -> Profile.id p <> userId ->
                   In p (profiles (db (snd r))))
     /\ StoreExt.with_profiles (profiles d) (db (snd r)) = d
     /\ fst (AsyncExt.run (ApiExt.getProfile (Profile.handle old)) (snd r))
        = Fulfilled (Some new))
  /\ (let d := disturb (hd calm (events m)) (db m) in
      let r := AsyncExt.run (ApiExt.updateProfile userId updates) m in
      fault (hd calm (events m)) = None ->
      profile_exists d userId = false ->
      fst r = Rejected NotSingleRow /\ db (snd r) = d).
Proof.
  split.
  - exact (@updateProfile_round_trip userId updates old m).
  - exact (@updateProfile_unknown_user userId updates m).
Qed.

Lemma updateProfile_outcome_witness :
  exists new,
    fst (AsyncExt.run
           (ApiExt.updateProfile 2 (StoreExt.mkUpdates None (Some "hi"%string) None))
           (idle Cases.city))
    = Fulfilled (Some new)
    /\ Profile.handle new = "Bob_Designer"%string
    /\ Profile.bio new = Some "hi"%string.
Proof.
  assert (Hkey : NoDup (map Profile.id (profiles Cases.city)))
    by (repeat constructor; cbn; intuition discriminate).
  assert (Hhandles : NoDup (map Profile.handle (profiles Cases.city)))
    by (repeat constructor; cbn; intuition discriminate).
  destruct (proj1 (@updateProfile_outcome 2
                     (StoreExt.mkUpdates None (Some "hi"%string) None) Scenario.bob
                     (idle Cases.city))
              eq_refl Hkey Hhandles eq_refl
              (or_intror (or_introl eq_refl)) eq_refl (Forall_nil _))
    as (new & H1 & _ & H3 & _ & _ & _ & H7 & _).
  exists new. exact (conj H1 (conj H3 H7)).
Defined.


(* ===================================================================== *)
(** * The constraints of the schema are kept                              *)
(* ===================================================================== *)

Import Integrity.

Lemma Forall_filter_keep {A} (P : A -> Prop) (f : A -> bool) (l : list A) :
  Forall P l -> Forall P (filter f l).
Proof.
  intros H. apply Forall_forall. intros x Hx. apply filter_In in Hx as [Hx _].
  revert x Hx. now apply Forall_forall.
Qed.

Lemma NoDup_map_filter {A B} (f : A -> B) (g : A -> bool) (l : list A) :
  NoDup (map f l) -> NoDup (map f (filter g l)).
Proof.
  induction l as [|x l IH]; cbn; [auto|].
  intros H. inversion H as [|? ? Hx Hl]; subst.
  destruct (g x); cbn; [|auto].
  constructor; [|auto]. intros Hin. apply Hx.
  apply in_map_iff in Hin as (y & Hy & Hin). apply filter_In in Hin as [Hin _].
  rewrite <- Hy. now apply in_map.
Qed.

Lemma NoDup_snoc {A} (l : list A) (x : A) :
  NoDup l -> ~ In x l -> NoDup (l ++ [x]).
Proof.
  intros Hl Hx. apply NoDup_app; [exact Hl|repeat constructor; auto|].
  intros y Hy [<-|[]]. contradiction.
Qed.

Lemma NoDup_map_snoc {A B} (f : A -> B) (l : list A) (x : A) :
  NoDup (map f l) -> ~ In (f x) (map f l) -> NoDup (map f (l ++ [x])).
Proof. intros Hl Hx. rewrite map_app. cbn. now apply NoDup_snoc. Qed.

Lemma fresh_not_In {A} (key : A -> nat) (n : nat) (l : list A) :
  Forall (fun x => key x < n) l -> ~ In n (map key l).
Proof.
  intros H Hin. apply in_map_iff in Hin as (x & Hx & Hin).
  rewrite Forall_forall in H. specialize (H x Hin). lia.
Qed.

Lemma fresh_later {A} (key : A -> nat) (n n' : nat) (l : list A) :
  n <= n' -> Forall (fun x => key x < n) l -> Forall (fun x => key x < n') l.
Proof. intros Hn. apply Forall_impl. intros x Hx. lia. Qed.

Lemma Forall_snoc {A} (P : A -> Prop) (l : list A) (x : A) :
  Forall P l -> P x -> Forall P (l ++ [x]).
Proof. intros Hl Hx. apply Forall_app. split; [exact Hl|now constructor]. Qed.

Ltac fields H :=
  destruct H as [Kprof Khand Kpost Kcont Kauth Kdel Kfu Kfi Kfr Klu Klr
                 Khk Khu Khf Kphk Kphr Kmr Klpk Klpu Kplk Kplr Kpf Khfr Klpf].

Lemma consistent_with_now (t : timestamptz) (d : Db) :
  consistent d -> consistent (with_now t d).
Proof. intros H. fields H. constructor; assumption. Qed.


Lemma existsb_snoc_mono {A} (f : A -> bool) (l : list A) (x : A) :
  existsb f l = true -> existsb f (l ++ [x]) = true.
Proof. intros H. rewrite existsb_app, H. reflexivity. Qed.

Lemma existsb_app_mono {A} (f : A -> bool) (l l' : list A) :
  existsb f l = true -> existsb f (l ++ l') = true.
Proof. intros H. rewrite existsb_app, H. reflexivity. Qed.

Lemma existsb_filter_other {A} (key : A -> nat) (i j : nat) (l : list A) :
  i <> j ->
  existsb (fun x => key x =? i) (filter (fun x => negb (key x =? j)) l)
  = existsb (fun x => key x =? i) l.
Proof.
  intros Hij. induction l as [|x l IH]; cbn; [reflexivity|].
  destruct (key x =? j) eqn:E; cbn; [|now rewrite IH].
  apply Nat.eqb_eq in E. rewrite IH.
  replace (key x =? i) with false; [reflexivity|].
  symmetry. apply Nat.eqb_neq. congruence.
Qed.

Lemma existsb_map_same_key {A} (key : A -> nat) (g : A -> A) (i : nat) (l : list A) :
  (forall x, key (g x) = key x) ->
  existsb (fun x => key x =? i) (map g l) = existsb (fun x => key x =? i) l.
Proof.
  intros Hg. induction l as [|x l IH]; cbn; [reflexivity|].
  now rewrite Hg, IH.
Qed.

Lemma existsb_pair_In {A} (f : A -> bool) (pair : A -> nat * nat) (l : list A)
    (a b : nat) :
  (forall x, f x = true <-> pair x = (a, b)) ->
  existsb f l = false -> ~ In (a, b) (map pair l).
Proof.
  intros Hf Hnone Hin. apply in_map_iff in Hin as (x & Hx & Hin).
  assert (existsb f l = true); [|congruence].
  apply existsb_exists. exists x. split; [exact Hin|]. now apply Hf.
Qed.

Lemma existsb_string_In {A} (key : A -> string) (k : string) (l : list A) :
  existsb (fun x => String.eqb (key x) k) l = false -> ~ In k (map key l).
Proof.
  intros Hnone Hin. apply in_map_iff in Hin as (x & Hx & Hin).
  assert (existsb (fun x => String.eqb (key x) k) l = true); [|congruence].
  apply existsb_exists. exists x. split; [exact Hin|]. now apply String.eqb_eq.
Qed.

(** The rows that an upsert leaves in a junction table satisfy what the
    rows of the table satisfied and the foreign keys. *)
Lemma upsert_post_hashtags_refs (d : Db) (rows table table' : list PostHashtag.t) :
  Forall (fun l => post_exists d (PostHashtag.post_id l) = true
                   /\ hashtag_exists d (PostHashtag.hashtag_id l) = true) table ->
  upsert_post_hashtags_rows d rows table = inr table' ->
  Forall (fun l => post_exists d (PostHashtag.post_id l) = true
                   /\ hashtag_exists d (PostHashtag.hashtag_id l) = true) table'.
Proof.
  revert table. induction rows as [|r rows IH]; intros table Hrefs; simpl.
  - now intros [= <-].
  - destruct (existsb (same_post_hashtag r) table); [now apply IH|].
    destruct (post_exists d (PostHashtag.post_id r)) eqn:Ep; [|discriminate].
    destruct (hashtag_exists d (PostHashtag.hashtag_id r)) eqn:Eh; [|discriminate].
    cbn. apply IH. apply Forall_snoc; auto.
Qed.

Lemma same_post_link_eq (a b : PostLink.t) :
  same_post_link a b = true <-> a = b.
Proof.
  destruct a as [p l], b as [p' l']. unfold same_post_link; simpl.
  rewrite andb_true_iff, !Nat.eqb_eq. split; [intros [-> ->]|intros [= -> ->]]; auto.
Qed.

Lemma upsert_post_links_NoDup (d : Db) (rows table table' : list PostLink.t) :
  NoDup table ->
  upsert_post_links_rows d rows table = inr table' -> NoDup table'.
Proof.
  revert table. induction rows as [|r rows IH]; intros table Hnd; simpl.
  - now intros [= <-].
  - destruct (existsb (same_post_link r) table) eqn:E; [now apply IH|].
    destruct (negb (post_exists d (PostLink.post_id r))); [discriminate|].
    destruct (negb (link_preview_exists d (PostLink.link_preview_id r)));
      [discriminate|].
    apply IH. apply NoDup_snoc; [exact Hnd|].
    intros Hin. assert (existsb (same_post_link r) table = true); [|congruence].
    apply existsb_exists. exists r. split; [exact Hin|now apply same_post_link_eq].
Qed.

Lemma upsert_post_links_refs (d : Db) (rows table table' : list PostLink.t) :
  Forall (fun l => post_exists d (PostLink.post_id l) = true
                   /\ link_preview_exists d (PostLink.link_preview_id l) = true)
    table ->
  upsert_post_links_rows d rows table = inr table' ->
  Forall (fun l => post_exists d (PostLink.post_id l) = true
                   /\ link_preview_exists d (PostLink.link_preview_id l) = true)
    table'.
Proof.
  revert table. induction rows as [|r rows IH]; intros table Hrefs; simpl.
  - now intros [= <-].
  - destruct (existsb (same_post_link r) table); [now apply IH|].
    destruct (post_exists d (PostLink.post_id r)) eqn:Ep; [|discriminate].
    destruct (link_preview_exists d (PostLink.link_preview_id r)) eqn:El;
      [|discriminate].
    cbn. apply IH. apply Forall_snoc; auto.
Qed.

Lemma mention_rows_refs (d : Db) (rows : list (uuid * uuid)) :
  forallb (fun r => post_exists d (fst r)) rows = true ->
  forallb (fun r => profile_exists d (snd r)) rows = true ->
  forall (id : uuid) (t : timestamptz),
  Forall (fun m => post_exists d (Mention.post_id m) = true
                   /\ profile_exists d (Mention.user_id m) = true)
    (mention_rows id t rows).
Proof.
  induction rows as [|[p u] rows IH]; cbn; intros Hp Hu id t; [constructor|].
  apply andb_prop in Hp as [Hp Hps]. apply andb_prop in Hu as [Hu Hus].
  constructor; [now split|now apply IH].
Qed.

(** Rows that refer to a post or a row of a table that has only grown
    still refer to it. *)
Ltac tables :=
  cbn [profiles posts follows likes hashtags post_hashtags mentions
       link_previews post_links uuid_next now
       StoreExt.with_profiles with_posts with_follows with_likes with_hashtags
       with_post_hashtags with_mentions with_link_previews with_post_links
       with_uuid_next with_now].

Ltac grown K :=
  eapply Forall_impl; [|exact K]; cbv beta; intros ? [? ?]; split;
  try assumption;
  unfold post_exists, hashtag_exists, link_preview_exists, profile_exists in *;
  tables;
  first [apply existsb_snoc_mono | apply existsb_app_mono]; assumption.

Lemma existsb_filter_deletable (auth_uid : option uuid) (i j : uuid)
    (l : list Post.t) :
  i <> j ->
  existsb (fun p => Post.id p =? i)
    (filter (fun p => negb (deletable auth_uid j p)) l)
  = existsb (fun p => Post.id p =? i) l.
Proof.
  intros Hij. induction l as [|p l IH]; cbn; [reflexivity|].
  destruct (deletable auth_uid j p) eqn:E; cbn; [|now rewrite IH].
  apply deletable_iff in E as [E _]. rewrite IH.
  replace (Post.id p =? i) with false; [reflexivity|].
  symmetry. apply Nat.eqb_neq. congruence.
Qed.

(** Rows that are left after the rows of a post were removed do not refer
    to that post. *)
Ltac removed K :=
  let x := fresh "x" in
  let Hx := fresh "Hx" in
  let Hk := fresh "Hk" in
  apply Forall_forall; intros x Hx; apply filter_In in Hx as [Hx Hk];
  rewrite Forall_forall in K; destruct (K x Hx) as [? ?]; split;
  try assumption;
  unfold post_exists in *; tables;
  rewrite existsb_filter_deletable;
  [assumption|apply negb_true_iff, Nat.eqb_neq in Hk; exact Hk].

Ltac later_ids K d :=
  apply fresh_later with (n := uuid_next d); [lia|exact K].

Lemma exec_consistent {X} (q : Request X) (d : Db) :
  consistent d -> consistent (snd (exec q d)).
Proof.
  intros H. destruct q; cbn [exec snd]; try exact H.
  - (* InsertPost *)
    unfold insert_post.
    destruct (content_length content) eqn:Elen; [|exact H].
    destruct (profile_exists d user_id) eqn:Eauthor; [|exact H].
    cbn [negb snd]. fields H. constructor; try assumption; tables.
    + apply NoDup_map_snoc; [assumption|now apply fresh_not_In].
    + now apply Forall_snoc.
    + now apply Forall_snoc.
    + now apply Forall_snoc.
    + grown Klr.
    + grown Kphr.
    + grown Kmr.
    + grown Kplr.
    + apply Forall_snoc; [apply fresh_later with (n := uuid_next d); [lia|assumption]
                         |cbn; lia].
    + apply fresh_later with (n := uuid_next d); [lia|assumption].
    + apply fresh_later with (n := uuid_next d); [lia|assumption].
  - (* DeletePost *)
    unfold delete_post.
    destruct (existsb (deletable auth_uid id) (posts d)); [|exact H].
    cbn [snd]. fields H. constructor; try assumption; tables.
    + now apply NoDup_map_filter.
    + now apply Forall_filter_keep.
    + now apply Forall_filter_keep.
    + now apply Forall_filter_keep.
    + now apply NoDup_map_filter.
    + removed Klr.
    + now apply NoDup_filter.
    + removed Kphr.
    + removed Kmr.
    + now apply NoDup_filter.
    + removed Kplr.
    + now apply Forall_filter_keep.
  - (* InsertFollow *)
    unfold insert_follow.
    destruct (follower_id =? following_id) eqn:Eself; [exact H|].
    destruct (existsb (is_follow follower_id following_id) (follows d)) eqn:Enew;
      [exact H|].
    destruct (profile_exists d follower_id) eqn:Ea; [|exact H].
    destruct (profile_exists d following_id) eqn:Eb; [|exact H].
    cbn [negb snd]. fields H. constructor; try assumption; tables.
    + apply NoDup_map_snoc; [assumption|].
      apply existsb_pair_In with (f := is_follow follower_id following_id);
        [|exact Enew].
      intros x. unfold follow_pair. rewrite is_follow_pair.
      split; [now intros [-> ->]|now intros [= -> ->]].
    + apply Forall_snoc; [assumption|]. cbn. now apply Nat.eqb_neq.
    + apply Forall_snoc; [assumption|]. cbn. now split.
    + later_ids Kpf d.
    + later_ids Khfr d.
    + later_ids Klpf d.
  - (* DeleteFollow *)
    cbn [delete_follow snd]. fields H. constructor; try assumption; tables.
    + now apply NoDup_map_filter.
    + now apply Forall_filter_keep.
    + now apply Forall_filter_keep.
  - (* InsertHashtag *)
    unfold insert_hashtag.
    destruct (tag_format tag) eqn:Eformat; [|exact H].
    destruct (existsb (fun h => String.eqb (Hashtag.tag h) tag) (hashtags d))
      eqn:Enew; [exact H|].
    cbn [negb snd]. fields H. constructor; try assumption; tables.
    + apply NoDup_map_snoc; [assumption|now apply fresh_not_In].
    + apply NoDup_map_snoc; [assumption|]. cbn. now apply existsb_string_In.
    + now apply Forall_snoc.
    + grown Kphr.
    + later_ids Kpf d.
    + apply Forall_snoc; [later_ids Khfr d|cbn; lia].
    + later_ids Klpf d.
  - (* UpsertPostHashtags *)
    unfold upsert_post_hashtags.
    destruct (upsert_post_hashtags_rows d rows (post_hashtags d)) as [e|table]
      eqn:E; [exact H|].
    cbn [snd]. fields H. constructor; try assumption; tables.
    + eapply upsert_rows_NoDup; [|exact E]. assumption.
    + eapply upsert_post_hashtags_refs in E; [exact E|exact Kphr].
  - (* InsertMentions *)
    unfold insert_mentions.
    destruct (forallb (fun r => post_exists d (fst r)) rows) eqn:Ep; [|exact H].
    destruct (forallb (fun r => profile_exists d (snd r)) rows) eqn:Eu; [|exact H].
    cbn [negb snd]. fields H. constructor; try assumption; tables.
    + apply Forall_app. split; [assumption|now apply mention_rows_refs].
    + later_ids Kpf d.
    + later_ids Khfr d.
    + later_ids Klpf d.
  - (* InsertLinkPreview *)
    unfold insert_link_preview.
    destruct (existsb (fun l => String.eqb (LinkPreview.url l) url) (link_previews d))
      eqn:Enew; [exact H|].
    cbn [snd]. fields H. constructor; try assumption; tables.
    + apply NoDup_map_snoc; [assumption|now apply fresh_not_In].
    + apply NoDup_map_snoc; [assumption|]. cbn. now apply existsb_string_In.
    + grown Kplr.
    + later_ids Kpf d.
    + later_ids Khfr d.
    + apply Forall_snoc; [later_ids Klpf d|cbn; lia].
  - (* UpsertPostLinks *)
    unfold upsert_post_links.
    destruct (upsert_post_links_rows d rows (post_links d)) as [e|table]
      eqn:E; [exact H|].
    cbn [snd]. fields H. constructor; try assumption; tables.
    + eapply upsert_post_links_NoDup; [|exact E]. assumption.
    + eapply upsert_post_links_refs in E; [exact E|exact Kplr].
Qed.

(** Rows that refer to a post or a profile still refer to it after an
    update that keeps the ids. *)
Ltac remapped K :=
  eapply Forall_impl; [|exact K]; cbv beta; intros ? [? ?]; split;
  try assumption;
  unfold post_exists, profile_exists in *; tables;
  (rewrite existsb_map_same_key;
   [assumption
   |let q := fresh "q" in
    intros q;
    match goal with |- context [if ?c then _ else _] => now destruct c end]).

Lemma map_same_key {A B} (key : A -> B) (g : A -> A) (l : list A) :
  (forall x, key (g x) = key x) -> map key (map g l) = map key l.
Proof. intros Hg. rewrite map_map. now apply map_ext. Qed.

Lemma ext_exec_consistent {X} (q : StoreExt.Request X) (d : Db) :
  consistent d -> consistent (snd (StoreExt.exec q d)).
Proof.
  intros H. destruct q; cbn [StoreExt.exec snd]; try exact H.
  - (* SoftDeletePost *)
    rewrite soft_delete_post_refused. exact H.
  - (* UpdateProfile *)
    unfold StoreExt.update_profile.
    destruct (StoreExt.no_column updates); [exact H|].
    destruct (filter (fun p => Profile.id p =? id) (profiles d)) as [|p [|p' ps]];
      try exact H.
    cbn [snd]. fields H. constructor; try assumption; tables.
    + rewrite map_same_key; [assumption|].
      intros q. now destruct (Profile.id q =? id).
    + rewrite map_same_key; [assumption|].
      intros q. now destruct (Profile.id q =? id).
    + eapply Forall_impl; [|exact Kauth]. cbv beta. intros q Hq.
      unfold profile_exists in *. tables.
      rewrite existsb_map_same_key; [exact Hq|].
      intros x. now destruct (Profile.id x =? id).
    + eapply Forall_impl; [|exact Kdel]. cbv beta. intros q Hq.
      destruct (Post.deleted_by q); [|exact I].
      unfold profile_exists in *. tables.
      rewrite existsb_map_same_key; [exact Hq|].
      intros x. now destruct (Profile.id x =? id).
    + remapped Kfr.
    + remapped Klr.
    + remapped Kmr.
  - (* InsertLike *)
    unfold StoreExt.insert_like.
    destruct (existsb (StoreExt.is_like user_id post_id) (likes d)) eqn:Enew;
      [exact H|].
    destruct (profile_exists d user_id) eqn:Eu; [|exact H].
    destruct (post_exists d post_id) eqn:Ep; [|exact H].
    cbn [negb snd]. fields H. constructor; try assumption; tables.
    + apply NoDup_map_snoc; [assumption|].
      apply existsb_pair_In with (f := StoreExt.is_like user_id post_id);
        [|exact Enew].
      intros x. unfold like_pair, StoreExt.is_like.
      rewrite andb_true_iff, !Nat.eqb_eq.
      split; [now intros [-> ->]|now intros [= -> ->]].
    + apply Forall_snoc; [assumption|]. cbn. now split.
    + later_ids Kpf d.
    + later_ids Khfr d.
    + later_ids Klpf d.
  - (* DeleteLike *)
    cbn [StoreExt.delete_like snd]. fields H. constructor; try assumption; tables.
    + now apply NoDup_map_filter.
    + now apply Forall_filter_keep.
Qed.

(** ** From one request to a whole program *)

Lemma disturb_consistent (ev : Event) (d : Db) :
  Forall (fun f => forall d, consistent d -> consistent (exec_foreign f d))
    (concurrent ev) ->
  consistent d -> consistent (disturb ev d).
Proof.
  intros Hciv Hd. unfold disturb. apply consistent_with_now.
  revert d Hd. induction Hciv as [|f fs Hf _ IH]; intros d Hd; cbn; [exact Hd|].
  apply IH. now apply Hf.
Qed.

Lemma civil_hd (m : Machine) :
  civil m ->
  Forall (fun f => forall d, consistent d -> consistent (exec_foreign f d))
    (concurrent (hd calm (events m))).
Proof.
  unfold civil. destruct (events m); cbn; [constructor|].
  intros H. now inversion H.
Qed.

Lemma civil_next (m : Machine) (d : Db) :
  civil m -> civil (mkMachine d (console m) (tl (events m)) (schedules m)).
Proof.
  unfold civil. cbn. destruct (events m); cbn; [auto|].
  intros H. now inversion H.
Qed.

Lemma perform_consistent {R} (eff : Effect R) (m : Machine) :
  civil m -> consistent (db m) ->
  civil (snd (perform eff m)) /\ consistent (db (snd (perform eff m))).
Proof.
  intros Hciv Hd. destruct eff as [X q|line|]; cbn [perform].
  - pose proof (disturb_consistent _ (civil_hd Hciv) Hd) as Hd'.
    destruct (fault (hd calm (events m))); cbn [snd db].
    + split; [now apply civil_next|exact Hd'].
    + split; [now apply civil_next|now apply exec_consistent].
  - cbn. now split.
  - cbn. now split.
Qed.

Lemma run_consistent {A} (p : Prog A) :
  forall m, civil m -> consistent (db m) -> consistent (db (snd (run p m))).
Proof.
  induction p as [a|e|R eff k IH]; intros m Hciv Hd; cbn [run snd]; [exact Hd..|].
  destruct (perform_consistent eff Hciv Hd) as [Hciv' Hd'].
  now apply IH.
Qed.

Lemma request_consistent {R} (onFault : Error -> R) (answer : Db -> R * Db)
    (m : Machine) :
  (forall d, consistent d -> consistent (snd (answer d))) ->
  civil m -> consistent (db m) ->
  civil (snd (AsyncExt.request onFault answer m))
  /\ consistent (db (snd (AsyncExt.request onFault answer m))).
Proof.
  intros Hanswer Hciv Hd. unfold AsyncExt.request.
  pose proof (disturb_consistent _ (civil_hd Hciv) Hd) as Hd'.
  destruct (fault (hd calm (events m))); cbn [snd db].
  - split; [now apply civil_next|exact Hd'].
  - split; [now apply civil_next|now apply Hanswer].
Qed.

Lemma ext_perform_consistent {R} (eff : AsyncExt.Effect R) (m : Machine) :
  civil m -> consistent (db m) ->
  civil (snd (AsyncExt.perform eff m))
  /\ consistent (db (snd (AsyncExt.perform eff m))).
Proof.
  intros Hciv Hd. destruct eff as [R eff|X q|q]; cbn [AsyncExt.perform].
  - now apply perform_consistent.
  - apply request_consistent; [|exact Hciv|exact Hd].
    intros d. apply ext_exec_consistent.
  - apply request_consistent; [|exact Hciv|exact Hd]. now cbn.
Qed.

Lemma ext_run_consistent {A} (p : AsyncExt.Prog A) :
  forall m, civil m -> consistent (db m) ->
  consistent (db (snd (AsyncExt.run p m))).
Proof.
  induction p as [a|e|R eff k IH]; intros m Hciv Hd; cbn [AsyncExt.run snd];
    [exact Hd..|].
  destruct (ext_perform_consistent eff Hciv Hd) as [Hciv' Hd'].
  now apply IH.
Qed.

(** ** The rest of the schema *)

Ltac keys H :=
  destruct H as [Gfk Glk Gmk Gff Glf Gmf Ghl Ghf].

Lemma generated_with_now (t : timestamptz) (d : Db) :
  generated d -> generated (with_now t d).
Proof. intros H. keys H. constructor; assumption. Qed.

Lemma mention_rows_ids (rows : list (uuid * uuid)) :
  forall (id : uuid) (t : timestamptz),
  map Mention.id (mention_rows id t rows) = seq id (List.length rows).
Proof.
  induction rows as [|[p u] rows IH]; intros id t; cbn; [reflexivity|].
  now rewrite IH.
Qed.

Lemma exec_generated {X} (q : Request X) (d : Db) :
  generated d -> generated (snd (exec q d)).
Proof.
  intros H. destruct q; cbn [exec snd]; try exact H.
  - (* InsertPost *)
    unfold insert_post.
    destruct (content_length content); [|exact H].
    destruct (profile_exists d user_id); [|exact H].
    cbn [negb snd]. keys H. constructor; try assumption; tables.
    + later_ids Gff d.
    + later_ids Glf d.
    + later_ids Gmf d.
  - (* DeletePost *)
    unfold delete_post.
    destruct (existsb (deletable auth_uid id) (posts d)); [|exact H].
    cbn [snd]. keys H. constructor; try assumption; tables.
    + now apply NoDup_map_filter.
    + now apply NoDup_map_filter.
    + now apply Forall_filter_keep.
    + now apply Forall_filter_keep.
  - (* InsertFollow *)
    unfold insert_follow.
    destruct (follower_id =? following_id); [exact H|].
    destruct (existsb (is_follow follower_id following_id) (follows d)); [exact H|].
    destruct (profile_exists d follower_id); [|exact H].
    destruct (profile_exists d following_id); [|exact H].
    cbn [negb snd]. keys H. constructor; try assumption; tables.
    + apply NoDup_map_snoc; [assumption|now apply fresh_not_In].
    + apply Forall_snoc; [later_ids Gff d|cbn; lia].
    + later_ids Glf d.
    + later_ids Gmf d.
  - (* DeleteFollow *)
    cbn [delete_follow snd]. keys H. constructor; try assumption; tables.
    + now apply NoDup_map_filter.
    + now apply Forall_filter_keep.
  - (* InsertHashtag *)
    unfold insert_hashtag.
    destruct (tag_format tag); [|exact H].
    destruct (existsb (fun h => String.eqb (Hashtag.tag h) tag) (hashtags d));
      [exact H|].
    cbn [negb snd]. keys H. constructor; try assumption; tables.
    + later_ids Gff d.
    + later_ids Glf d.
    + later_ids Gmf d.
  - (* UpsertPostHashtags *)
    unfold upsert_post_hashtags.
    destruct (upsert_post_hashtags_rows d rows (post_hashtags d)); [exact H|].
    cbn [snd]. keys H. constructor; assumption.
  - (* InsertMentions *)
    unfold insert_mentions.
    destruct (forallb (fun r => post_exists d (fst r)) rows); [|exact H].
    destruct (forallb (fun r => profile_exists d (snd r)) rows); [|exact H].
    cbn [negb snd]. keys H. constructor; try assumption; tables.
    + rewrite map_app, mention_rows_ids. apply NoDup_app.
      * assumption.
      * apply seq_NoDup.
      * intros i Hi Hseq. apply in_seq in Hseq.
        apply in_map_iff in Hi as (x & Hx & Hi).
        rewrite Forall_forall in Gmf. specialize (Gmf x Hi). lia.
    + later_ids Gff d.
    + later_ids Glf d.
    + apply Forall_app. split; [later_ids Gmf d|].
      apply Forall_forall. intros x Hx.
      assert (Hid : In (Mention.id x)
                      (map Mention.id (mention_rows (uuid_next d) (now d) rows)))
        by now apply in_map.
      rewrite mention_rows_ids in Hid. apply in_seq in Hid. lia.
  - (* InsertLinkPreview *)
    unfold insert_link_preview.
    destruct (existsb (fun l => String.eqb (LinkPreview.url l) url) (link_previews d));
      [exact H|].
    cbn [snd]. keys H. constructor; try assumption; tables.
    + later_ids Gff d.
    + later_ids Glf d.
    + later_ids Gmf d.
  - (* UpsertPostLinks *)
    unfold upsert_post_links.
    destruct (upsert_post_links_rows d rows (post_links d)); [exact H|].
    cbn [snd]. keys H. constructor; assumption.
Qed.

Lemma ext_exec_generated {X} (q : StoreExt.Request X) (d : Db) :
  generated d -> generated (snd (StoreExt.exec q d)).
Proof.
  intros H. destruct q; cbn [StoreExt.exec snd]; try exact H.
  - (* SoftDeletePost *)
    rewrite soft_delete_post_refused. exact H.
  - (* UpdateProfile *)
    unfold StoreExt.update_profile.
    destruct (StoreExt.no_column updates); [exact H|].
    destruct (filter (fun p => Profile.id p =? id) (profiles d)) as [|p [|p' ps]];
      try exact H.
    cbn [snd]. keys H. constructor; try assumption; tables.
    + apply Forall_map. eapply Forall_impl; [|exact Ghl].
      cbv beta. intros q Hq. now destruct (Profile.id q =? id).
    + apply Forall_map. eapply Forall_impl; [|exact Ghf].
      cbv beta. intros q Hq. now destruct (Profile.id q =? id).
  - (* InsertLike *)
    unfold StoreExt.insert_like.
    destruct (existsb (StoreExt.is_like user_id post_id) (likes d)); [exact H|].
    destruct (profile_exists d user_id); [|exact H].
    destruct (post_exists d post_id); [|exact H].
    cbn [negb snd]. keys H. constructor; try assumption; tables.
    + apply NoDup_map_snoc; [assumption|now apply fresh_not_In].
    + later_ids Gff d.
    + apply Forall_snoc; [later_ids Glf d|cbn; lia].
    + later_ids Gmf d.
  - (* DeleteLike *)
    cbn [StoreExt.delete_like snd]. keys H. constructor; try assumption; tables.
    + now apply NoDup_map_filter.
    + now apply Forall_filter_keep.
Qed.

Lemma exec_schema {X} (q : Request X) (d : Db) :
  schema d -> schema (snd (exec q d)).
Proof.
  intros [Hc Hg]. split; [now apply exec_consistent|now apply exec_generated].
Qed.

Lemma ext_exec_schema {X} (q : StoreExt.Request X) (d : Db) :
  schema d -> schema (snd (StoreExt.exec q d)).
Proof.
  intros [Hc Hg].
  split; [now apply ext_exec_consistent|now apply ext_exec_generated].
Qed.

(** A request of another client keeps the schema, as ours do. *)
Lemma foreign_request_lawful {X} (q : Request X) (d : Db) :
  schema d -> schema (exec_foreign (foreign q) d).
Proof. apply exec_schema. Qed.

Lemma disturb_schema (ev : Event) (d : Db) :
  Forall (fun f => forall d, schema d -> schema (exec_foreign f d))
    (concurrent ev) ->
  schema d -> schema (disturb ev d).
Proof.
  intros Hlaw Hd. unfold disturb.
  assert (Hnow : forall t d', schema d' -> schema (with_now t d')).
  { intros t d' [Hc Hg].
    split; [now apply consistent_with_now|now apply generated_with_now]. }
  apply Hnow.
  revert d Hd. induction Hlaw as [|f fs Hf _ IH]; intros d Hd; cbn; [exact Hd|].
  apply IH. now apply Hf.
Qed.

Lemma lawful_hd (m : Machine) :
  lawful m ->
  Forall (fun f => forall d, schema d -> schema (exec_foreign f d))
    (concurrent (hd calm (events m))).
Proof.
  unfold lawful. destruct (events m); cbn; [constructor|].
  intros H. now inversion H.
Qed.

Lemma lawful_next (m : Machine) (d : Db) :
  lawful m -> lawful (mkMachine d (console m) (tl (events m)) (schedules m)).
Proof.
  unfold lawful. cbn. destruct (events m); cbn; [auto|].
  intros H. now inversion H.
Qed.

Lemma perform_schema {R} (eff : Effect R) (m : Machine) :
  lawful m -> schema (db m) -> kept (perform eff m).
Proof.
  intros Hlaw Hd. unfold kept. destruct eff as [X q|line|]; cbn [perform].
  - pose proof (disturb_schema _ (lawful_hd Hlaw) Hd) as Hd'.
    destruct (fault (hd calm (events m))); cbn [snd db].
    + split; [now apply lawful_next|exact Hd'].
    + split; [now apply lawful_next|now apply exec_schema].
  - cbn. now split.
  - cbn. now split.
Qed.

Lemma run_schema {A} (p : Prog A) :
  forall m, lawful m -> schema (db m) -> kept (run p m).
Proof.
  induction p as [a|e|R eff k IH]; intros m Hlaw Hd; cbn [run];
    [now split..|].
  destruct (perform_schema eff Hlaw Hd) as [Hlaw' Hd'].
  now apply IH.
Qed.

Lemma request_schema {R} (onFault : Error -> R) (answer : Db -> R * Db)
    (m : Machine) :
  (forall d, schema d -> schema (snd (answer d))) ->
  lawful m -> schema (db m) ->
  kept (AsyncExt.request onFault answer m).
Proof.
  intros Hanswer Hlaw Hd. unfold kept, AsyncExt.request.
  pose proof (disturb_schema _ (lawful_hd Hlaw) Hd) as Hd'.
  destruct (fault (hd calm (events m))); cbn [snd db].
  - split; [now apply lawful_next|exact Hd'].
  - split; [now apply lawful_next|now apply Hanswer].
Qed.

Lemma ext_perform_schema {R} (eff : AsyncExt.Effect R) (m : Machine) :
  lawful m -> schema (db m) -> kept (AsyncExt.perform eff m).
Proof.
  intros Hlaw Hd. destruct eff as [R eff|X q|q]; cbn [AsyncExt.perform].
  - now apply perform_schema.
  - apply request_schema; [|exact Hlaw|exact Hd].
    intros d. apply ext_exec_schema.
  - apply request_schema; [|exact Hlaw|exact Hd]. now cbn.
Qed.

Lemma ext_run_schema {A} (p : AsyncExt.Prog A) :
  forall m, lawful m -> schema (db m) -> kept (AsyncExt.run p m).
Proof.
  induction p as [a|e|R eff k IH]; intros m Hlaw Hd; cbn [AsyncExt.run];
    [now split..|].
  destruct (ext_perform_schema eff Hlaw Hd) as [Hlaw' Hd'].
  now apply IH.
Qed.

(** Every function of api.ts that talks to the store, whatever it is
    called with, leaves a store that meets the schema of the migration
    (every primary key, unique constraint, check and foreign key) in a
    state that meets it, as long as the other clients cannot break it
    either; and it leaves the other clients as lawful as they were, so
    that the same holds for the next call, and for calls in any number
    and order. *)
Theorem api_keeps_the_constraints (m : Machine) :
  lawful m ->
  schema (db m) ->
  (forall userId content imageUrl,
     kept (run (createPost userId content imageUrl) m))
  /\ (forall auth_uid postId, kept (run (deletePost auth_uid postId) m))
  /\ (forall auth_uid today postId adminId,
        kept (AsyncExt.run (ApiExt.softDeletePost auth_uid today postId adminId) m))
  /\ (forall userId cursor limit, kept (run (getHomeFeed userId cursor limit) m))
  /\ (forall userId cursor limit, kept (run (getUserPosts userId cursor limit) m))
  /\ (forall handle, kept (AsyncExt.run (ApiExt.getProfile handle) m))
  /\ (forall userId updates,
        kept (AsyncExt.run (ApiExt.updateProfile userId updates) m))
  /\ (forall followerId followingId,
        kept (run (followUser followerId followingId) m))
  /\ (forall followerId followingId,
        kept (run (unfollowUser followerId followingId) m))
  /\ (forall followerId followingId,
        kept (AsyncExt.run (ApiExt.isFollowing followerId followingId) m))
  /\ (forall userId, kept (AsyncExt.run (ApiExt.getFollowerCount userId) m))
  /\ (forall userId, kept (AsyncExt.run (ApiExt.getFollowingCount userId) m))
  /\ (forall userId postId, kept (AsyncExt.run (ApiExt.likePost userId postId) m))
  /\ (forall userId postId, kept (AsyncExt.run (ApiExt.unlikePost userId postId) m))
  /\ (forall userId postId,
        kept (AsyncExt.run (ApiExt.isPostLiked userId postId) m))
  /\ (forall postId, kept (AsyncExt.run (ApiExt.getLikeCount postId) m))
  /\ (forall tag, kept (run (getOrCreateHashtag tag) m))
  /\ (forall postId content, kept (run (linkHashtags postId content) m))
  /\ (forall postId content, kept (run (insertMentions postId content) m))
  /\ (forall postId content, kept (run (linkUrls postId content) m)).
Proof.
  intros Hlaw Hd.
  repeat split; intros;
    first [now apply run_schema | now apply ext_run_schema].
Qed.

Lemma city_consistent : consistent Cases.city.
Proof.
  constructor; cbn;
    repeat first
      [ constructor
      | split
      | reflexivity
      | lia
      | discriminate
      | match goal with |- ~ In _ _ => cbn; intuition discriminate end ].
Qed.

Lemma city_schema : schema Cases.city.
Proof.
  split; [exact city_consistent|].
  constructor; cbn;
    repeat first
      [ constructor
      | reflexivity
      | lia
      | match goal with |- ~ In _ _ => cbn; intuition discriminate end ].
Qed.

Lemma api_keeps_the_constraints_witness :
  kept (run (createPost 2 "on my way #home @alice_dev" None)
          (mkMachine Cases.city []
             [mkEvent [foreign (InsertHashtag "home")] 5 None] [])).
Proof.
  refine (proj1 (@api_keeps_the_constraints
                   (mkMachine Cases.city []
                      [mkEvent [foreign (InsertHashtag "home")] 5 None] [])
                   _ city_schema)
            2 "on my way #home @alice_dev"%string None).
  unfold lawful. cbn [events concurrent].
  constructor; [|constructor]. constructor; [|constructor].
  intros d' Hd'. now apply foreign_request_lawful.
Defined.

(** ** The author on a feed row *)

Lemma author_card_found (d : Db) (p : Post.t) :
  profile_exists d (Post.user_id p) = true ->
  exists card,
    author_card d p = Some card /\ ProfileCard.id card = Post.user_id p.
Proof.
  unfold profile_exists, author_card. intros H.
  destruct (find (fun pr => Profile.id pr =? Post.user_id p) (profiles d))
    as [pr|] eqn:E.
  - apply find_some in E as [_ E]. apply Nat.eqb_eq in E.
    eexists. split; [reflexivity|exact E].
  - apply existsb_exists in H as (pr & Hin & Hpr).
    pose proof (find_none _ _ E pr Hin) as Hnone. cbv beta in Hnone. congruence.
Qed.

Lemma select_posts_cards (q : PostsQuery) (d : Db) :
  consistent d ->
  Forall (fun r => exists card,
            FeedRow.profiles r = Some card
            /\ ProfileCard.id card = Post.user_id (FeedRow.post r))
    (select_posts q d).
Proof.
  intros Hd. unfold select_posts. apply Forall_map.
  eapply Forall_impl; [|apply select_page_where].
  cbv beta. intros p [Hin _]. cbn [feed_row FeedRow.profiles FeedRow.post].
  apply author_card_found.
  pose proof (posts_author Hd) as Hauthors. rewrite Forall_forall in Hauthors.
  now apply Hauthors.
Qed.

(** Every row of a page carries the card of its author: in a store that
    meets the constraints, the join [profiles:user_id (...)] is never
    null, so the components can read [post.profiles.handle]. *)
Theorem feed_rows_carry_their_author
    (userId : uuid) (cursor : option timestamptz) (limit : option nat)
    (m : Machine) (page : list FeedRow.t) :
  civil m ->
  consistent (db m) ->
  fst (run (getHomeFeed userId cursor limit) m) = Fulfilled (Some page)
  \/ fst (run (getUserPosts userId cursor limit) m) = Fulfilled (Some page) ->
  Forall (fun r => exists card,
            FeedRow.profiles r = Some card
            /\ ProfileCard.id card = Post.user_id (FeedRow.post r))
    page.
Proof.
  intros Hciv Hd [Hpage|Hpage].
  - apply getHomeFeed_page in Hpage. cbv zeta in Hpage. subst page.
    destruct (perform_consistent (Query (SelectFollowing userId)) Hciv Hd)
      as [Hciv' Hd'].
    apply select_posts_cards.
    apply disturb_consistent; [now apply civil_hd|exact Hd'].
  - apply getUserPosts_page in Hpage. subst page.
    apply select_posts_cards.
    apply disturb_consistent; [now apply civil_hd|exact Hd].
Qed.

Lemma feed_rows_carry_their_author_witness :
  Forall (fun r => exists card,
            FeedRow.profiles r = Some card
            /\ ProfileCard.id card = Post.user_id (FeedRow.post r))
    (select_posts (homeFeedQuery [1; 2] None 20) Cases.city).
Proof.
  exact (@feed_rows_carry_their_author 2 None None (idle Cases.city) _
           (Forall_nil _) city_consistent (or_introl eq_refl)).
Defined.

(* ===================================================================== *)
(** * The last page                                                       *)
(* ===================================================================== *)

Lemma firstn_short {A} (n : nat) (l : list A) :
  List.length (firstn n l) < n -> firstn n l = l.
Proof.
  intros H. apply firstn_all2. rewrite length_firstn in H. lia.
Qed.

Lemma select_page_short (q : PostsQuery) (d : Db) (n : nat) (p : Post.t) :
  q_limit q = Some n ->
  List.length (select_page q d) < n ->
  In p (posts d) -> where_posts q p = true -> In p (select_page q d).
Proof.
  unfold select_page. intros -> Hshort Hp Hw.
  rewrite firstn_short by exact Hshort.
  assert (Hm : In p (filter (where_posts q) (posts d))) by now apply filter_In.
  destruct (q_order_created_at_desc q); [|exact Hm].
  eapply Permutation_in; [apply order_desc_perm|exact Hm].
Qed.

Lemma posts_after_following (userId : uuid) (m : Machine) :
  alone m ->
  let asked := perform (Query (SelectFollowing userId)) m in
  posts (disturb (hd calm (events (snd asked))) (db (snd asked))) = posts (db m).
Proof.
  intros Hm asked.
  rewrite posts_disturb_alone
    by (apply alone_hd; subst asked; now apply alone_after_Query).
  subst asked. rewrite tables_after_Query by exact Hm.
  now destruct (fault (hd calm (events m))).
Qed.

(** A page with fewer rows than the limit is the last one: every post
    that the feed could show (not deleted, older than the cursor, by the
    user of a profile feed, by the viewer or by someone the viewer follows
    for a home feed) is on it. *)
Theorem short_page_is_the_last
    (userId : uuid) (cursor : option timestamptz) (limit : option nat)
    (m : Machine) (p : Post.t) :
  alone m ->
  In p (posts (db m)) ->
  Post.is_deleted p = Some false ->
  before_cursor cursor p ->
  (forall page,
     fst (run (getUserPosts userId cursor limit) m) = Fulfilled (Some page) ->
     List.length page < limitOr20 limit ->
     Post.user_id p = userId ->
     In p (map FeedRow.post page))
  /\ (forall page,
     fst (run (getHomeFeed userId cursor limit) m) = Fulfilled (Some page) ->
     List.length page < limitOr20 limit ->
     fault (hd calm (events m)) = None ->
     Post.user_id p = userId
     \/ (exists f, In f (follows (db m))
                   /\ Follow.follower_id f = userId
                   /\ Follow.following_id f = Post.user_id p) ->
     In p (map FeedRow.post page)).
Proof.
  intros Hm Hp Hlive Hcursor. split.
  - intros page Hpage Hshort Hauthor.
    apply getUserPosts_page in Hpage. subst page.
    rewrite select_posts_post.
    unfold select_posts in Hshort. rewrite length_map in Hshort.
    apply select_page_short with (n := limitOr20 limit).
    + apply userPostsQuery_fields.
    + exact Hshort.
    + now rewrite posts_disturb_alone by now apply alone_hd.
    + unfold where_posts.
      destruct (userPostsQuery_fields userId cursor (limitOr20 limit))
        as (-> & -> & -> & -> & _).
      rewrite Hauthor, Nat.eqb_refl, Hlive. cbn.
      destruct cursor as [c|]; [|reflexivity].
      destruct Hcursor as (t & -> & Ht). now apply Z.ltb_lt.
  - intros page Hpage Hshort Hfault Hauthor.
    apply getHomeFeed_page in Hpage. cbv zeta in Hpage. subst page.
    rewrite select_posts_post.
    unfold select_posts in Hshort. rewrite length_map in Hshort.
    apply select_page_short with (n := limitOr20 limit).
    + apply homeFeedQuery_fields.
    + exact Hshort.
    + now rewrite posts_after_following.
    + apply author_post_matches; [|exact Hlive|exact Hcursor].
      destruct Hauthor as [->|(f & Hf & Ha & Hb)];
        [apply followingIdsOf_has_viewer|].
      rewrite perform_Query_answered by exact Hfault.
      cbn [fst exec select_following]. unfold followingIdsOf. cbn [data ok].
      rewrite map_id. apply in_or_app. left.
      rewrite follows_disturb_alone by now apply alone_hd.
      rewrite <- Hb. apply in_map, filter_In. split; [exact Hf|].
      now apply Nat.eqb_eq.
Qed.

Lemma short_page_is_the_last_witness :
  In Cases.first_post
    (map FeedRow.post
       (select_posts (userPostsQuery 1 (Some 500%Z) 20) Cases.city)).
Proof.
  refine (proj1 (@short_page_is_the_last 1 (Some 500%Z) None (idle Cases.city)
                   Cases.first_post (Forall_nil _) (or_introl eq_refl) eq_refl _)
            _ eq_refl _ eq_refl).
  - exists 100%Z. split; [reflexivity|lia].
  - cbn. lia.
Defined.

(* ===================================================================== *)
(** * What the enrichment records                                         *)
(* ===================================================================== *)

(** ** Link previews *)

Lemma filter_nil_existsb {A} (f : A -> bool) (l : list A) :
  filter f l = [] -> existsb f l = false.
Proof.
  induction l as [|x l IH]; cbn; [reflexivity|].
  destruct (f x); [discriminate|exact IH].
Qed.

(** An upsert whose rows all refer to rows that exist is accepted; the
    table keeps its rows and holds every row of the statement. *)
Lemma upsert_post_links_accepted (d : Db) (rows : list PostLink.t) :
  forall table,
  Forall (fun r => post_exists d (PostLink.post_id r) = true
                   /\ link_preview_exists d (PostLink.link_preview_id r) = true)
    rows ->
  exists table',
    upsert_post_links_rows d rows table = inr table'
    /\ (forall r, In r table -> In r table')
    /\ (forall r, In r rows -> In r table').
Proof.
  induction rows as [|r rows IH]; intros table Hrows; cbn.
  - exists table. split; [reflexivity|]. split; [auto|intros r []].
  - inversion Hrows as [|? ? [Hp Hl] Hrest]; subst.
    destruct (existsb (same_post_link r) table) eqn:E.
    + destruct (IH table Hrest) as (table' & -> & Hold & Hnew).
      exists table'. split; [reflexivity|]. split; [exact Hold|].
      intros x [<-|Hx]; [|now apply Hnew].
      apply existsb_exists in E as (y & Hy & E).
      apply same_post_link_eq in E. subst y. now apply Hold.
    + rewrite Hp, Hl. cbn.
      destruct (IH (table ++ [r]) Hrest) as (table' & -> & Hold & Hnew).
      exists table'. split; [reflexivity|]. split.
      * intros x Hx. apply Hold, in_or_app. now left.
      * intros x [<-|Hx]; [|now apply Hnew].
        apply Hold, in_or_app. right. now left.
Qed.

(** The loop of [linkUrls] in an environment that leaves it in peace:
    it ends with an id for every URL, each the id of the preview of that
    URL, and adds previews only. *)
Lemma previewIdsOf_finds_every_url (urls : list string) :
  forall (previewIds : list uuid) (m : Machine),
  undisturbed m ->
  NoDup (map LinkPreview.url (link_previews (db m))) ->
  exists ids,
    fst (run (previewIdsOf urls previewIds) m) = Fulfilled ids
    /\ undisturbed (snd (run (previewIdsOf urls previewIds) m))
    /\ NoDup (map LinkPreview.url
                (link_previews (db (snd (run (previewIdsOf urls previewIds) m)))))
    /\ posts (db (snd (run (previewIdsOf urls previewIds) m))) = posts (db m)
    /\ post_links (db (snd (run (previewIdsOf urls previewIds) m)))
       = post_links (db m)
    /\ (forall l, In l (link_previews (db m)) ->
          In l (link_previews (db (snd (run (previewIdsOf urls previewIds) m)))))
    /\ (forall id, In id previewIds -> In id ids)
    /\ (forall id, In id ids ->
          In id previewIds
          \/ exists l,
               In l (link_previews (db (snd (run (previewIdsOf urls previewIds) m))))
               /\ LinkPreview.id l = id)
    /\ (forall url, In url urls ->
          exists l,
            In l (link_previews (db (snd (run (previewIdsOf urls previewIds) m))))
            /\ LinkPreview.url l = url
            /\ In (LinkPreview.id l) ids).
Proof.
  induction urls as [|url urls IH]; intros previewIds m Hm Hunique;
    cbn [previewIdsOf run].
  - exists previewIds. cbn [fst snd].
    repeat split; auto. intros url [].
  - rewrite perform_undisturbed by exact Hm.
    cbn [fst snd exec select_link_preview].
    change (link_previews (later m)) with (link_previews (db m)).
    pose proof (filter_key_unique LinkPreview.url url _ Hunique) as Hone.
    set (m1 := mkMachine (later m) (console m) (tl (events m)) (schedules m)).
    assert (Hm1 : undisturbed m1) by now apply undisturbed_next.
    destruct (filter (fun l => String.eqb (LinkPreview.url l) url)
                (link_previews (db m))) as [|l [|l' ls]] eqn:Efound;
      [| |cbn in Hone; lia].
    + (* no preview of the URL yet: it is inserted *)
      cbn [map maybeSingle data Store.done run].
      rewrite perform_undisturbed by exact Hm1.
      cbn [fst snd exec]. unfold insert_link_preview.
      change (link_previews (later m1)) with (link_previews (db m)).
      rewrite (filter_nil_existsb _ _ Efound).
      cbn [fst snd error data ok].
      set (row := LinkPreview.mk (uuid_next (later m1)) url None None None
                    (Some (now (later m1)))).
      set (m2 := mkMachine _ (console m1) (tl (events m1)) (schedules m1)).
      assert (Hm2 : undisturbed m2) by now apply undisturbed_next.
      assert (Hunique2 : NoDup (map LinkPreview.url (link_previews (db m2)))).
      { subst m2. cbn [db link_previews with_uuid_next with_link_previews].
        change (link_previews (later m1)) with (link_previews (db m)).
        apply NoDup_map_snoc; [exact Hunique|].
        apply existsb_string_In. now apply filter_nil_existsb. }
      destruct (IH (previewIds ++ [LinkPreview.id row]) m2 Hm2 Hunique2)
        as (ids & Hids & Hq & Hu & Hposts & Hlinks & Hkeep & Hacc & Hfrom & Hall).
      exists ids. split; [exact Hids|]. split; [exact Hq|]. split; [exact Hu|].
      split; [exact Hposts|]. split; [exact Hlinks|].
      assert (Hrow : In row (link_previews (db m2))).
      { subst m2. cbn [db link_previews with_uuid_next with_link_previews].
        apply in_or_app. right. now left. }
      split; [|split; [|split]].
      * intros l Hl. apply Hkeep. subst m2.
        cbn [db link_previews with_uuid_next with_link_previews].
        apply in_or_app. now left.
      * intros id Hid. apply Hacc, in_or_app. now left.
      * intros id Hid. destruct (Hfrom id Hid) as [Hin|Hin]; [|now right].
        apply in_app_or in Hin as [Hin|[<-|[]]]; [now left|].
        right. exists row. split; [now apply Hkeep|reflexivity].
      * intros u [<-|Hu'].
        -- exists row. split; [now apply Hkeep|]. split; [reflexivity|].
           apply Hacc, in_or_app. right. now left.
        -- now apply Hall.
    + (* the preview of the URL is there *)
      cbn [map maybeSingle data ok].
      assert (Hl : In l (link_previews (db m)) /\ LinkPreview.url l = url).
      { assert (Hin : In l (filter (fun l => String.eqb (LinkPreview.url l) url)
                              (link_previews (db m))))
          by (rewrite Efound; now left).
        apply filter_In in Hin as [Hin E]. split; [exact Hin|].
        now apply String.eqb_eq. }
      destruct Hl as [Hl Hurl].
      destruct (IH (previewIds ++ [LinkPreview.id l]) m1 Hm1 Hunique)
        as (ids & Hids & Hq & Hu & Hposts & Hlinks & Hkeep & Hacc & Hfrom & Hall).
      exists ids. split; [exact Hids|]. split; [exact Hq|]. split; [exact Hu|].
      split; [exact Hposts|]. split; [exact Hlinks|].
      split; [exact Hkeep|]. split; [|split].
      * intros id Hid. apply Hacc, in_or_app. now left.
      * intros id Hid. destruct (Hfrom id Hid) as [Hin|Hin]; [|now right].
        apply in_app_or in Hin as [Hin|[<-|[]]]; [now left|].
        right. exists l. split; [now apply Hkeep|reflexivity].
      * intros u [<-|Hu'].
        -- exists l. split; [now apply Hkeep|]. split; [exact Hurl|].
           apply Hacc, in_or_app. right. now left.
        -- now apply Hall.
Qed.

(** [linkUrls] in an environment that leaves it in peace, for a post that
    exists and a table of previews with unique URLs: it succeeds, and
    afterwards every URL of the text has a preview that the post is linked
    to.  Previews and links that were there stay. *)
Theorem linkUrls_links_every_url (postId : uuid) (content : string) (m : Machine) :
  let after := snd (run (linkUrls postId content) m) in
  undisturbed m ->
  NoDup (map LinkPreview.url (link_previews (db m))) ->
  post_exists (db m) postId = true ->
  fst (run (linkUrls postId content) m) = Fulfilled tt
  /\ (forall url, In url (parseUrls content) ->
      exists l,
        In l (link_previews (db after))
        /\ LinkPreview.url l = url
        /\ In (PostLink.mk postId (LinkPreview.id l)) (post_links (db after)))
  /\ (forall l, In l (link_previews (db m)) -> In l (link_previews (db after)))
  /\ (forall r, In r (post_links (db m)) -> In r (post_links (db after))).
Proof.
  intros after Hm Hunique Hpost. subst after. unfold linkUrls.
  destruct (List.length (arrayFromSet (parseUrls content)) =? 0) eqn:Eempty.
  - apply Nat.eqb_eq, length_zero_iff_nil in Eempty.
    cbn [run fst snd]. split; [reflexivity|]. split; [|auto].
    intros url Hurl. apply arrayFromSet_In in Hurl.
    rewrite Eempty in Hurl. destruct Hurl.
  - rewrite run_bind.
    destruct (previewIdsOf_finds_every_url (arrayFromSet (parseUrls content))
                [] Hm Hunique)
      as (ids & Hids & Hq & Hu & Hposts & Hlinks & Hkeep & _ & Hfrom & Hall).
    rewrite Hids.
    set (m' := snd (run (previewIdsOf (arrayFromSet (parseUrls content)) []) m)) in *.
    destruct (List.length ids =? 0) eqn:Enone.
    + apply Nat.eqb_eq, length_zero_iff_nil in Enone. subst ids.
      cbn [run fst snd]. split; [reflexivity|]. split; [|split; [exact Hkeep|]].
      * intros url Hurl. apply arrayFromSet_In in Hurl.
        destruct (Hall url Hurl) as (l & _ & _ & []).
      * intros r Hr. now rewrite Hlinks.
    + cbn [run]. rewrite perform_undisturbed by exact Hq.
      cbn [fst snd exec]. unfold upsert_post_links.
      change (post_links (later m')) with (post_links (db m')).
      destruct (@upsert_post_links_accepted (later m')
                  (map (fun id => PostLink.mk postId id) ids) (post_links (db m')))
        as (table & -> & Hold & Hnew).
      { apply Forall_map, Forall_forall. intros id Hid.
        cbn [PostLink.post_id PostLink.link_preview_id]. split.
        - change (post_exists (later m') postId) with
            (existsb (fun p => Post.id p =? postId) (posts (db m'))).
          now rewrite Hposts.
        - destruct (Hfrom id Hid) as [[]|(l & Hl & Hlid)].
          change (link_preview_exists (later m') id) with
            (existsb (fun l => LinkPreview.id l =? id) (link_previews (db m'))).
          apply existsb_exists. exists l. split; [exact Hl|].
          now apply Nat.eqb_eq. }
      cbn [fst snd error Store.done run db post_links link_previews
           with_post_links].
      split; [reflexivity|].
      change (link_previews (later m')) with (link_previews (db m')).
      split; [|split; [exact Hkeep|]].
      * intros url Hurl. apply arrayFromSet_In in Hurl.
        destruct (Hall url Hurl) as (l & Hl & Hlurl & Hlid).
        exists l. split; [exact Hl|]. split; [exact Hlurl|].
        apply Hnew, in_map_iff. exists (LinkPreview.id l). now split.
      * intros r Hr. apply Hold. now rewrite Hlinks.
Qed.

Lemma linkUrls_links_every_url_witness :
  fst (run (linkUrls 53 "see https://x.io") (idle Cases.city)) = Fulfilled tt
  /\ exists l,
       In l (link_previews
               (db (snd (run (linkUrls 53 "see https://x.io") (idle Cases.city)))))
       /\ LinkPreview.url l = "https://x.io"%string
       /\ In (PostLink.mk 53 (LinkPreview.id l))
            (post_links
               (db (snd (run (linkUrls 53 "see https://x.io") (idle Cases.city))))).
Proof.
  pose proof (@linkUrls_links_every_url 53 "see https://x.io" (idle Cases.city)
                (Forall_nil _) (NoDup_nil _) eq_refl) as H.
  cbv zeta in H. destruct H as (H1 & H2 & _).
  exact (conj H1 (H2 "https://x.io"%string (or_introl eq_refl))).
Defined.

(** ** Hashtags, whatever the order of the lookups *)

Import Lookups.

Lemma replace_map {A B} (f : A -> B) (x : A) (l : list A) :
  forall i, replace i (f x) (map f l) = map f (replace i x l).
Proof.
  induction l as [|y l IH]; intros [|i]; cbn; try reflexivity.
  now rewrite IH.
Qed.

Lemma map_replace_same {A B} (f : A -> B) (x y : A) (l : list A) :
  forall i, nth_error l i = Some y -> f x = f y ->
  map f (replace i x l) = map f l.
Proof.
  induction l as [|z l IH]; intros [|i]; cbn; try discriminate.
  - intros [= ->] ->. reflexivity.
  - intros Hi Hf. now rewrite (IH i Hi Hf).
Qed.

Lemma settled_in_grows (tag : string) (d d' : Db) (ph : Phase) :
  grows_by tag d d' -> tag_of ph <> tag -> settled_in d ph -> settled_in d' ph.
Proof.
  intros (_ & _ & [Hsame|(row & Hrow & Hgrown)]) Hother; destruct ph as [t|t|t r];
    cbn in *; try rewrite Hsame; try rewrite Hgrown; auto.
  - intros Hnone. rewrite existsb_app, Hnone. cbn.
    rewrite orb_false_r. apply String.eqb_neq. congruence.
  - intros [Hin Ht]. split; [|exact Ht]. apply in_or_app. now left.
Qed.

(** After a step of the call at position [i], which keeps its tag, the
    other calls can rely on what they relied on: their tags are others. *)
Lemma settled_after_step (d d' : Db) (ph ph' : Phase) (phases : list Phase) :
  forall i,
  nth_error phases i = Some ph ->
  NoDup (map tag_of phases) ->
  grows_by (tag_of ph) d d' ->
  Forall (settled_in d) phases ->
  settled_in d' ph' ->
  Forall (settled_in d') (replace i ph' phases).
Proof.
  induction phases as [|x phases IH]; intros [|i]; cbn; try discriminate.
  - intros [= ->] Hnd Hgrows Hall Hnew.
    inversion Hnd as [|? ? Hx Hrest]; subst. inversion Hall; subst.
    constructor; [exact Hnew|].
    apply Forall_forall. intros y Hy.
    apply settled_in_grows with (tag := tag_of ph) (d := d); [exact Hgrows| |].
    + intros E. apply Hx. rewrite <- E. now apply in_map.
    + match goal with H : Forall _ phases |- _ =>
        rewrite Forall_forall in H; now apply H end.
  - intros Hi Hnd Hgrows Hall Hnew.
    inversion Hnd as [|? ? Hx Hrest]; subst. inversion Hall; subst.
    constructor; [|now apply IH].
    apply settled_in_grows with (tag := tag_of ph) (d := d); [exact Hgrows| |assumption].
    intros E. apply Hx. rewrite E. apply in_map.
    now apply nth_error_In with (n := i).
Qed.

Lemma only_hashtags_added_refl (m : Machine) : only_hashtags_added m m.
Proof. repeat split; auto. Qed.

Lemma only_hashtags_added_trans (m1 m2 m3 : Machine) :
  only_hashtags_added m1 m2 -> only_hashtags_added m2 m3 ->
  only_hashtags_added m1 m3.
Proof.
  intros (Hp & Hl & Hh) (Hp' & Hl' & Hh'). repeat split.
  - now rewrite Hp'.
  - now rewrite Hl'.
  - auto.
Qed.

Lemma grows_by_only_added (tag : string) (m m' : Machine) :
  grows_by tag (db m) (db m') -> only_hashtags_added m m'.
Proof.
  intros (Hp & Hl & [Hsame|(row & _ & Hgrown)]); repeat split; auto.
  - now rewrite Hsame.
  - intros h Hh. rewrite Hgrown. apply in_or_app. now left.
Qed.

(** The select of a call that is looking. *)
Lemma looking_step (tag : string) (m : Machine) :
  steady m ->
  normalized tag ->
  let asked := perform (Query (SelectHashtag (toLowerCase tag))) m in
  steady (snd asked)
  /\ grows_by tag (db m) (db (snd asked))
  /\ hashtags (db (snd asked)) = hashtags (db m)
  /\ exists ph',
       match data (fst asked) with
       | Some existing => Ret (Some existing)
       | None => insertOf (toLowerCase tag)
       end = task ph'
       /\ (ph' = Inserting tag \/ exists row, ph' = Returned tag row)
       /\ settled_in (db (snd asked)) ph'.
Proof.
  intros [Hm Hunique] Htag asked. subst asked.
  rewrite (normalized_fixed Htag).
  rewrite perform_undisturbed by exact Hm.
  cbn [fst snd exec select_hashtag db].
  change (hashtags (later m)) with (hashtags (db m)).
  split; [split; [now apply undisturbed_next|exact Hunique]|].
  split; [repeat split; now left|]. split; [reflexivity|].
  pose proof (filter_key_unique Hashtag.tag tag _ Hunique) as Hone.
  destruct (filter (fun h => String.eqb (Hashtag.tag h) tag) (hashtags (db m)))
    as [|h [|h' hs]] eqn:Efound; [| |cbn in Hone; lia].
  - exists (Inserting tag). cbn [maybeSingle data Store.done task tag_of settled_in].
    rewrite (normalized_fixed Htag).
    split; [reflexivity|]. split; [now left|].
    now apply filter_nil_existsb.
  - exists (Returned tag h). cbn [maybeSingle data ok task tag_of settled_in].
    split; [reflexivity|]. split; [right; now exists h|].
    assert (Hin : In h (filter (fun h => String.eqb (Hashtag.tag h) tag)
                          (hashtags (db m))))
      by (rewrite Efound; now left).
    apply filter_In in Hin as [Hin E]. split; [exact Hin|].
    now apply String.eqb_eq.
Qed.

(** The insert of a call whose select found nothing, when nothing with
    the tag has appeared since. *)
Lemma inserting_step (tag : string) (m : Machine) :
  steady m ->
  normalized tag ->
  settled_in (db m) (Inserting tag) ->
  let asked := perform (Query (InsertHashtag (toLowerCase tag))) m in
  steady (snd asked)
  /\ grows_by tag (db m) (db (snd asked))
  /\ exists row,
       match error (fst asked) with
       | Some error => Throw error
       | None => Ret (data (fst asked))
       end = task (Returned tag row)
       /\ settled_in (db (snd asked)) (Returned tag row).
Proof.
  intros [Hm Hunique] Htag Hnone asked. subst asked. cbn [settled_in] in Hnone.
  rewrite (normalized_fixed Htag).
  rewrite perform_undisturbed by exact Hm.
  cbn [fst snd exec]. unfold insert_hashtag.
  rewrite (normalized_tag_format Htag).
  change (hashtags (later m)) with (hashtags (db m)).
  rewrite Hnone.
  cbn [negb fst snd db error data ok hashtags posts post_hashtags
       with_uuid_next with_hashtags task settled_in Hashtag.tag].
  change (hashtags (later m)) with (hashtags (db m)).
  split; [split; [now apply undisturbed_next|]|].
  - cbn [db hashtags with_uuid_next with_hashtags].
    change (hashtags (later m)) with (hashtags (db m)).
    apply NoDup_map_snoc; [exact Hunique|].
    cbn. now apply existsb_string_In.
  - split.
    + repeat split. right. eexists. split; [|reflexivity]. reflexivity.
    + eexists. split; [reflexivity|]. split; [|reflexivity].
      apply in_or_app. right. now left.
Qed.

Lemma tail_settled (ph : Phase) (phases : list Phase) (d d' : Db) :
  NoDup (map tag_of (ph :: phases)) ->
  grows_by (tag_of ph) d d' ->
  Forall (settled_in d) phases ->
  Forall (settled_in d') phases.
Proof.
  intros Hnd Hgrows Hall. inversion Hnd as [|? ? Hx _]; subst.
  apply Forall_forall. intros y Hy.
  apply settled_in_grows with (tag := tag_of ph) (d := d); [exact Hgrows| |].
  - intros E. apply Hx. rewrite <- E. now apply in_map.
  - rewrite Forall_forall in Hall. now apply Hall.
Qed.

(** One call, run from its phase to its end. *)
Lemma run_task (ph : Phase) (m : Machine) :
  steady m ->
  normalized (tag_of ph) ->
  settled_in (db m) ph ->
  steady (snd (run (task ph) m))
  /\ grows_by (tag_of ph) (db m) (db (snd (run (task ph) m)))
  /\ exists row,
       fst (run (task ph) m) = Fulfilled (Some row)
       /\ settled_in (db (snd (run (task ph) m))) (Returned (tag_of ph) row).
Proof.
  intros Hm Htag Hph. destruct ph as [tag|tag|tag row]; cbn [task tag_of] in *.
  - unfold getOrCreateHashtag. cbn [run].
    destruct (looking_step Hm Htag) as (Hm1 & Hg1 & Hsame & ph' & Hk & Hph' & Hs).
    cbv zeta in *. unfold insertOf in Hk. rewrite Hk.
    destruct Hph' as [->|[row ->]].
    + cbn [task insertOf run].
      destruct (inserting_step Hm1 Htag Hs) as (Hm2 & Hg2 & row & Hk2 & Hs2).
      cbv zeta in *. rewrite Hk2. cbn [task run fst snd].
      split; [exact Hm2|]. split; [|now exists row].
      destruct Hg1 as (Hp1 & Hl1 & _), Hg2 as (Hp2 & Hl2 & Hh2).
      repeat split; [congruence|congruence|]. now rewrite <- Hsame.
    + cbn [task run fst snd]. split; [exact Hm1|]. split; [exact Hg1|].
      now exists row.
  - cbn [insertOf run].
    destruct (inserting_step Hm Htag Hph) as (Hm2 & Hg2 & row & Hk2 & Hs2).
    cbv zeta in *. rewrite Hk2. cbn [task run fst snd].
    split; [exact Hm2|]. split; [exact Hg2|]. now exists row.
  - cbn [run fst snd]. split; [exact Hm|]. split; [repeat split; now left|].
    now exists row.
Qed.

(** Completing the calls in turn: every call returns the row of its tag. *)
Lemma drain_lookups (phases : list Phase) :
  forall (settled : list (Outcome (option Hashtag.t))) (m : Machine),
  steady m ->
  NoDup (map tag_of phases) ->
  Forall (fun ph => normalized (tag_of ph)) phases ->
  Forall (settled_in (db m)) phases ->
  exists rows,
    fst (run (drain (map task phases) settled None) m)
    = Fulfilled (rev settled ++ map (fun r => Fulfilled (Some r)) rows, None)
    /\ steady (snd (run (drain (map task phases) settled None) m))
    /\ only_hashtags_added m (snd (run (drain (map task phases) settled None) m))
    /\ Forall2
         (fun tag r =>
            In r (hashtags (db (snd (run (drain (map task phases) settled None) m))))
            /\ Hashtag.tag r = tag)
         (map tag_of phases) rows.
Proof.
  induction phases as [|ph phases IH]; intros settled m Hm Hnd Htags Hall;
    cbn [map drain].
  - exists []. cbn [run fst snd map]. rewrite app_nil_r.
    split; [reflexivity|]. split; [exact Hm|].
    split; [apply only_hashtags_added_refl|constructor].
  - rewrite run_settle.
    inversion Htags as [|? ? Htag Htags']; subst.
    inversion Hall as [|? ? Hph Hall']; subst.
    destruct (@run_task ph m Hm Htag Hph) as (Hm1 & Hg1 & row & Hrow & Hin & Hrt).
    rewrite Hrow. cbn [noteOutcome].
    set (m1 := snd (run (task ph) m)) in *.
    destruct (IH (Fulfilled (Some row) :: settled) m1 Hm1)
      as (rows & Hrun & Hm' & Hadded & Hrows).
    { now inversion Hnd. }
    { exact Htags'. }
    { now apply (tail_settled Hnd Hg1). }
    exists (row :: rows). rewrite Hrun. cbn [rev map].
    rewrite <- app_assoc. split; [reflexivity|]. split; [exact Hm'|].
    split.
    + eapply only_hashtags_added_trans; [|exact Hadded].
      now apply grows_by_only_added with (tag := tag_of ph).
    + constructor; [|exact Hrows]. split; [|exact Hrt].
      destruct Hadded as (_ & _ & Hkeep). now apply Hkeep.
Qed.

(** Whatever the order in which the event loop resumes the calls, every
    call returns the row of its tag. *)
Lemma interleave_lookups (sched : list nat) :
  forall (phases : list Phase) (m : Machine),
  steady m ->
  NoDup (map tag_of phases) ->
  Forall (fun ph => normalized (tag_of ph)) phases ->
  Forall (settled_in (db m)) phases ->
  exists rows,
    fst (run (interleave sched (map task phases) None) m)
    = Fulfilled (map (fun r => Fulfilled (Some r)) rows, None)
    /\ steady (snd (run (interleave sched (map task phases) None) m))
    /\ only_hashtags_added m (snd (run (interleave sched (map task phases) None) m))
    /\ Forall2
         (fun tag r =>
            In r (hashtags (db (snd (run (interleave sched (map task phases) None) m))))
            /\ Hashtag.tag r = tag)
         (map tag_of phases) rows.
Proof.
  induction sched as [|i sched IH]; intros phases m Hm Hnd Htags Hall;
    cbn [interleave].
  - exact (@drain_lookups phases [] m Hm Hnd Htags Hall).
  - rewrite nth_error_map.
    destruct (nth_error phases i) as [ph|] eqn:Ei; cbn [option_map];
      [|now apply IH].
    assert (Htag : normalized (tag_of ph)).
    { rewrite Forall_forall in Htags. apply Htags.
      now apply nth_error_In with (n := i). }
    assert (Hph : settled_in (db m) ph).
    { rewrite Forall_forall in Hall. apply Hall.
      now apply nth_error_In with (n := i). }
    destruct ph as [tag|tag|tag row]; cbn [task tag_of] in *.
    + unfold getOrCreateHashtag. cbn [run].
      destruct (looking_step Hm Htag) as (Hm1 & Hg1 & Hsame & ph' & Hk & Hph' & Hs).
      cbv zeta in *. unfold insertOf in Hk. rewrite Hk.
      set (m1 := snd (perform (Query (SelectHashtag (toLowerCase tag))) m)) in *.
      rewrite replace_map.
      assert (Htag' : tag_of ph' = tag_of (Looking tag))
        by (destruct Hph' as [->|[row ->]]; reflexivity).
      replace (noteRejection None (task ph')) with (@None Error)
        by (destruct Hph' as [->|[row ->]]; reflexivity).
      destruct (IH (replace i ph' phases) m1 Hm1)
        as (rows & Hrun & Hm' & Hadded & Hrows).
      { now rewrite (@map_replace_same _ _ tag_of ph' (Looking tag) phases i Ei Htag'). }
      { apply Forall_replace; [exact Htags|]. now rewrite Htag'. }
      { now apply (@settled_after_step (db m) (db m1) (Looking tag) ph' phases i Ei Hnd Hg1 Hall). }
      exists rows. split; [exact Hrun|]. split; [exact Hm'|]. split.
      * eapply only_hashtags_added_trans; [|exact Hadded].
        now apply grows_by_only_added with (tag := tag).
      * now rewrite (@map_replace_same _ _ tag_of ph' (Looking tag) phases i Ei Htag') in Hrows.
    + cbn [insertOf run].
      destruct (inserting_step Hm Htag Hph) as (Hm1 & Hg1 & row & Hk & Hs).
      cbv zeta in *. rewrite Hk.
      set (m1 := snd (perform (Query (InsertHashtag (toLowerCase tag))) m)) in *.
      rewrite replace_map. cbn [task noteRejection].
      destruct (IH (replace i (Returned tag row) phases) m1 Hm1)
        as (rows & Hrun & Hm' & Hadded & Hrows).
      { now rewrite (@map_replace_same _ _ tag_of (Returned tag row) (Inserting tag) phases i Ei eq_refl). }
      { apply Forall_replace; [exact Htags|exact Htag]. }
      { now apply (@settled_after_step (db m) (db m1) (Inserting tag) (Returned tag row) phases i Ei Hnd Hg1 Hall). }
      exists rows. split; [exact Hrun|]. split; [exact Hm'|]. split.
      * eapply only_hashtags_added_trans; [|exact Hadded].
        now apply grows_by_only_added with (tag := tag).
      * now rewrite (@map_replace_same _ _ tag_of (Returned tag row) (Inserting tag) phases i Ei eq_refl) in Hrows.
    + now apply IH.
Qed.

Lemma upsert_post_hashtags_accepted (d : Db) (rows : list PostHashtag.t) :
  forall table,
  Forall (fun r => post_exists d (PostHashtag.post_id r) = true
                   /\ hashtag_exists d (PostHashtag.hashtag_id r) = true)
    rows ->
  exists table',
    upsert_post_hashtags_rows d rows table = inr table'
    /\ (forall r, In r table -> In r table')
    /\ (forall r, In r rows -> In r table').
Proof.
  induction rows as [|r rows IH]; intros table Hrows; cbn.
  - exists table. split; [reflexivity|]. split; [auto|intros r []].
  - inversion Hrows as [|? ? [Hp Hh] Hrest]; subst.
    destruct (existsb (same_post_hashtag r) table) eqn:E.
    + destruct (IH table Hrest) as (table' & -> & Hold & Hnew).
      exists table'. split; [reflexivity|]. split; [exact Hold|].
      intros x [<-|Hx]; [|now apply Hnew].
      apply existsb_same_In in E. now apply Hold.
    + rewrite Hp, Hh. cbn.
      destruct (IH (table ++ [r]) Hrest) as (table' & -> & Hold & Hnew).
      exists table'. split; [reflexivity|]. split.
      * intros x Hx. apply Hold, in_or_app. now left.
      * intros x [<-|Hx]; [|now apply Hnew].
        apply Hold, in_or_app. right. now left.
Qed.

Lemma no_rejection_among_lookups (tags : list string) :
  fold_left noteRejection (map task (map Looking tags)) None = None.
Proof. induction tags as [|t tags IH]; cbn; [reflexivity|exact IH]. Qed.

Lemma values_of_rows (rows : list Hashtag.t) :
  values (map (fun r => Fulfilled (Some r)) rows) = map Some rows.
Proof. induction rows as [|r rows IH]; cbn; [reflexivity|now rewrite IH]. Qed.

Lemma hashtagLinks_of_rows (postId : uuid) (rows : list Hashtag.t) :
  hashtagLinks postId (map Some rows)
  = Some (map (fun h => PostHashtag.mk postId (Hashtag.id h)) rows).
Proof. induction rows as [|r rows IH]; cbn; [reflexivity|now rewrite IH]. Qed.

Lemma Forall2_In_left {A B} (P : A -> B -> Prop) (l : list A) (l' : list B) (x : A) :
  Forall2 P l l' -> In x l -> exists y, In y l' /\ P x y.
Proof.
  induction 1 as [|a b l l' Hab _ IH]; intros Hin; [destruct Hin|].
  destruct Hin as [<-|Hin].
  - exists b. split; [now left|exact Hab].
  - destruct (IH Hin) as (y & Hy & Hxy). exists y. split; [now right|exact Hxy].
Qed.

Lemma Forall2_right {A B} (P : A -> B -> Prop) (l : list A) (l' : list B) (y : B) :
  Forall2 P l l' -> In y l' -> exists x, In x l /\ P x y.
Proof.
  induction 1 as [|a b l l' Hab _ IH]; intros Hin; [destruct Hin|].
  destruct Hin as [<-|Hin].
  - exists a. split; [now left|exact Hab].
  - destruct (IH Hin) as (x & Hx & Hxy). exists x. split; [now right|exact Hxy].
Qed.

(** [linkHashtags] in an environment that leaves it in peace, for a post
    that exists and a table of hashtags with unique tags: in whatever
    order the event loop resumes the lookups of [Promise.all], the call
    succeeds, and afterwards every hashtag of the text has a row that the
    post is linked to.  Hashtags and links that were there stay. *)
Theorem linkHashtags_links_every_tag
    (postId : uuid) (content : string) (m : Machine) :
  let after := snd (run (linkHashtags postId content) m) in
  undisturbed m ->
  NoDup (map Hashtag.tag (hashtags (db m))) ->
  post_exists (db m) postId = true ->
  fst (run (linkHashtags postId content) m) = Fulfilled tt
  /\ (forall tag, In tag (parseHashtags content) ->
      exists h,
        In h (hashtags (db after))
        /\ Hashtag.tag h = tag
        /\ In (PostHashtag.mk postId (Hashtag.id h)) (post_hashtags (db after)))
  /\ (forall h, In h (hashtags (db m)) -> In h (hashtags (db after)))
  /\ (forall r, In r (post_hashtags (db m)) -> In r (post_hashtags (db after))).
Proof.
  intros after Hm Hunique Hpost. subst after. unfold linkHashtags.
  set (tags := arrayFromSet (parseHashtags content)).
  destruct (List.length tags =? 0) eqn:Eempty.
  - apply Nat.eqb_eq, length_zero_iff_nil in Eempty.
    cbn [run fst snd]. split; [reflexivity|]. split; [|auto].
    intros tag Htag. apply arrayFromSet_In in Htag. fold tags in Htag.
    rewrite Eempty in Htag. destruct Htag.
  - rewrite run_bind.
    replace (map (fun t => getOrCreateHashtag t) tags)
      with (map task (map Looking tags))
      by (rewrite map_map; reflexivity).
    unfold Promise_all. cbn [run]. rewrite no_rejection_among_lookups.
    rewrite run_bind.
    set (m0 := snd (perform Resume m)).
    assert (Hm0 : steady m0) by (split; [exact Hm|exact Hunique]).
    assert (Htags : Forall (fun ph => normalized (tag_of ph)) (map Looking tags)).
    { apply Forall_map. cbn [tag_of]. apply Forall_forall. intros t Ht.
      apply (proj1 (arrayFromSet_In (parseHashtags content) t)) in Ht.
      pose proof (parseHashtags_normalized content) as Hall.
      rewrite Forall_forall in Hall. now apply Hall. }
    destruct (@interleave_lookups (fst (perform Resume m)) (map Looking tags) m0 Hm0)
      as (rows & Hrun & [Hq Hu] & (Hposts & Hlinks & Hkeep) & Hrows).
    { rewrite map_map. cbn [tag_of]. rewrite map_id. apply arrayFromSet_NoDup. }
    { exact Htags. }
    { apply Forall_map. cbn [settled_in]. now apply Forall_forall. }
    rewrite Hrun. cbn [snd fst run]. rewrite values_of_rows, hashtagLinks_of_rows.
    set (m' := snd (run (interleave (fst (perform Resume m))
                           (map task (map Looking tags)) None) m0)) in *.
    rewrite map_map in Hrows. cbn [tag_of] in Hrows. rewrite map_id in Hrows.
    cbn [run]. rewrite perform_undisturbed by exact Hq.
    cbn [fst snd exec]. unfold upsert_post_hashtags.
    change (post_hashtags (later m')) with (post_hashtags (db m')).
    destruct (@upsert_post_hashtags_accepted (later m')
                (map (fun h => PostHashtag.mk postId (Hashtag.id h)) rows)
                (post_hashtags (db m')))
      as (table & -> & Hold & Hnew).
    { apply Forall_map, Forall_forall. intros h Hh.
      cbn [PostHashtag.post_id PostHashtag.hashtag_id]. split.
      - change (post_exists (later m') postId) with
          (existsb (fun p => Post.id p =? postId) (posts (db m'))).
        rewrite Hposts. exact Hpost.
      - destruct (Forall2_right h Hrows Hh) as (t & _ & Hin & _).
        change (hashtag_exists (later m') (Hashtag.id h)) with
          (existsb (fun x => Hashtag.id x =? Hashtag.id h) (hashtags (db m'))).
        apply existsb_exists. exists h. split; [exact Hin|].
        apply Nat.eqb_refl. }
    cbn [fst snd error Store.done run db post_hashtags hashtags
         with_post_hashtags].
    split; [reflexivity|].
    change (hashtags (later m')) with (hashtags (db m')).
    split; [|split; [exact Hkeep|]].
    + intros tag Htag. apply arrayFromSet_In in Htag. fold tags in Htag.
      destruct (Forall2_In_left tag Hrows Htag) as (h & Hh & Hin & Ht).
      exists h. split; [exact Hin|]. split; [exact Ht|].
      apply Hnew, in_map_iff. exists h. now split.
    + intros r Hr. apply Hold. rewrite Hlinks. exact Hr.
Qed.

Lemma linkHashtags_links_every_tag_witness :
  fst (run (linkHashtags 53 "on #air with #world")
         (mkMachine Cases.city [] [] [[1; 0; 0; 1]]))
  = Fulfilled tt
  /\ exists h,
       In h (hashtags
               (db (snd (run (linkHashtags 53 "on #air with #world")
                           (mkMachine Cases.city [] [] [[1; 0; 0; 1]])))))
       /\ Hashtag.tag h = "air"%string
       /\ In (PostHashtag.mk 53 (Hashtag.id h))
            (post_hashtags
               (db (snd (run (linkHashtags 53 "on #air with #world")
                           (mkMachine Cases.city [] [] [[1; 0; 0; 1]]))))).
Proof.
  assert (Hunique : NoDup (map Hashtag.tag (hashtags Cases.city)))
    by (repeat constructor; cbn; intuition).
  pose proof (@linkHashtags_links_every_tag 53 "on #air with #world"
                (mkMachine Cases.city [] [] [[1; 0; 0; 1]])
                (Forall_nil _) Hunique eq_refl) as H.
  cbv zeta in H. destruct H as (H1 & H2 & _).
  exact (conj H1 (H2 "air"%string (or_introl eq_refl))).
Defined.

(** ** Linking twice *)

Lemma silent_settle {A B} (t : Prog A) (k : Outcome A -> Prog B) :
  silent t -> (forall o, silent (k o)) -> silent (settle t k).
Proof.
  intros Ht Hk. induction t as [a|e|R eff f IH]; cbn in *; auto.
  destruct Ht as [Hq Hf]. split; [exact Hq|]. intros r. now apply IH.
Qed.

Lemma silent_drain {A} (ts : list (Prog A)) :
  Forall silent ts -> forall settled first, silent (drain ts settled first).
Proof.
  induction 1 as [|t ts Ht _ IH]; intros settled first; cbn; [exact I|].
  apply silent_settle; [exact Ht|]. intros o. apply IH.
Qed.

Lemma silent_interleave {A} (sched : list nat) :
  forall (ts : list (Prog A)) first,
  Forall silent ts -> silent (interleave sched ts first).
Proof.
  induction sched as [|i sched IH]; intros ts first Hts; cbn.
  - now apply silent_drain.
  - destruct (nth_error ts i) as [[a|e|R eff k]|] eqn:E; try now apply IH.
    apply nth_error_In in E.
    rewrite Forall_forall in Hts. pose proof (Hts _ E) as [Hq Hk].
    cbn. split; [exact Hq|]. intros r. apply IH.
    apply Forall_replace; [now apply Forall_forall|apply Hk].
Qed.

(** A program that never calls [console.error] leaves the console as it
    is. *)
Lemma run_silent {A} (p : Prog A) :
  forall m, silent p -> console (snd (run p m)) = console m.
Proof.
  induction p as [a|e|R eff k IH]; intros m Hp; cbn [run snd]; try reflexivity.
  destruct Hp as [Hq Hk]. rewrite IH by apply Hk.
  destruct eff as [X q|line|]; [|destruct Hq|reflexivity].
  cbn [perform]. now destruct (fault (hd calm (events m))).
Qed.

Lemma task_silent (ph : Phase) : silent (task ph).
Proof.
  destruct ph as [tag|tag|tag row]; cbn.
  - split; [exact I|]. intros r. destruct (data r); [exact I|].
    cbn. split; [exact I|]. intros r'. now destruct (error r').
  - split; [exact I|]. intros r'. now destruct (error r').
  - exact I.
Qed.

(** One run of [linkHashtags] in an environment that leaves it in peace:
    it succeeds and writes nothing on the console; the rows that the
    lookups return are rows of the hashtags table, one for each tag of
    the text, and the links table is what the upsert of their links made
    of it. *)
Lemma linkHashtags_effect (postId : uuid) (content : string) (m : Machine) :
  let r := run (linkHashtags postId content) m in
  undisturbed m ->
  NoDup (map Hashtag.tag (hashtags (db m))) ->
  post_exists (db m) postId = true ->
  fst r = Fulfilled tt
  /\ undisturbed (snd r)
  /\ NoDup (map Hashtag.tag (hashtags (db (snd r))))
  /\ console (snd r) = console m
  /\ posts (db (snd r)) = posts (db m)
  /\ (forall h, In h (hashtags (db m)) -> In h (hashtags (db (snd r))))
  /\ exists rows d',
       Forall2 (fun tag h => In h (hashtags (db (snd r))) /\ Hashtag.tag h = tag)
         (arrayFromSet (parseHashtags content)) rows
       /\ upsert_post_hashtags_rows d'
            (map (fun h => PostHashtag.mk postId (Hashtag.id h)) rows)
            (post_hashtags (db m))
          = inr (post_hashtags (db (snd r))).
Proof.
  intros r Hm Hunique Hpost. subst r. unfold linkHashtags.
  set (tags := arrayFromSet (parseHashtags content)).
  destruct (List.length tags =? 0) eqn:Eempty.
  - apply Nat.eqb_eq, length_zero_iff_nil in Eempty.
    cbn [run fst snd]. repeat (split; [auto; fail|]).
    exists [], (db m). rewrite Eempty. split; [constructor|reflexivity].
  - rewrite run_bind.
    replace (map (fun t => getOrCreateHashtag t) tags)
      with (map task (map Looking tags))
      by (rewrite map_map; reflexivity).
    unfold Promise_all. cbn [run]. rewrite no_rejection_among_lookups.
    rewrite run_bind.
    set (m0 := snd (perform Resume m)).
    assert (Hm0 : steady m0) by (split; [exact Hm|exact Hunique]).
    assert (Htags : Forall (fun ph => normalized (tag_of ph)) (map Looking tags)).
    { apply Forall_map. cbn [tag_of]. apply Forall_forall. intros t Ht.
      apply (proj1 (arrayFromSet_In (parseHashtags content) t)) in Ht.
      pose proof (parseHashtags_normalized content) as Hall.
      rewrite Forall_forall in Hall. now apply Hall. }
    assert (Hquiet :
      console (snd (run (interleave (fst (perform Resume m))
                           (map task (map Looking tags)) None) m0))
      = console m).
    { rewrite run_silent; [reflexivity|].
      apply silent_interleave, Forall_map, Forall_forall.
      intros ph _. apply task_silent. }
    destruct (@interleave_lookups (fst (perform Resume m)) (map Looking tags) m0 Hm0)
      as (rows & Hrun & [Hq Hu] & (Hposts & Hlinks & Hkeep) & Hrows).
    { rewrite map_map. cbn [tag_of]. rewrite map_id. apply arrayFromSet_NoDup. }
    { exact Htags. }
    { apply Forall_map. cbn [settled_in]. now apply Forall_forall. }
    rewrite Hrun. cbn [snd fst run]. rewrite values_of_rows, hashtagLinks_of_rows.
    set (m' := snd (run (interleave (fst (perform Resume m))
                           (map task (map Looking tags)) None) m0)) in *.
    rewrite map_map in Hrows. cbn [tag_of] in Hrows. rewrite map_id in Hrows.
    cbn [run]. rewrite perform_undisturbed by exact Hq.
    cbn [fst snd exec]. unfold upsert_post_hashtags.
    change (post_hashtags (later m')) with (post_hashtags (db m')).
    destruct (@upsert_post_hashtags_accepted (later m')
                (map (fun h => PostHashtag.mk postId (Hashtag.id h)) rows)
                (post_hashtags (db m')))
      as (table & Htable & Hold & Hnew).
    { apply Forall_map, Forall_forall. intros h Hh.
      cbn [PostHashtag.post_id PostHashtag.hashtag_id]. split.
      - change (post_exists (later m') postId) with
          (existsb (fun p => Post.id p =? postId) (posts (db m'))).
        rewrite Hposts. exact Hpost.
      - destruct (Forall2_right h Hrows Hh) as (t & _ & Hin & _).
        change (hashtag_exists (later m') (Hashtag.id h)) with
          (existsb (fun x => Hashtag.id x =? Hashtag.id h) (hashtags (db m'))).
        apply existsb_exists. exists h. split; [exact Hin|].
        apply Nat.eqb_refl. }
    rewrite Htable.
    cbn [fst snd error Store.done run db post_hashtags hashtags posts console
         with_post_hashtags].
    change (hashtags (later m')) with (hashtags (db m')).
    change (posts (later m')) with (posts (db m')).
    split; [reflexivity|]. split; [now apply undisturbed_next|].
    split; [exact Hu|]. split; [exact Hquiet|]. split; [exact Hposts|].
    split; [exact Hkeep|].
    exists rows, (later m'). split; [exact Hrows|].
    rewrite Hlinks in Htable. exact Htable.
Qed.

(** Two lists of rows of a table with unique tags, one row for each tag
    of the same list, are the same list. *)
Lemma rows_of_tags_unique (table : list Hashtag.t) (tags : list string)
    (rows rows' : list Hashtag.t) :
  NoDup (map Hashtag.tag table) ->
  Forall2 (fun tag h => In h table /\ Hashtag.tag h = tag) tags rows ->
  Forall2 (fun tag h => In h table /\ Hashtag.tag h = tag) tags rows' ->
  rows = rows'.
Proof.
  intros Hunique H. revert rows'.
  induction H as [|tag h tags rows [Hin Ht] _ IH]; intros rows' H';
    inversion H' as [|? h' ? rows'' [Hin' Ht'] Hrest]; subst; [reflexivity|].
  f_equal; [|now apply IH].
  eapply NoDup_map_inj; [exact Hunique|exact Hin|exact Hin'|congruence].
Qed.

(** C7: [linkHashtags] run twice for the same post and text, in an
    environment that leaves it in peace: both runs succeed and neither
    writes an error on the console; the second run finds every pair
    there and changes no link; and after the first run as after the
    second, every hashtag of the text has a row that exactly one link row
    ties to the post.  In the store, whatever its state: once the upsert
    of a list of links has gone through, sending the same list again is
    accepted without error and changes nothing, and the table holds
    exactly one row for each of the pairs. *)
Theorem post_hashtag_link_idempotent
    (postId : uuid) (content : string) (m : Machine) :
  let once := snd (run (linkHashtags postId content) m) in
  let twice := snd (run (linkHashtags postId content) once) in
  undisturbed m ->
  NoDup (map Hashtag.tag (hashtags (db m))) ->
  NoDup (post_hashtags (db m)) ->
  post_exists (db m) postId = true ->
  (fst (run (linkHashtags postId content) m) = Fulfilled tt
   /\ fst (run (linkHashtags postId content) once) = Fulfilled tt
   /\ console twice = console m
   /\ post_hashtags (db twice) = post_hashtags (db once)
   /\ forall tag, In tag (parseHashtags content) ->
      exists h,
        In h (hashtags (db once))
        /\ Hashtag.tag h = tag
        /\ List.length
             (filter (same_post_hashtag (PostHashtag.mk postId (Hashtag.id h)))
                (post_hashtags (db once))) = 1
        /\ List.length
             (filter (same_post_hashtag (PostHashtag.mk postId (Hashtag.id h)))
                (post_hashtags (db twice))) = 1)
  /\ (forall (rows : list PostHashtag.t) (d : Db),
      let first := exec (UpsertPostHashtags rows) d in
      let second := exec (UpsertPostHashtags rows) (snd first) in
      NoDup (post_hashtags d) ->
      error (fst first) = None ->
      second = (Store.done, snd first)
      /\ forall r, In r rows ->
           List.length (filter (same_post_hashtag r) (post_hashtags (snd first)))
           = 1).
Proof.
  intros once twice Hm Hunique Hkey Hpost.
  split; [|intros rows d; apply upsert_post_hashtags_idempotent].
  destruct (@linkHashtags_effect postId content m Hm Hunique Hpost)
    as (Hok & Hm1 & Hu1 & Hc1 & Hp1 & Hkeep1 & rows & d1 & Hrows & Hup).
  fold once in Hok, Hm1, Hu1, Hc1, Hp1, Hkeep1, Hrows, Hup.
  assert (Hpost1 : post_exists (db once) postId = true)
    by (unfold post_exists; now rewrite Hp1).
  destruct (@linkHashtags_effect postId content once Hm1 Hu1 Hpost1)
    as (Hok' & _ & Hu2 & Hc2 & _ & Hkeep2 & rows' & d2 & Hrows' & Hup').
  fold twice in Hok', Hu2, Hc2, Hkeep2, Hrows', Hup'.
  assert (Hsame : rows' = rows).
  { apply (@rows_of_tags_unique (hashtags (db twice))
             (arrayFromSet (parseHashtags content)) rows' rows Hu2 Hrows').
    eapply Forall2_impl; [|exact Hrows]. cbv beta.
    intros tag h [Hin Ht]. split; [now apply Hkeep2|exact Ht]. }
  subst rows'.
  destruct (upsert_rows_grows _ _ _ Hup) as [_ Hlinked].
  assert (Hunchanged : post_hashtags (db twice) = post_hashtags (db once)).
  { rewrite (upsert_rows_present d2 _ _ Hlinked) in Hup'. now injection Hup'. }
  assert (Hkey1 : NoDup (post_hashtags (db once)))
    by (eapply upsert_rows_NoDup; [exact Hkey|exact Hup]).
  split; [exact Hok|]. split; [exact Hok'|].
  split; [now rewrite Hc2|]. split; [exact Hunchanged|].
  intros tag Htag. apply arrayFromSet_In in Htag.
  destruct (Forall2_In_left tag Hrows Htag) as (h & Hh & Hin & Ht).
  exists h. split; [exact Hin|]. split; [exact Ht|].
  rewrite Hunchanged.
  assert (List.length
            (filter (same_post_hashtag (PostHashtag.mk postId (Hashtag.id h)))
               (post_hashtags (db once))) = 1); [|now split].
  apply one_row_per_pair; [exact Hkey1|].
  apply Hlinked, in_map_iff. exists h. now split.
Qed.

Lemma post_hashtag_link_idempotent_witness :
  fst (run (linkHashtags 52 "#world #World #new")
         (mkMachine Scenario.town [] [] [[1; 0; 0; 1]]))
  = Fulfilled tt
  /\ post_hashtags
       (db (snd (run (linkHashtags 52 "#world #World #new")
                   (snd (run (linkHashtags 52 "#world #World #new")
                           (mkMachine Scenario.town [] [] [[1; 0; 0; 1]]))))))
     = post_hashtags
         (db (snd (run (linkHashtags 52 "#world #World #new")
                     (mkMachine Scenario.town [] [] [[1; 0; 0; 1]])))).
Proof.
  assert (Hunique : NoDup (map Hashtag.tag (hashtags Scenario.town)))
    by (repeat constructor; cbn; intuition).
  assert (Hkey : NoDup (post_hashtags Scenario.town))
    by (repeat constructor; cbn; intuition).
  pose proof (proj1 (@post_hashtag_link_idempotent 52 "#world #World #new"
                       (mkMachine Scenario.town [] [] [[1; 0; 0; 1]])
                       (Forall_nil _) Hunique Hkey eq_refl)) as H.
  cbv zeta in H. destruct H as (H1 & _ & _ & H4 & _).
  exact (conj H1 H4).
Defined.

(** ** Mentions *)

(** [insertMentions] in an environment that leaves it in peace, for a
    post that exists: it succeeds, and every profile whose handle the text
    mentions has a mention row for the post afterwards.  The mentions that
    were there stay. *)
Theorem mentioned_profiles_are_recorded
    (postId : uuid) (content : string) (m : Machine) (p : Profile.t) :
  let after := snd (run (insertMentions postId content) m) in
  undisturbed m ->
  post_exists (db m) postId = true ->
  In p (profiles (db m)) ->
  In (Profile.handle p) (parseMentions content) ->
  fst (run (insertMentions postId content) m) = Fulfilled tt
  /\ In (postId, Profile.id p) (map mention_pair (mentions (db after)))
  /\ (forall r, In r (mentions (db m)) -> In r (mentions (db after))).
Proof.
  intros after Hm Hpost Hp Hmentioned. subst after. unfold insertMentions.
  set (handles := arrayFromSet (parseMentions content)).
  assert (Hhandle : In (Profile.handle p) handles)
    by now apply arrayFromSet_In.
  destruct (List.length handles =? 0) eqn:Eempty.
  { apply Nat.eqb_eq, length_zero_iff_nil in Eempty.
    rewrite Eempty in Hhandle. destruct Hhandle. }
  cbn [run]. rewrite perform_undisturbed by exact Hm.
  cbn [fst snd exec select_profiles_by_handle error data ok].
  change (profiles (later m)) with (profiles (db m)).
  set (found := filter (fun q => existsb (String.eqb (Profile.handle q)) handles)
                  (profiles (db m))).
  assert (Hfound : In p found).
  { apply filter_In. split; [exact Hp|].
    apply existsb_exists. exists (Profile.handle p).
    split; [exact Hhandle|apply String.eqb_refl]. }
  set (m1 := mkMachine (later m) (console m) (tl (events m)) (schedules m)).
  assert (Hm1 : undisturbed m1) by now apply undisturbed_next.
  destruct (map (fun q => (Profile.id q, Profile.handle q)) found)
    as [|pair pairs] eqn:Epairs.
  { destruct found; [destruct Hfound|discriminate]. }
  rewrite <- Epairs. clear Epairs pair pairs. rewrite map_map. cbn [fst].
  cbn [run]. rewrite perform_undisturbed by exact Hm1.
  cbn [fst snd exec]. unfold insert_mentions.
  replace (forallb (fun r => post_exists (later m1) (fst r))
             (map (fun q => (postId, Profile.id q)) found)) with true.
  2:{ symmetry. apply forallb_forall. intros r Hr.
      apply in_map_iff in Hr as (q & <- & _). exact Hpost. }
  replace (forallb (fun r => profile_exists (later m1) (snd r))
             (map (fun q => (postId, Profile.id q)) found)) with true.
  2:{ symmetry. apply forallb_forall. intros r Hr.
      apply in_map_iff in Hr as (q & <- & Hq).
      apply filter_In in Hq as [Hq _].
      apply existsb_exists. exists q. split; [exact Hq|apply Nat.eqb_refl]. }
  cbn [negb fst snd error Store.done run db mentions with_uuid_next with_mentions].
  change (mentions (later m1)) with (mentions (db m)).
  split; [reflexivity|]. split.
  - rewrite map_app, mention_rows_pairs. apply in_or_app. right.
    apply in_map_iff. exists p. now split.
  - intros r Hr. apply in_or_app. now left.
Qed.

Lemma mentioned_profiles_are_recorded_witness :
  fst (run (insertMentions 53 "thanks @alice_dev") (idle Cases.city)) = Fulfilled tt
  /\ In (53, 1)
       (map mention_pair
          (mentions (db (snd (run (insertMentions 53 "thanks @alice_dev")
                                (idle Cases.city)))))).
Proof.
  pose proof (@mentioned_profiles_are_recorded 53 "thanks @alice_dev"
                (idle Cases.city) Scenario.alice
                (Forall_nil _) eq_refl (or_introl eq_refl) (or_introl eq_refl)) as H.
  cbv zeta in H. destruct H as (H1 & H2 & _).
  exact (conj H1 H2).
Defined.

(* ===================================================================== *)
(** * Deleting from the post card                                         *)
(* ===================================================================== *)

Lemma ext_run_lift {A} (p : Prog A) :
  forall m, AsyncExt.run (AsyncExt.lift p) m = run p m.
Proof.
  induction p as [a|e|R eff k IH]; intros m; cbn; [reflexivity..|apply IH].
Qed.

Lemma delete_post_posts (auth_uid : option uuid) (id : uuid) (d : Db) (p : Post.t) :
  In p (posts (snd (delete_post auth_uid id d)))
  <-> In p (posts d) /\ deletable auth_uid id p = false.
Proof.
  unfold delete_post.
  destruct (existsb (deletable auth_uid id) (posts d)) eqn:Ex;
    cbn [snd posts with_posts].
  - now rewrite filter_In, negb_true_iff.
  - split; [|tauto]. intros Hp. split; [exact Hp|].
    destruct (deletable auth_uid id p) eqn:E; [|reflexivity].
    rewrite <- Ex. symmetry. apply existsb_exists. now exists p.
Qed.

Lemma delete_post_hidden (auth_uid : option uuid) (id : uuid) (d : Db) :
  existsb (deletable auth_uid id) (posts d) = false ->
  snd (delete_post auth_uid id d) = d.
Proof. unfold delete_post. now intros ->. Qed.

Lemma run_deletePost (auth_uid : option uuid) (postId : uuid) (m : Machine) :
  let d := disturb (hd calm (events m)) (db m) in
  fault (hd calm (events m)) = None ->
  run (deletePost auth_uid postId) m
  = (Fulfilled tt,
     mkMachine (snd (delete_post auth_uid postId d))
       (console m) (tl (events m)) (schedules m)).
Proof.
  intros d Hfault. unfold deletePost. cbn [run].
  rewrite perform_Query_answered by exact Hfault. fold d.
  cbn [fst snd exec]. unfold delete_post.
  now destruct (existsb (deletable auth_uid postId) (posts d)).
Qed.

(** [handleDelete] on a post that the browser takes for the viewer's own:
    [onDelete] is called and the button is idle again.  When the store
    has the post, not soft-deleted, and the session is its author's, the
    row is removed, and from then on, as long as nobody writes, no page of
    a home feed or of a profile feed shows the post; when the session is
    not the author's, the store stays as the request found it. *)
Lemma handleDelete_own_post
    (auth_uid : option uuid) (today : timestamptz) (viewer : Profile.t)
    (post : Post.t) (m : Machine) :
  let d := disturb (hd calm (events m)) (db m) in
  let r := AsyncExt.run (handleDelete auth_uid today (Some viewer) post false) m in
  fault (hd calm (events m)) = None ->
  Profile.id viewer = Post.user_id post ->
  fst r = Fulfilled (mkDeleteButton false true)
  /\ (forall p, In p (posts (db (snd r)))
                <-> In p (posts d)
                    /\ ~ (Post.id p = Post.id post
                          /\ Post.is_deleted p = Some false
                          /\ auth_uid = Some (Post.user_id p)))
  /\ (NoDup (map Post.id (posts d)) ->
      (exists p, In p (posts d) /\ Post.id p = Post.id post
                 /\ Post.is_deleted p = Some false
                 /\ auth_uid = Some (Post.user_id p)) ->
      post_exists (db (snd r)) (Post.id post) = false
      /\ (alone (snd r) ->
          (forall reader cursor limit page,
             fst (run (getHomeFeed reader cursor limit) (snd r))
             = Fulfilled (Some page) ->
             Forall (fun row => Post.id (FeedRow.post row) <> Post.id post) page)
          /\ (forall subject cursor limit page,
                fst (run (getUserPosts subject cursor limit) (snd r))
                = Fulfilled (Some page) ->
                Forall (fun row => Post.id (FeedRow.post row) <> Post.id post)
                  page)))
  /\ ((forall p, In p (posts d) -> Post.id p = Post.id post ->
       auth_uid <> Some (Post.user_id p) \/ Post.is_deleted p <> Some false) ->
      db (snd r) = d).
Proof.
  intros d r Hfault Hown.
  assert (Hrun :
    r = (Fulfilled (mkDeleteButton false true),
         mkMachine (snd (delete_post auth_uid (Post.id post) d))
           (console m) (tl (events m)) (schedules m))).
  { subst r. unfold handleDelete. rewrite ext_run_settle.
    unfold isOwnPost. apply Nat.eqb_eq in Hown. rewrite Hown.
    rewrite ext_run_lift, run_deletePost by exact Hfault. reflexivity. }
  assert (Hposts :
    forall p, In p (posts (db (snd r)))
              <-> In p (posts d)
                  /\ ~ (Post.id p = Post.id post
                        /\ Post.is_deleted p = Some false
                        /\ auth_uid = Some (Post.user_id p))).
  { intros p. rewrite Hrun. cbn [snd db].
    rewrite delete_post_posts, <- deletable_iff.
    now destruct (deletable auth_uid (Post.id post) p). }
  split; [now rewrite Hrun|]. split; [exact Hposts|]. split.
  - intros Hkey (p & Hp & Hid & Hlive & Hsession).
    assert (Hgone : forall p', In p' (posts (db (snd r))) ->
                               Post.id p' <> Post.id post).
    { intros p' Hp' Hid'. apply Hposts in Hp' as [Hp' Hkeep].
      assert (p' = p).
      { eapply NoDup_map_inj; [exact Hkey|exact Hp'|exact Hp|congruence]. }
      subst p'. now apply Hkeep. }
    assert (Hlive' :
      forall page,
      Forall (fun row => In (FeedRow.post row) (posts (db (snd r)))
                         /\ not_deleted row) page ->
      Forall (fun row => Post.id (FeedRow.post row) <> Post.id post) page).
    { intros page. apply Forall_impl. intros row [Hin _]. now apply Hgone. }
    split.
    + unfold post_exists. apply not_true_is_false. intros H.
      apply existsb_exists in H as (p' & Hp' & E). apply Nat.eqb_eq in E.
      now apply (Hgone p' Hp').
    + intros Halone. split.
      * intros reader cursor limit page Hpage. apply Hlive'.
        now apply (@getHomeFeed_rows_live reader cursor limit (snd r) page).
      * intros subject cursor limit page Hpage. apply Hlive'.
        now apply (@getUserPosts_rows_live subject cursor limit (snd r) page).
  - intros Hnone. rewrite Hrun. cbn [snd db]. apply delete_post_hidden.
    apply not_true_is_false. intros Ex.
    apply existsb_exists in Ex as (p & Hp & E).
    apply deletable_iff in E as (Hid & Hlive & Hsession).
    destruct (Hnone p Hp Hid); contradiction.
Qed.

(** [handleDelete] by a viewer whom the browser takes for an administrator,
    on the post of somebody else: the store stays as the request found
    it.  When the store has the post, not soft-deleted, and the session is
    that of an administrator (or of the author), the update is refused,
    the error goes to the console and [onDelete] is not called; otherwise
    the update reaches no row, and [onDelete] is called. *)
Lemma handleDelete_moderator
    (auth_uid : option uuid) (today : timestamptz) (viewer : Profile.t)
    (post : Post.t) (m : Machine) :
  let d := disturb (hd calm (events m)) (db m) in
  let r := AsyncExt.run (handleDelete auth_uid today (Some viewer) post false) m in
  fault (hd calm (events m)) = None ->
  Profile.id viewer <> Post.user_id post ->
  Profile.is_admin viewer = Some true ->
  db (snd r) = d
  /\ ((exists p, In p (posts d) /\ Post.id p = Post.id post
                 /\ Post.is_deleted p = Some false
                 /\ (auth_uid = Some (Post.user_id p)
                     \/ StoreExt.is_admin_user d auth_uid = true)) ->
      fst r = Fulfilled (mkDeleteButton false false)
      /\ console (snd r)
         = console m
           ++ ["Failed to delete post: "
               ++ message (StoreExt.row_security_violation "posts")]%string)
  /\ ((forall p, In p (posts d) -> Post.id p = Post.id post ->
       Post.is_deleted p = Some false ->
       auth_uid <> Some (Post.user_id p)
       /\ StoreExt.is_admin_user d auth_uid = false) ->
      fst r = Fulfilled (mkDeleteButton false true)
      /\ console (snd r) = console m).
Proof.
  intros d r Hfault Hother Hadmin.
  assert (Hrun :
    r = (if existsb (StoreExt.updatable d auth_uid (Post.id post)) (posts d)
         then
           (Fulfilled (mkDeleteButton false false),
            mkMachine d
              (console m
               ++ ["Failed to delete post: "
                   ++ message (StoreExt.row_security_violation "posts")]%string)
              (tl (events m)) (schedules m))
         else
           (Fulfilled (mkDeleteButton false true),
            mkMachine d (console m) (tl (events m)) (schedules m)))).
  { subst r. unfold handleDelete. rewrite ext_run_settle.
    unfold isOwnPost, isAdmin. apply Nat.eqb_neq in Hother.
    rewrite Hother, Hadmin.
    rewrite run_softDeletePost by exact Hfault. fold d.
    now destruct (existsb (StoreExt.updatable d auth_uid (Post.id post)) (posts d)). }
  split; [|split].
  - rewrite Hrun.
    now destruct (existsb (StoreExt.updatable d auth_uid (Post.id post)) (posts d)).
  - intros (p & Hp & Hid & Hlive & Hright). rewrite Hrun.
    replace (existsb (StoreExt.updatable d auth_uid (Post.id post)) (posts d))
      with true; [now split|].
    symmetry. apply existsb_exists. exists p. split; [exact Hp|].
    now apply updatable_iff.
  - intros Hnone. rewrite Hrun.
    destruct (existsb (StoreExt.updatable d auth_uid (Post.id post)) (posts d))
      eqn:Ex; [|now split].
    apply existsb_exists in Ex as (p & Hp & E).
    apply updatable_iff in E as (Hid & Hlive & Hright).
    destruct (Hnone p Hp Hid Hlive) as [Hsession Hnoadmin].
    destruct Hright; congruence.
Qed.

(** [handleDelete] never fails.  Called by a viewer who is neither the
    author nor an administrator it sends no request, and yet calls
    [onDelete]; when the request fails it writes one line on the console,
    does not call [onDelete], and leaves the store as the request found
    it.  While a deletion is under way a second click does nothing. *)
Lemma handleDelete_edge_cases
    (auth_uid : option uuid) (today : timestamptz) (viewer : Profile.t)
    (post : Post.t) (m : Machine) :
  let d := disturb (hd calm (events m)) (db m) in
  let r := AsyncExt.run (handleDelete auth_uid today (Some viewer) post false) m in
  (isOwnPost (Some viewer) post = false -> isAdmin (Some viewer) = false ->
   r = (Fulfilled (mkDeleteButton false true), m))
  /\ (forall e, fault (hd calm (events m)) = Some e ->
      isOwnPost (Some viewer) post = true \/ isAdmin (Some viewer) = true ->
      fst r = Fulfilled (mkDeleteButton false false)
      /\ db (snd r) = d
      /\ console (snd r) = console m ++ ["Failed to delete post: " ++ message e]%string)
  /\ AsyncExt.run (handleDelete auth_uid today (Some viewer) post true) m
     = (Fulfilled (mkDeleteButton true false), m).
Proof.
  intros d r. subst r. split; [|split; [|reflexivity]].
  - intros Hown Hadmin. unfold handleDelete. rewrite ext_run_settle.
    now rewrite Hown, Hadmin.
  - intros e Hfault Hright. unfold handleDelete. rewrite ext_run_settle.
    destruct (isOwnPost (Some viewer) post).
    + rewrite ext_run_lift. unfold deletePost. cbn [run].
      rewrite perform_Query_fault with (e := e) by exact Hfault. fold d.
      cbn. repeat split.
    + destruct Hright as [Hown|Hadmin]; [discriminate|]. rewrite Hadmin.
      unfold ApiExt.softDeletePost. cbn [AsyncExt.run AsyncExt.perform].
      rewrite request_fault with (e := e) by exact Hfault. fold d.
      cbn. repeat split.
Qed.

(** [handleDelete] never fails.  On a post that the browser takes for the
    viewer's own it calls [onDelete] and leaves the button idle; the row
    is removed when the store has the post, not soft-deleted, and the
    session is its author's, and then no page of a home feed or of a
    profile feed shows the post any more; with another session the store
    stays as it was.  On the post of somebody else, by a viewer whom the
    browser takes for an administrator, the store stays as it was in
    every case: when the session is an administrator's the update is
    refused by the SELECT policy of [posts], the error goes to the
    console and [onDelete] is not called; when the policies hide the row
    from the update, [onDelete] is called.  By a viewer who is neither it
    sends no request and yet calls [onDelete]; when the request fails it
    writes one line on the console, does not call [onDelete] and leaves
    the store as the request found it; while a deletion is under way a
    second click does nothing. *)
Theorem handleDelete_outcome
    (auth_uid : option uuid) (today : timestamptz) (viewer : Profile.t)
    (post : Post.t) (m : Machine) :
  (let d := disturb (hd calm (events m)) (db m) in
   let r := AsyncExt.run (handleDelete auth_uid today (Some viewer) post false) m in
   fault (hd calm (events m)) = None ->
   Profile.id viewer = Post.user_id post ->
   fst r = Fulfilled (mkDeleteButton false true)
   /\ (forall p, In p (posts (db (snd r)))
                 <-> In p (posts d)
                     /\ ~ (Post.id p = Post.id post
                           /\ Post.is_deleted p = Some false
                           /\ auth_uid = Some (Post.user_id p)))
   /\ (NoDup (map Post.id (posts d)) ->
       (exists p, In p (posts d) /\ Post.id p = Post.id post
                  /\ Post.is_deleted p = Some false
                  /\ auth_uid = Some (Post.user_id p)) ->
       post_exists (db (snd r)) (Post.id post) = false
       /\ (alone (snd r) ->
           (forall reader cursor limit page,
              fst (run (getHomeFeed reader cursor limit) (snd r))
              = Fulfilled (Some page) ->
              Forall (fun row => Post.id (FeedRow.post row) <> Post.id post) page)
           /\ (forall subject cursor limit page,
                 fst (run (getUserPosts subject cursor limit) (snd r))
                 = Fulfilled (Some page) ->
                 Forall (fun row => Post.id (FeedRow.post row) <> Post.id post)
                   page)))
   /\ ((forall p, In p (posts d) -> Post.id p = Post.id post ->
        auth_uid <> Some (Post.user_id p) \/ Post.is_deleted p <> Some false) ->
       db (snd r) = d))
  /\ (let d := disturb (hd calm (events m)) (db m) in
      let r := AsyncExt.run (handleDelete auth_uid today (Some viewer) post false) m in
      fault (hd calm (events m)) = None ->
      Profile.id viewer <> Post.user_id post ->
      Profile.is_admin viewer = Some true ->
      db (snd r) = d
      /\ ((exists p, In p (posts d) /\ Post.id p = Post.id post
                     /\ Post.is_deleted p = Some false
                     /\ (auth_uid = Some (Post.user_id p)
                         \/ StoreExt.is_admin_user d auth_uid = true)) ->
          fst r = Fulfilled (mkDeleteButton false false)
          /\ console (snd r)
             = console m
               ++ ["Failed to delete post: "
                   ++ message (StoreExt.row_security_violation "posts")]%string)
      /\ ((forall p, In p (posts d) -> Post.id p = Post.id post ->
           Post.is_deleted p = Some false ->
           auth_uid <> Some (Post.user_id p)
           /\ StoreExt.is_admin_user d auth_uid = false) ->
          fst r = Fulfilled (mkDeleteButton false true)
          /\ console (snd r) = console m))
  /\ (let d := disturb (hd calm (events m)) (db m) in
      let r := AsyncExt.run (handleDelete auth_uid today (Some viewer) post false) m in
      (isOwnPost (Some viewer) post = false -> isAdmin (Some viewer) = false ->
       r = (Fulfilled (mkDeleteButton false true), m))
      /\ (forall e, fault (hd calm (events m)) = Some e ->
          isOwnPost (Some viewer) post = true \/ isAdmin (Some viewer) = true ->
          fst r = Fulfilled (mkDeleteButton false false)
          /\ db (snd r) = d
          /\ console (snd r) = console m ++ ["Failed to delete post: " ++ message e]%string)
      /\ AsyncExt.run (handleDelete auth_uid today (Some viewer) post true) m
         = (Fulfilled (mkDeleteButton true false), m)).
Proof.
  split; [|split].
  - exact (@handleDelete_own_post auth_uid today viewer post m).
  - exact (@handleDelete_moderator auth_uid today viewer post m).
  - exact (@handleDelete_edge_cases auth_uid today viewer post m).
Qed.

Lemma handleDelete_outcome_witness :
  (fst (AsyncExt.run
          (handleDelete (Some 2) 2000%Z (Some Scenario.bob) Cases.answer false)
          (idle Cases.city))
   = Fulfilled (mkDeleteButton false true)
   /\ post_exists
        (db (snd (AsyncExt.run
                    (handleDelete (Some 2) 2000%Z (Some Scenario.bob)
                       Cases.answer false)
                    (idle Cases.city))))
        52
      = false)
  /\ (fst (AsyncExt.run
             (handleDelete (Some 3) 2000%Z (Some Cases.carol) Cases.answer false)
             (idle Cases.moderated))
      = Fulfilled (mkDeleteButton false false)
      /\ db (snd (AsyncExt.run
                    (handleDelete (Some 3) 2000%Z (Some Cases.carol)
                       Cases.answer false)
                    (idle Cases.moderated)))
         = Cases.moderated).
Proof.
  split.
  - pose proof (proj1 (@handleDelete_outcome (Some 2) 2000%Z Scenario.bob
                         Cases.answer (idle Cases.city))
                  eq_refl eq_refl) as H.
    cbv zeta in H. destruct H as (H1 & _ & H3 & _). split; [exact H1|].
    refine (proj1 (H3 _ _)).
    + repeat constructor; simpl; intuition discriminate.
    + exists Cases.answer. split; [right; left; reflexivity|]. now repeat split.
  - pose proof (proj1 (proj2 (@handleDelete_outcome (Some 3) 2000%Z Cases.carol
                                Cases.answer (idle Cases.moderated)))
                  eq_refl) as H.
    cbv zeta in H. destruct H as (H1 & H2 & _); [discriminate|reflexivity|].
    split; [|exact H1]. apply H2. exists Cases.answer.
    split; [right; left; reflexivity|]. split; [reflexivity|].
    split; [reflexivity|right; reflexivity].
Defined.


(* ===================================================================== *)
(** * What the pages show                                                 *)
(* ===================================================================== *)

Section Shown.
Import Pages.

(** ** Reading a map of post ids *)






(** ** The two like queries, in either order *)







(** ** The page of posts *)





Lemma authors_known_with_now (t : timestamptz) (d : Db) :
  authors_known d -> authors_known (with_now t d).
Proof. now intros H. Qed.








End Shown.
